(** * Digital Garden page compiler

    A shallow embedding of [src/compiler/GardenPageCompiler.ts]: the ordered
    text-rewrite passes of [generateMarkdown], the depth-bounded transclusion
    resolver and the image extraction pass, with the properties the
    specification states about them.

    Text is a list of code units.  The development covers the Latin-1 range
    (one [ascii] per UTF-16 code unit below 256), in which the line
    terminators excluded by [.] are line feed and carriage return. *)

From Stdlib Require Import Ascii String DecimalString DecimalNat.
From Stdlib Require Import List Sorted FinFun Arith Bool ZArith Lia.
Import ListNotations.

Definition str := list ascii.

(** ** Reading JavaScript string literals

    Rocq strings have no escapes; [js] reads the body of a JavaScript literal:
    [\n], [\t], [\\] and [\xHH]. *)

Definition hexval (c : ascii) : option nat :=
  let n := nat_of_ascii c in
  if (48 <=? n) && (n <=? 57) then Some (n - 48)
  else if (97 <=? n) && (n <=? 102) then Some (n - 87)
  else if (65 <=? n) && (n <=? 70) then Some (n - 55)
  else None.

Definition nl : ascii := ascii_of_nat 10.
Definition cr : ascii := ascii_of_nat 13.
Definition bsl : ascii := ascii_of_nat 92.

Fixpoint unescape (s : str) : str :=
  match s with
  | [] => []
  | c :: r =>
      if Ascii.eqb c bsl then
        match r with
        | "n"%char :: r' => nl :: unescape r'
        | "t"%char :: r' => ascii_of_nat 9 :: unescape r'
        | "x"%char :: h :: l :: r' =>
            match hexval h, hexval l with
            | Some a, Some b => ascii_of_nat (16 * a + b) :: unescape r'
            | _, _ => c :: unescape r
            end
        | e :: r' => if Ascii.eqb e bsl then bsl :: unescape r' else c :: unescape r
        | [] => [c]
        end
      else c :: unescape r
  end.

Definition js (s : string) : str := unescape (list_ascii_of_string s).

(** ** String primitives of the JavaScript runtime *)

Module Str.

Fixpoint eqb (a b : str) : bool :=
  match a, b with
  | [], [] => true
  | x :: a', y :: b' => Ascii.eqb x y && eqb a' b'
  | _, _ => false
  end.

Fixpoint startsWith (s p : str) {struct p} : bool :=
  match p with
  | [] => true
  | x :: p' =>
      match s with
      | y :: s' => Ascii.eqb x y && startsWith s' p'
      | [] => false
      end
  end.

(** Offset of the first occurrence of [p] in [s]. *)
Fixpoint find (s p : str) : option nat :=
  if startsWith s p then Some 0
  else match s with
       | [] => None
       | _ :: s' => option_map S (find s' p)
       end.

(** Offset of the last occurrence of [p] in [s]. *)
Fixpoint rfind (s p : str) : option nat :=
  match s with
  | [] => if startsWith s p then Some 0 else None
  | _ :: s' =>
      match rfind s' p with
      | Some i => Some (S i)
      | None => if startsWith s p then Some 0 else None
      end
  end.

Definition indexOf (s p : str) : Z :=
  match find s p with Some i => Z.of_nat i | None => (-1)%Z end.

Definition lastIndexOf (s p : str) : Z :=
  match rfind s p with Some i => Z.of_nat i | None => (-1)%Z end.

Definition includes (s p : str) : bool :=
  match find s p with Some _ => true | None => false end.

Definition endsWith (s p : str) : bool := startsWith (rev s) (rev p).

Definition clamp (z : Z) (len : nat) : nat := Nat.min (Z.to_nat z) len.

(** [s.substring(a, b)]: both ends clamped into the string, swapped when
    [a > b]. *)
Definition substring (s : str) (a b : Z) : str :=
  let a' := clamp a (length s) in
  let b' := clamp b (length s) in
  let lo := Nat.min a' b' in
  let hi := Nat.max a' b' in
  firstn (hi - lo) (skipn lo s).

(** [a.slice(from, to)] and [a.slice(from)] on arrays, for indices that are
    natural numbers. *)
Definition slice {A} (l : list A) (from to : nat) : list A :=
  firstn (to - from) (skipn from l).

Definition sliceFrom {A} (l : list A) (from : nat) : list A := skipn from l.

Fixpoint split_fuel (n : nat) (sep s : str) : list str :=
  match n with
  | 0 => [s]
  | S n' =>
      match find s sep with
      | None => [s]
      | Some i => firstn i s :: split_fuel n' sep (skipn (i + length sep) s)
      end
  end.

(** [s.split(sep)] for a non-empty separator. *)
Definition split (s sep : str) : list str := split_fuel (length s) sep s.

Fixpoint join (sep : str) (l : list str) : str :=
  match l with
  | [] => []
  | [x] => x
  | x :: l' => x ++ sep ++ join sep l'
  end.

(** Expansion of a replacement string for a string pattern (no captures):
    [$$], [$&], [$`] and [$'] are special, every other [$] is literal. *)
Fixpoint expand (repl matched before after : str) : str :=
  match repl with
  | [] => []
  | "$"%char :: r =>
      match r with
      | "$"%char :: r' => "$"%char :: expand r' matched before after
      | "&"%char :: r' => matched ++ expand r' matched before after
      | "`"%char :: r' => before ++ expand r' matched before after
      | "'"%char :: r' => after ++ expand r' matched before after
      | _ => "$"%char :: expand r matched before after
      end
  | c :: r => c :: expand r matched before after
  end.

(** [s.replace(p, repl)] with a string pattern: the first occurrence only. *)
Definition replace (s p repl : str) : str :=
  match find s p with
  | None => s
  | Some i =>
      let before := firstn i s in
      let after := skipn (i + length p) s in
      before ++ expand repl p before after ++ after
  end.

End Str.

(** ** Regular expressions

    A backtracking matcher with the priorities of the JavaScript engine:
    alternatives left to right, greedy repetition longest first, lazy
    repetition shortest first.  The patterns of the compiler use no anchors,
    so a match at a position depends on the text from that position on. *)

Module Regex.

Inductive regex : Type :=
| Eps
| Chr (c : ascii)
| Cls (p : ascii -> bool)
| Seq (r1 r2 : regex)
| Alt (r1 r2 : regex)
| Star (greedy : bool) (r : regex)
| Grp (n : nat) (r : regex).

Definition caps := list (nat * str).

Definition K := str -> caps -> option (str * caps).

Definition orElse {A} (a b : option A) : option A :=
  match a with Some x => Some x | None => b end.

(** The loop of a repetition of [step]: an iteration has to consume input,
    and [fuel], the length of the input, bounds the iterations. *)
Fixpoint star (g : bool) (step : str -> caps -> K -> option (str * caps))
  (k : K) (fuel : nat) (s : str) (c : caps) : option (str * caps) :=
  match fuel with
  | 0 => k s c
  | S f =>
      let more :=
        step s c
          (fun s' c' =>
             if length s' <? length s then star g step k f s' c' else None) in
      if g then orElse more (k s c) else orElse (k s c) more
  end.

Fixpoint run (r : regex) (s : str) (c : caps) (k : K) : option (str * caps) :=
  match r with
  | Eps => k s c
  | Chr a =>
      match s with
      | x :: s' => if Ascii.eqb x a then k s' c else None
      | [] => None
      end
  | Cls p =>
      match s with
      | x :: s' => if p x then k s' c else None
      | [] => None
      end
  | Seq r1 r2 => run r1 s c (fun s' c' => run r2 s' c' k)
  | Alt r1 r2 => orElse (run r1 s c k) (run r2 s c k)
  | Star g r1 => star g (run r1) k (length s) s c
  | Grp n r1 =>
      run r1 s c
        (fun s' c' => k s' ((n, firstn (length s - length s') s) :: c'))
  end.

Definition Plus (g : bool) (r : regex) : regex := Seq r (Star g r).

Fixpoint Lit (s : str) : regex :=
  match s with
  | [] => Eps
  | c :: s' => Seq (Chr c) (Lit s')
  end.

(** A match of [r] at the start of [s]: the matched text and the captures. *)
Definition matchAt (r : regex) (s : str) : option (str * caps) :=
  match run r s [] (fun s' c => Some (s', c)) with
  | Some (rest, c) => Some (firstn (length s - length rest) s, c)
  | None => None
  end.

Fixpoint group (n : nat) (c : caps) : str :=
  match c with
  | [] => []
  | (m, v) :: c' => if Nat.eqb m n then v else group n c'
  end.

(** All matches of a global pattern, left to right, not overlapping; after
    an empty match the scan moves on by one code unit. *)
Fixpoint scan (r : regex) (s : str) (skip : nat) : list (str * caps) :=
  match s with
  | [] =>
      match skip with
      | 0 => match matchAt r [] with Some m => [m] | None => [] end
      | S _ => []
      end
  | _ :: s' =>
      match skip with
      | S k => scan r s' k
      | 0 =>
          match matchAt r s with
          | Some (m, c) => (m, c) :: scan r s' (length m - 1)
          | None => scan r s' 0
          end
      end
  end.

Definition matchAll (r : regex) (s : str) : list (str * caps) := scan r s 0.

(** The same scan, giving the spans (offset, length) of the matches; [pos]
    is the offset of [s] in the whole text. *)
Fixpoint scanSpans (r : regex) (s : str) (skip pos : nat) : list (nat * nat) :=
  match s with
  | [] =>
      match skip with
      | 0 => match matchAt r [] with Some _ => [(pos, 0)] | None => [] end
      | S _ => []
      end
  | _ :: s' =>
      match skip with
      | S k => scanSpans r s' k (S pos)
      | 0 =>
          match matchAt r s with
          | Some (m, _) => (pos, length m) :: scanSpans r s' (length m - 1) (S pos)
          | None => scanSpans r s' 0 (S pos)
          end
      end
  end.

Definition spans (r : regex) (s : str) : list (nat * nat) := scanSpans r s 0 0.

(** [s.match(r)] for a global pattern: the matched texts ([null] is the
    empty list; every caller treats the two alike). *)
Definition matches (r : regex) (s : str) : list str := map fst (matchAll r s).

(** [s.replace(r, f)] for a global pattern and a replacement function. *)
Fixpoint replaceWith (r : regex) (f : str -> caps -> str) (s : str) (skip : nat)
  : str :=
  match s with
  | [] =>
      match skip with
      | 0 => match matchAt r [] with Some (m, c) => f m c | None => [] end
      | S _ => []
      end
  | x :: s' =>
      match skip with
      | S k => replaceWith r f s' k
      | 0 =>
          match matchAt r s with
          | Some (m, c) =>
              f m c ++
              match m with
              | [] => x :: replaceWith r f s' 0
              | _ :: m' => replaceWith r f s' (length m')
              end
          | None => x :: replaceWith r f s' 0
          end
      end
  end.

Definition replaceAll (r : regex) (f : str -> caps -> str) (s : str) : str :=
  replaceWith r f s 0.

(** Character classes. *)
Definition between (lo hi : nat) (c : ascii) : bool :=
  (lo <=? nat_of_ascii c) && (nat_of_ascii c <=? hi).

Definition isDigit (c : ascii) : bool := between 48 57 c.

(** [\w] *)
Definition isWord (c : ascii) : bool :=
  between 97 122 c || between 65 90 c || isDigit c || Ascii.eqb c "_"%char.

(** [\s] in the Latin-1 range: tab, line feed, vertical tab, form feed,
    carriage return, space and no-break space. *)
Definition isSpace (c : ascii) : bool :=
  between 9 13 c || Ascii.eqb c " "%char || Nat.eqb (nat_of_ascii c) 160.

(** [.] without the [s] flag. *)
Definition isDot (c : ascii) : bool :=
  negb (Ascii.eqb c nl || Ascii.eqb c cr).

(** [.] with the [s] flag. *)
Definition isAny (_ : ascii) : bool := true.

End Regex.

(** ** Patterns declared outside the compiler

    [FRONTMATTER_REGEX], [BLOCKREF_REGEX], [CODEBLOCK_REGEX],
    [CODE_FENCE_REGEX], [EXCALIDRAW_REGEX] and [TRANSCLUDED_SVG_REGEX] are
    imported from [utils/regexes].  The compiler uses them as global
    patterns, with [match] for all the matches of a text and with [replace],
    so each is taken as the function giving, for a text, the spans (offset,
    length) of its matches from left to right. *)

Module Pat.

Definition pattern := str -> list (nat * nat).

Definition matches (p : pattern) (s : str) : list str :=
  map (fun ol => firstn (snd ol) (skipn (fst ol) s)) (p s).

Fixpoint rebuild (spans : list (nat * nat)) (f : str -> str) (s : str)
  (pos : nat) : str :=
  match spans with
  | [] => skipn pos s
  | (o, l) :: r =>
      firstn (o - pos) (skipn pos s) ++
      f (firstn l (skipn o s)) ++ rebuild r f s (o + l)
  end.

(** [s.replace(P, f)] *)
Definition replaceAll (p : pattern) (f : str -> str) (s : str) : str :=
  rebuild (p s) f s 0.

(** [s.replace(P, "")] *)
Definition remove (p : pattern) (s : str) : str := replaceAll p (fun _ => []) s.

End Pat.

(** ** Data model *)

Record TFile := {
  path : str;
  name : str;
  basename : str;
  extension : str
}.

(** A heading of the metadata cache; [headingLine] is [position.start.line]. *)
Record HeadingCache := {
  heading : str;
  level : nat;
  headingLine : nat
}.

(** A block anchor: [position.start.line] and [position.end.line]. *)
Record BlockCache := {
  startLine : nat;
  endLine : nat
}.

Record CachedMetadata := {
  headings : option (list HeadingCache);
  blocks : option (str -> option BlockCache);
  (** [frontmatter["dg-permalink"]], when the front matter has the key *)
  dgPermalink : option str
}.

Record Asset := {
  assetPath : str;
  content : str
}.

Definition TCompiledFile := (str * list Asset)%type.

Record ExcalidrawOptions := {
  includeExcaliDrawJs : bool;
  idAppendage : option str;
  includeFrontMatter : option bool
}.

Record CustomFilter := {
  pattern : str;
  flags : str;
  replace : str
}.

(** The Dataview plugin API. [None] stands for a call that throws. *)
Record DataviewApi := {
  dataviewJsKeyword : str;
  inlineQueryPrefix : str;
  inlineJsQueryPrefix : str;
  tryQueryMarkdown : str -> str -> option str;
  (** [executeJs] leaves its rendering in [div.innerHTML] *)
  executeJs : str -> str -> option str;
  (** [tryEvaluate]: [Some (Some s)] for a truthy result whose [toString()]
      is [s], [Some None] for a falsy result; the compiler never gets as far
      as calling it *)
  tryEvaluate : str -> option (option str)
}.

(** What can be observed of the side effects of a compile: the notices shown
    to the user and the calls of the drawing compiler, in the order they
    happen. The events of a recursive call of the transclusion resolver are
    kept together under the document it was called on. Console output is
    left out. *)
#[warnings="-register-all"]
Inductive Event :=
| Notice (msg : str)
| CompileDrawing (opts : ExcalidrawOptions) (file : TFile)
| Inside (file : TFile) (events : list Event).

(** The collaborators of the compiler. A result in [option] is [None] when
    the call throws or the promise rejects. *)
Record Env := {
  (* metadataCache, vault *)
  getFirstLinkpathDest : str -> str -> option TFile;
  getFileCache : TFile -> option CachedMetadata;
  cachedRead : TFile -> option str;
  read : TFile -> option str;
  readBinary : TFile -> option (list Byte.byte);
  (* obsidian *)
  getLinkpath : str -> str;
  arrayBufferToBase64 : list Byte.byte -> str;
  (* PublishFile, Publisher *)
  getCompiledFrontmatter : TFile -> str;
  getFilesMarkedForPublishing : list TFile;
  (* settings *)
  customFilters : list CustomFilter;
  (* the engine behind [text.replace(RegExp(pattern, flags), replace)] *)
  regExpReplace : str -> str -> str -> str -> option str;
  (* utils *)
  slugify : str -> str;
  sanitizePermalink : str -> str;
  generateUrlPath : str -> str;
  getGardenPathForNote : str -> str;
  fixMarkdownHeaderSyntax : str -> str;
  setWidth : str -> str -> option str;
  decodeURI : str -> option str;
  (* ExcalidrawCompiler, obsidian-dataview *)
  compileMarkdown : ExcalidrawOptions -> TFile -> str -> option str;
  getAPI : option DataviewApi;
  (* utils/regexes *)
  FRONTMATTER_REGEX : Pat.pattern;
  BLOCKREF_REGEX : Pat.pattern;
  CODEBLOCK_REGEX : Pat.pattern;
  CODE_FENCE_REGEX : Pat.pattern;
  EXCALIDRAW_REGEX : Pat.pattern;
  TRANSCLUDED_SVG_REGEX : Pat.pattern
}.

(** ** A writer monad for the events of a pass *)

Definition M (A : Type) : Type := (A * list Event)%type.

Definition ret {A} (a : A) : M A := (a, []).

Definition bind {A B} (m : M A) (f : A -> M B) : M B :=
  let (a, l) := m in let (b, l') := f a in (b, l ++ l').

Definition tell (e : Event) : M unit := (tt, [e]).

Definition inside {A} (file : TFile) (m : M A) : M A :=
  (fst m, [Inside file (snd m)]).

Notation "x <- m ;; k" := (bind m (fun x => k))
  (at level 61, m at next level, right associativity).
Notation "m ;;; k" := (bind m (fun _ => k))
  (at level 61, right associativity).

Fixpoint foldM {A S} (f : S -> A -> M S) (l : list A) (s : S) : M S :=
  match l with
  | [] => ret s
  | a :: l' => s' <- f s a ;; foldM f l' s'
  end.

(** Truthiness of a string that may be [undefined]. *)
Definition truthy (o : option str) : bool :=
  match o with
  | Some (_ :: _) => true
  | _ => false
  end.

Definition isNonEmpty (s : str) : bool :=
  match s with [] => false | _ => true end.

(** [`${n}`] for a number. *)
Definition numToString (n : nat) : str :=
  list_ascii_of_string (NilEmpty.string_of_uint (Nat.to_uint n)).

Import Regex.

(** ** The patterns written in the compiler *)

(** [[\w\d-]] *)
Definition isIdChar (c : ascii) : bool :=
  isWord c || isDigit c || Ascii.eqb c "-"%char.

(** [/ \^([\w\d-]+)/g] *)
Definition block_pattern : regex :=
  Seq (Lit (js " ^")) (Grp 1 (Plus true (Cls isIdChar))).

(** [/\n\^([\w\d-]+)\n/g] *)
Definition complex_block_pattern : regex :=
  Seq (Lit (js "\n^")) (Seq (Grp 1 (Plus true (Cls isIdChar))) (Chr nl)).

(** [/%%.+?%%/gms] *)
Definition obsidianCommentsRegex : regex :=
  Seq (Lit (js "%%")) (Seq (Plus false (Cls isAny)) (Lit (js "%%"))).

(** ["```" + escapeRegExp(keyword) + "\\s(.+?)```"] with flags [gsm];
    [/```dataview\s(.+?)```/gms] is the instance at [dataview].
    [escapeRegExp] quotes the keyword, which is then matched literally. *)
Definition blockQueryRegex (keyword : str) : regex :=
  Seq (Lit (js "```")) (Seq (Lit keyword) (Seq (Cls isSpace)
    (Seq (Grp 1 (Plus false (Cls isAny))) (Lit (js "```"))))).

Definition dataViewRegex : regex := blockQueryRegex (js "dataview").

(** ["`" + escapeRegExp(prefix) + "(.+?)`"] with flags [gsm] *)
Definition inlineQueryRegex (prefix : str) : regex :=
  Seq (Chr "`"%char) (Seq (Lit prefix)
    (Seq (Grp 1 (Plus false (Cls isAny))) (Chr "`"%char))).

(** [/\[\[(.+?)\]\]/g] *)
Definition linkedFileRegex : regex :=
  Seq (Lit (js "[[")) (Seq (Grp 1 (Plus false (Cls isDot))) (Lit (js "]]"))).

(** [/!\[\[(.+?)\]\]/g] *)
Definition transcludedRegex : regex :=
  Seq (Lit (js "![[")) (Seq (Grp 1 (Plus false (Cls isDot))) (Lit (js "]]"))).

(** [(\.(png|jpg|jpeg|gif|webp))], with the numbers of its two groups *)
Definition imageExtension (outer inner : nat) : regex :=
  Grp outer (Seq (Chr "."%char)
    (Grp inner (Alt (Lit (js "png")) (Alt (Lit (js "jpg")) (Alt (Lit (js "jpeg"))
      (Alt (Lit (js "gif")) (Lit (js "webp")))))))).

(** [/!\[\[(.*?)(\.(png|jpg|jpeg|gif|webp))\|(.*?)\]\]|!\[\[(.*?)(\.(png|jpg|jpeg|gif|webp))\]\]/g] *)
Definition transcludedImageRegex : regex :=
  Alt
    (Seq (Lit (js "![[")) (Seq (Grp 1 (Star false (Cls isDot)))
      (Seq (imageExtension 2 3) (Seq (Chr "|"%char)
        (Seq (Grp 4 (Star false (Cls isDot))) (Lit (js "]]")))))))
    (Seq (Lit (js "![[")) (Seq (Grp 5 (Star false (Cls isDot)))
      (Seq (imageExtension 6 7) (Lit (js "]]"))))).

(** [/!\[(.*?)\]\((.*?)(\.(png|jpg|jpeg|gif|webp))\)/g] *)
Definition imageRegex : regex :=
  Seq (Lit (js "![")) (Seq (Grp 1 (Star false (Cls isDot)))
    (Seq (Lit (js "](")) (Seq (Grp 2 (Star false (Cls isDot)))
      (Seq (imageExtension 3 4) (Chr ")"%char))))).

(** [/!\[(.*?)\]\((.*?)(\.(svg))\)/g] *)
Definition linkedSvgRegex : regex :=
  Seq (Lit (js "![")) (Seq (Grp 1 (Star false (Cls isDot)))
    (Seq (Lit (js "](")) (Seq (Grp 2 (Star false (Cls isDot)))
      (Seq (Grp 3 (Seq (Chr "."%char) (Grp 4 (Lit (js "svg")))))
        (Chr ")"%char))))).

(** [PublishFile.getPath()] is the path of the wrapped file. *)
Definition getPath (file : TFile) : str := path file.

Section Compiler.

Variable E : Env.

(** *** convertCustomFilters *)

Definition convertCustomFilters (_ : TFile) (text : str) : M str :=
  foldM
    (fun text filter =>
       match regExpReplace E (pattern filter) (flags filter) (replace filter) text with
       | Some text' => ret text'
       | None =>
           tell (Notice (js "Your custom filters contains an invalid regex: "
                         ++ pattern filter ++ js ". Skipping it.")) ;;;
           ret text
       end)
    (customFilters E) text.

(** *** createBlockIDs *)

Definition createBlockIDs (_ : TFile) (text : str) : str :=
  let text :=
    replaceAll complex_block_pattern
      (fun _match c => js "{ #" ++ group 1 c ++ js "}\n\n") text in
  let text :=
    replaceAll block_pattern
      (fun _match c => js "\n{ #" ++ group 1 c ++ js "}\n") text in
  text.

(** *** removeObsidianComments *)

Definition containedIn (regions : list str) (commentMatch : str) : bool :=
  existsb (fun x => Str.includes x commentMatch) regions.

Definition removeObsidianComments (_ : TFile) (text : str) : str :=
  let obsidianCommentsMatches := matches obsidianCommentsRegex text in
  let codeBlocks := Pat.matches (CODEBLOCK_REGEX E) text in
  let codeFences := Pat.matches (CODE_FENCE_REGEX E) text in
  let excalidraw := Pat.matches (EXCALIDRAW_REGEX E) text in
  fold_left
    (fun text commentMatch =>
       if containedIn codeBlocks commentMatch then text
       else if containedIn codeFences commentMatch then text
       else if containedIn excalidraw commentMatch then text
       else Str.replace text commentMatch [])
    obsidianCommentsMatches text.

(** *** convertFrontMatter *)

Definition convertFrontMatter (file : TFile) (text : str) : str :=
  Pat.replaceAll (FRONTMATTER_REGEX E)
    (fun _match => getCompiledFrontmatter E file) text.

End Compiler.

Section Transclusion.

Variable E : Env.

(** *** generateTransclusionHeader

    The result is [None] for [undefined]. *)
Definition generateTransclusionHeader (headerName : option str)
  (transcludedFile : TFile) : option str :=
  match headerName with
  | None => None
  | Some [] => Some []
  | Some headerName =>
      let titleVariable := js "{{title}}" in
      let headerName :=
        if Str.includes headerName titleVariable
        then Str.replace headerName titleVariable (basename transcludedFile)
        else headerName in
      Some (fixMarkdownHeaderSyntax E headerName)
  end.

(** *** createTranscludedText, piece by piece *)

(** [[transclusionFileName, headerName]]: the text between the brackets,
    split at the bars. *)
Definition transclusionParts (transclusionMatch : str) : str * option str :=
  let parts :=
    Str.split
      (Str.substring transclusionMatch
         (Str.indexOf transclusionMatch (js "[") + 2)
         (Str.indexOf transclusionMatch (js "]")))
      (js "|") in
  (nth 0 parts [], nth_error parts 1).

Fixpoint findIndex {A} (p : A -> bool) (l : list A) : option nat :=
  match l with
  | [] => None
  | x :: l' => if p x then Some 0 else option_map S (findIndex p l')
  end.

(** The names every object inherits from [Object.prototype]. *)
Definition objectPrototypeKeys : list str :=
  [ js "constructor"; js "__defineGetter__"; js "__defineSetter__";
    js "hasOwnProperty"; js "__lookupGetter__"; js "__lookupSetter__";
    js "isPrototypeOf"; js "propertyIsEnumerable"; js "toString";
    js "valueOf"; js "__proto__"; js "toLocaleString" ].

(** [metadata?.blocks && metadata.blocks[refBlock]]. The anchors are the
    properties of a plain object, so a key that is not recorded can still be
    one the object inherits: the value is then a function (for [__proto__]
    the prototype itself), which is truthy and has no [position]. *)
Inductive BlockLookup :=
| Recorded (blockInFile : BlockCache)
| Inherited
| NotFound.

Definition blockLookup (metadata : option CachedMetadata) (refBlock : str)
  : BlockLookup :=
  match metadata with
  | Some md =>
      match blocks md with
      | Some anchors =>
          match anchors refBlock with
          | Some blockInFile => Recorded blockInFile
          | None =>
              if existsb (Str.eqb refBlock) objectPrototypeKeys
              then Inherited else NotFound
          end
      | None => NotFound
      end
  | None => NotFound
  end.

(** The block branch: the lines of the anchor, without the anchor token.
    The result is [None] when [blockInFile.position.start] throws: the value
    is truthy and has no [position]. *)
Definition transcludeBlock (refBlock fileText : str)
  (metadata : option CachedMetadata) : option str :=
  match blockLookup metadata refBlock with
  | Recorded blockInFile =>
      Some
        (Str.replace
           (Str.join [nl]
              (Str.slice (Str.split fileText [nl])
                 (startLine blockInFile) (endLine blockInFile + 1)))
           ("^"%char :: refBlock) [])
  | Inherited => None
  | NotFound => Some fileText
  end.

(** The header branch: from the heading to the next heading of the same or
    of a higher rank. *)
Definition transcludeHeader (refHeader fileText : str)
  (metadata : option CachedMetadata) : str :=
  let headings :=
    match metadata with Some md => headings md | None => None end in
  match headings with
  | None => fileText
  | Some headings =>
      let isRef := fun header => Str.eqb (heading header) refHeader in
      match find isRef headings, findIndex isRef headings with
      | Some headerInFile, Some headerPosition =>
          let cutTo :=
            find (fun header => level header <=? level headerInFile)
              (Str.sliceFrom headings (headerPosition + 1)) in
          match cutTo with
          | Some cutTo =>
              let cutToLine := headingLine cutTo in
              Str.join [nl]
                (Str.slice (Str.split fileText [nl])
                   (headingLine headerInFile) cutToLine)
          | None =>
              Str.join [nl]
                (Str.sliceFrom (Str.split fileText [nl])
                   (headingLine headerInFile))
          end
      | _, _ => fileText
      end
  end.

(** The section of the target that is embedded, and the fragment of the
    link back to it; [None] when the block branch throws. *)
Definition transcludeSection (transclusionFileName fileText : str)
  (metadata : option CachedMetadata) : option (str * str) :=
  if Str.includes transclusionFileName (js "#^") then
    let refBlock := nth 1 (Str.split transclusionFileName (js "#^")) [] in
    let sectionID := "#"%char :: slugify E refBlock in
    match transcludeBlock refBlock fileText metadata with
    | Some fileText => Some (fileText, sectionID)
    | None => None
    end
  else if Str.includes transclusionFileName (js "#") then
    let refHeader := nth 1 (Str.split transclusionFileName (js "#")) [] in
    Some (transcludeHeader refHeader fileText metadata,
          "#"%char :: slugify E refHeader)
  else Some (fileText, []).

Definition embeddedLink (linkedFile : TFile)
  (metadata : option CachedMetadata) (sectionID : str) : str :=
  let publishedFilesContainsLinkedFile :=
    existsb (fun f => Str.eqb (getPath f) (path linkedFile))
      (getFilesMarkedForPublishing E) in
  if publishedFilesContainsLinkedFile then
    let permalink :=
      match metadata with Some md => dgPermalink md | None => None end in
    let gardenPath :=
      match permalink with
      | Some (c :: p) => sanitizePermalink E (c :: p)
      | _ =>
          "/"%char ::
          generateUrlPath E (getGardenPathForNote E (path linkedFile))
      end in
    js "<a class=\x22markdown-embed-link\x22 href=\x22" ++ gardenPath ++
    sectionID ++
    js "\x22 aria-label=\x22Open link\x22><svg xmlns=\x22http://www.w3.org/2000/svg\x22 width=\x2224\x22 height=\x2224\x22 viewBox=\x220 0 24 24\x22 fill=\x22none\x22 stroke=\x22currentColor\x22 stroke-width=\x222\x22 stroke-linecap=\x22round\x22 stroke-linejoin=\x22round\x22 class=\x22svg-icon lucide-link\x22><path d=\x22M10 13a5 5 0 0 0 7.54.54l3-3a5 5 0 0 0-7.07-7.07l-1.72 1.71\x22></path><path d=\x22M14 11a5 5 0 0 0-7.54-.54l-3 3a5 5 0 0 0 7.07 7.07l1.71-1.71\x22></path></svg></a>"
  else [].

Definition wrapTransclusion (embedded_link headerSection fileText : str) : str :=
  js "\n<div class=\x22transclusion internal-embed is-loaded\x22>" ++
  embedded_link ++ js "<div class=\x22markdown-embed\x22>\n\n" ++
  headerSection ++ js "\n\n" ++ fileText ++ js "\n\n</div></div>\n".

(** The state of the loop over the matches. *)
Record Loop := {
  transcludedText : str;
  numberOfExcaliDraws : nat
}.

(** The body of the loop over the matches. [deeper] is the resolver one
    level down, [this.createTranscludedText(currentDepth + 1)]. A call that
    throws ends the iteration with what was assigned so far. *)
Definition transcludeMatch (deeper : TFile -> str -> M str) (file : TFile)
  (st : Loop) (transclusionMatch : str) : M Loop :=
  let (transclusionFileName, headerName) :=
    transclusionParts transclusionMatch in
  let transclusionFilePath := getLinkpath E transclusionFileName in
  match getFirstLinkpathDest E transclusionFilePath (getPath file) with
  | None => ret st
  | Some linkedFile =>
      if Str.endsWith (name linkedFile) (js ".excalidraw.md") then
        let n := numberOfExcaliDraws st + 1 in
        let st := {| transcludedText := transcludedText st;
                     numberOfExcaliDraws := n |} in
        let isFirstDrawing := n =? 1 in
        match cachedRead E linkedFile with
        | None => ret st
        | Some fileText =>
            let opts :=
              {| includeExcaliDrawJs := isFirstDrawing;
                 idAppendage := Some (numToString n);
                 includeFrontMatter := Some false |} in
            tell (CompileDrawing opts linkedFile) ;;;
            match compileMarkdown E opts linkedFile fileText with
            | None => ret st
            | Some excaliDrawCode =>
                ret {| transcludedText :=
                         Str.replace (transcludedText st)
                           transclusionMatch excaliDrawCode;
                       numberOfExcaliDraws := n |}
            end
        end
      else if Str.eqb (extension linkedFile) (js "md") then
        match cachedRead E linkedFile with
        | None => ret st
        | Some fileText =>
            let metadata := getFileCache E linkedFile in
            match transcludeSection transclusionFileName fileText metadata with
            | None => ret st
            | Some (fileText, sectionID) =>
            let fileText := Pat.remove (FRONTMATTER_REGEX E) fileText in
            fileText <- convertCustomFilters E linkedFile fileText ;;
            let fileText := Pat.remove (BLOCKREF_REGEX E) fileText in
            let header := generateTransclusionHeader headerName linkedFile in
            let headerSection :=
              match header with
              | Some (c :: h) =>
                  js "$<div class=\x22markdown-embed-title\x22>\n\n" ++
                  (c :: h) ++ js "\n\n</div>\n"
              | _ => []
              end in
            let embedded_link := embeddedLink linkedFile metadata sectionID in
            let fileText :=
              wrapTransclusion embedded_link headerSection fileText in
            fileText <-
              match matches transcludedRegex fileText with
              | [] => ret fileText
              | _ :: _ => inside linkedFile (deeper linkedFile fileText)
              end ;;
            ret {| transcludedText :=
                     Str.replace (transcludedText st)
                       transclusionMatch fileText;
                   numberOfExcaliDraws := numberOfExcaliDraws st |}
            end
        end
      else ret st
  end.

(** [createTranscludedText(currentDepth)]: [fuel] is [4 - currentDepth], the
    number of levels left before the depth bound. *)
Fixpoint transcludeWithin (fuel : nat) (file : TFile) (text : str) : M str :=
  match fuel with
  | 0 => ret text
  | S fuel' =>
      let transclusionMatches := matches transcludedRegex text in
      st <- foldM (transcludeMatch (transcludeWithin fuel') file)
              transclusionMatches
              {| transcludedText := text; numberOfExcaliDraws := 0 |} ;;
      ret (transcludedText st)
  end.

Definition createTranscludedText (currentDepth : nat) (file : TFile)
  (text : str) : M str :=
  transcludeWithin (4 - currentDepth) file text.

End Transclusion.

Section Passes.

Variable E : Env.

(** *** convertDataViews

    A loop over the matches of one query shape either goes on with the text
    replaced so far or leaves the whole function with a result. *)
Inductive Flow :=
| Next (replacedText : str)
| Return (result : str).

Fixpoint forQueries (body : str -> str * caps -> M Flow)
  (queries : list (str * caps)) (replacedText : str) : M Flow :=
  match queries with
  | [] => ret (Next replacedText)
  | q :: queries' =>
      r <- body replacedText q ;;
      match r with
      | Next replacedText' => forQueries body queries' replacedText'
      | Return result => ret (Return result)
      end
  end.

Definition andThen (m : M Flow) (k : str -> M Flow) : M Flow :=
  r <- m ;;
  match r with
  | Next replacedText => k replacedText
  | Return result => ret (Return result)
  end.

Definition failed (what : string) (query : str) : M Flow :=
  tell (Notice (js "Unable to render " ++ js what ++
                js " query. Please update the dataview plugin to the latest version.")) ;;;
  ret (Return query).

Definition convertDataViews (file : TFile) (text : str) : M str :=
  match getAPI E with
  | None => ret text
  | Some dvApi =>
      let matches := matchAll dataViewRegex text in
      let dataviewJsMatches :=
        matchAll (blockQueryRegex (dataviewJsKeyword dvApi)) text in
      let inlineMatches :=
        matchAll (inlineQueryRegex (inlineQueryPrefix dvApi)) text in
      let inlineJsMatches :=
        matchAll (inlineQueryRegex (inlineJsQueryPrefix dvApi)) text in
      (* the four iterators are objects, so the guard on them never returns *)
      r <-
        andThen
          (forQueries
             (fun replacedText queryBlock =>
                let block := fst queryBlock in
                let query := group 1 (snd queryBlock) in
                match tryQueryMarkdown dvApi query (getPath file) with
                | Some markdown =>
                    ret (Next (Str.replace replacedText block
                                 (markdown ++ js "\n{ .block-language-dataview}")))
                | None => failed "dataview" (fst queryBlock)
                end)
             matches text)
          (fun replacedText =>
        andThen
          (forQueries
             (fun replacedText queryBlock =>
                let block := fst queryBlock in
                let query := group 1 (snd queryBlock) in
                match executeJs dvApi query (getPath file) with
                | Some innerHTML =>
                    ret (Next (Str.replace replacedText block innerHTML))
                | None => failed "dataviewjs" (fst queryBlock)
                end)
             dataviewJsMatches replacedText)
          (fun replacedText =>
        andThen
          (forQueries
             (fun replacedText inlineQuery =>
                (* [dvApi.page(path)]: no [path] is declared in the file or
                   passed to the step, so reading it throws before
                   [tryEvaluate] is called, and the catch takes over *)
                failed "inline dataview" (fst inlineQuery))
             inlineMatches replacedText)
          (fun replacedText =>
          forQueries
             (fun replacedText inlineJsQuery =>
                let code := fst inlineJsQuery in
                let query := group 1 (snd inlineJsQuery) in
                match executeJs dvApi query (getPath file) with
                | Some innerHTML =>
                    ret (Next (Str.replace replacedText code innerHTML))
                | None => failed "inline dataviewjs" (fst inlineJsQuery)
                end)
             inlineJsMatches replacedText))) ;;
      match r with
      | Next replacedText => ret replacedText
      | Return result => ret result
      end
  end.

(** *** convertLinksToFullPath *)

Definition stripAwayCodeFencesAndFrontmatter (_ : TFile) (text : str) : str :=
  let textToBeProcessed := text in
  let textToBeProcessed := Pat.remove (EXCALIDRAW_REGEX E) textToBeProcessed in
  let textToBeProcessed := Pat.remove (CODEBLOCK_REGEX E) textToBeProcessed in
  let textToBeProcessed := Pat.remove (CODE_FENCE_REGEX E) textToBeProcessed in
  let textToBeProcessed := Pat.remove (FRONTMATTER_REGEX E) textToBeProcessed in
  textToBeProcessed.

(** What one iteration of the loop over the links reads off a match: the
    name of the linked file, the header path and the display name. *)
Record Link := {
  linkedFileName : str;
  headerPath : str;
  linkDisplayName : str
}.

Definition parseLink (linkMatch : str) : Link :=
  let textInsideBrackets :=
    Str.substring linkMatch
      (Str.indexOf linkMatch (js "[") + 2)
      (Str.lastIndexOf linkMatch (js "]") - 1) in
  let parts := Str.split textInsideBrackets (js "|") in
  let linkedFileName := nth 0 parts [] in
  let linkDisplayName := nth_error parts 1 in
  let linkedFileName :=
    if Str.endsWith linkedFileName [bsl]
    then Str.substring linkedFileName 0 (Z.of_nat (length linkedFileName) - 1)
    else linkedFileName in
  let linkDisplayName :=
    match linkDisplayName with
    | Some (c :: d) => c :: d
    | _ => linkedFileName
    end in
  if Str.includes linkedFileName (js "#") then
    let headerSplit := Str.split linkedFileName (js "#") in
    {| linkedFileName := nth 0 headerSplit [];
       headerPath :=
         if 1 <? length headerSplit
         then "#"%char :: nth 1 headerSplit []
         else [];
       linkDisplayName := linkDisplayName |}
  else
    {| linkedFileName := linkedFileName;
       headerPath := [];
       linkDisplayName := linkDisplayName |}.

(** The file a link resolves to from [file]. *)
Definition linkedFileOf (file : TFile) (linkMatch : str) : option TFile :=
  let fullLinkedFilePath := getLinkpath E (linkedFileName (parseLink linkMatch)) in
  getFirstLinkpathDest E fullLinkedFilePath (getPath file).

(** One iteration of the loop over the links. *)
Definition convertLink (file : TFile) (convertedText linkMatch : str) : str :=
  let link := parseLink linkMatch in
  match linkedFileOf file linkMatch with
  | None =>
      Str.replace convertedText linkMatch
        (js "[[" ++ linkedFileName link ++ headerPath link ++ js "\\|" ++
         linkDisplayName link ++ js "]]")
  | Some linkedFile =>
      if Str.eqb (extension linkedFile) (js "md") then
        let extensionlessPath :=
          Str.substring (path linkedFile) 0
            (Str.lastIndexOf (path linkedFile) (js ".")) in
        Str.replace convertedText linkMatch
          (js "[[" ++ extensionlessPath ++ headerPath link ++ js "\\|" ++
           linkDisplayName link ++ js "]]")
      else convertedText
  end.

Definition convertLinksToFullPath (file : TFile) (text : str) : str :=
  let textToBeProcessed := stripAwayCodeFencesAndFrontmatter file text in
  let linkedFileMatches := matches linkedFileRegex textToBeProcessed in
  fold_left (convertLink file) linkedFileMatches text.

(** *** createSvgEmbeds *)

(** [[imageName, size]] of an embed. *)
Definition embedParts (svg : str) : str * option str :=
  let parts :=
    Str.split
      (Str.substring svg
         (Str.indexOf svg (js "[") + 2) (Str.indexOf svg (js "]")))
      (js "|") in
  (nth 0 parts [], nth_error parts 1).

Definition inlineSvg (linkedFile : TFile) (size : option str)
  (text svg : str) : str :=
  match read E linkedFile with
  | None => text
  | Some svgText =>
      match svgText, size with
      | _ :: _, Some (c :: size) =>
          match setWidth E svgText (c :: size) with
          | Some svgText => Str.replace text svg svgText
          | None => text
          end
      | _, _ => Str.replace text svg svgText
      end
  end.

Definition createSvgEmbeds (file : TFile) (text : str) : str :=
  let transcludedSvgs := Pat.matches (TRANSCLUDED_SVG_REGEX E) text in
  let text :=
    fold_left
      (fun text svg =>
         let (imageName, size) := embedParts svg in
         let imagePath := getLinkpath E imageName in
         match getFirstLinkpathDest E imagePath (getPath file) with
         | None => text
         | Some linkedFile => inlineSvg linkedFile size text svg
         end)
      transcludedSvgs text in
  let linkedSvgMatches := matches linkedSvgRegex text in
  fold_left
    (fun text svg =>
       let (_imageName, size) := embedParts svg in
       let pathStart := (Str.lastIndexOf svg (js "(") + 1)%Z in
       let pathEnd := Str.lastIndexOf svg (js ")") in
       let imagePath := Str.substring svg pathStart pathEnd in
       if Str.startsWith imagePath (js "http") then text
       else
         match getFirstLinkpathDest E imagePath (getPath file) with
         | None => text
         | Some linkedFile => inlineSvg linkedFile size text svg
         end)
    linkedSvgMatches text.

End Passes.

(** ** [parseInt] and [encodeURI] *)

Fixpoint trimStart (s : str) : str :=
  match s with
  | c :: s' => if isSpace c then trimStart s' else s
  | [] => []
  end.

Definition isHexDigit (c : ascii) : bool :=
  match hexval c with Some _ => true | None => false end.

(** [isNaN(parseInt(s))]: after leading white space and a sign, [parseInt]
    reads the digits of a hexadecimal number behind [0x] or [0X] and of a
    decimal number otherwise, and gives [NaN] when there is none. *)
Definition parseIntIsNaN (s : str) : bool :=
  let s := trimStart s in
  let s :=
    match s with
    | c :: s' =>
        if Ascii.eqb c "+"%char || Ascii.eqb c "-"%char then s' else s
    | [] => []
    end in
  match s with
  | z :: x :: s' =>
      if Ascii.eqb z "0"%char && (Ascii.eqb x "x"%char || Ascii.eqb x "X"%char)
      then match s' with h :: _ => negb (isHexDigit h) | [] => true end
      else negb (isDigit z)
  | c :: _ => negb (isDigit c)
  | [] => true
  end.

(** [`${v}`] for a value that may be [undefined] *)
Definition orUndefined (v : option str) : str :=
  match v with Some s => s | None => js "undefined" end.

Definition hexDigit (n : nat) : ascii :=
  if n <? 10 then ascii_of_nat (48 + n) else ascii_of_nat (55 + n).

Definition percent (n : nat) : str :=
  ["%"%char; hexDigit (n / 16); hexDigit (n mod 16)].

(** The code units [encodeURI] keeps: letters, digits, the marks and the
    reserved characters with [#]. *)
Definition uriKept (c : ascii) : bool :=
  between 97 122 c || between 65 90 c || isDigit c ||
  existsb (Ascii.eqb c) (js "-_.!~*'();/?:@&=+$,#").

(** [encodeURI]: every other code unit is written as the escaped octets of
    its UTF-8 form, one octet below 128 and two from 128 to 255. *)
Fixpoint encodeURI (s : str) : str :=
  match s with
  | [] => []
  | c :: s' =>
      let n := nat_of_ascii c in
      (if uriKept c then [c]
       else if n <? 128 then percent n
       else percent (192 + n / 64) ++ percent (128 + n mod 64))
      ++ encodeURI s'
  end.

Section Images.

Variable E : Env.

(** *** convertImageLinks *)

(** The name written between the brackets of the rewritten image: the split
    rule on the tokens behind the file name. *)
Definition imageLabel (imageName : str) (metaDataAndSize : list str) : str :=
  let lastValue := nth_error metaDataAndSize (length metaDataAndSize - 1) in
  let lastValueIsSize := negb (parseIntIsNaN (orUndefined lastValue)) in
  let size := if lastValueIsSize then lastValue else None in
  let metaData := [] in
  let metaData :=
    if 1 <? length metaDataAndSize
    then Str.join (js " ")
           (Str.slice metaDataAndSize 0 (length metaDataAndSize - 1))
    else metaData in
  let metaData :=
    if negb lastValueIsSize
    then metaData ++ js " " ++ orUndefined lastValue
    else metaData in
  if isNonEmpty metaData && truthy size then
    imageName ++ js "|" ++ metaData ++ js "|" ++ orUndefined size
  else if truthy size then imageName ++ js "|" ++ orUndefined size
  else imageName.

Definition ImageLoop := (str * list Asset)%type.

Definition convertTranscludedImage (filePath : str) (st : ImageLoop)
  (imageMatch : str) : ImageLoop :=
  let (imageText, assets) := st in
  let parts :=
    Str.split
      (Str.substring imageMatch
         (Str.indexOf imageMatch (js "[") + 2)
         (Str.indexOf imageMatch (js "]")))
      (js "|") in
  let imageName := nth 0 parts [] in
  let metaDataAndSize := tl parts in
  let name := imageLabel imageName metaDataAndSize in
  let imagePath := getLinkpath E imageName in
  match getFirstLinkpathDest E imagePath filePath with
  | None => st
  | Some linkedFile =>
      match readBinary E linkedFile with
      | None => st
      | Some image =>
          let imageBase64 := arrayBufferToBase64 E image in
          let cmsImgPath := js "/img/user/" ++ path linkedFile in
          let imageMarkdown :=
            js "![" ++ name ++ js "](" ++ encodeURI cmsImgPath ++ js ")" in
          (Str.replace imageText imageMatch imageMarkdown,
           assets ++ [ {| assetPath := cmsImgPath; content := imageBase64 |} ])
      end
  end.

Definition convertMarkdownImage (filePath : str) (st : ImageLoop)
  (imageMatch : str) : ImageLoop :=
  let (imageText, assets) := st in
  let nameStart := (Str.indexOf imageMatch (js "[") + 1)%Z in
  let nameEnd := Str.indexOf imageMatch (js "]") in
  let imageName := Str.substring imageMatch nameStart nameEnd in
  let pathStart := (Str.lastIndexOf imageMatch (js "(") + 1)%Z in
  let pathEnd := Str.lastIndexOf imageMatch (js ")") in
  let imagePath := Str.substring imageMatch pathStart pathEnd in
  if Str.startsWith imagePath (js "http") then st
  else
    match decodeURI E imagePath with
    | None => st
    | Some decodedImagePath =>
        match getFirstLinkpathDest E decodedImagePath filePath with
        | None => st
        | Some linkedFile =>
            match readBinary E linkedFile with
            | None => st
            | Some image =>
                let imageBase64 := arrayBufferToBase64 E image in
                let cmsImgPath := js "/img/user/" ++ path linkedFile in
                let imageMarkdown :=
                  js "![" ++ imageName ++ js "](" ++ cmsImgPath ++ js ")" in
                (Str.replace imageText imageMatch imageMarkdown,
                 assets ++ [ {| assetPath := cmsImgPath; content := imageBase64 |} ])
            end
        end
    end.

Definition convertImageLinks (text filePath : str) : str * list Asset :=
  let transcludedImageMatches := matches transcludedImageRegex text in
  let st :=
    fold_left (convertTranscludedImage filePath) transcludedImageMatches
      (text, []) in
  let imageMatches := matches imageRegex text in
  fold_left (convertMarkdownImage filePath) imageMatches st.

(** *** generateMarkdown *)

Definition TCompilerStep := TFile -> str -> M str.

Definition pure (step : TFile -> str -> str) : TCompilerStep :=
  fun file text => ret (step file text).

(* ORDER MATTERS! *)
Definition COMPILE_STEPS : list TCompilerStep :=
  [ pure (convertFrontMatter E);
    convertCustomFilters E;
    pure createBlockIDs;
    createTranscludedText E 0;
    convertDataViews E;
    pure (convertLinksToFullPath E);
    pure (removeObsidianComments E);
    pure (createSvgEmbeds E) ].

(** The result is [None] when the compile rejects: the file cannot be read
    or, for a drawing, the drawing compiler throws. *)
Definition generateMarkdown (file : TFile) : M (option TCompiledFile) :=
  match cachedRead E file with
  | None => ret None
  | Some vaultFileText =>
      if Str.endsWith (name file) (js ".excalidraw.md") then
        let opts :=
          {| includeExcaliDrawJs := true;
             idAppendage := None;
             includeFrontMatter := None |} in
        tell (CompileDrawing opts file) ;;;
        match compileMarkdown E opts file vaultFileText with
        | Some drawing => ret (Some (drawing, []))
        | None => ret None
        end
      else
        compiledText <-
          foldM (fun previousStepText compilerStep =>
                   compilerStep file previousStepText)
            COMPILE_STEPS vaultFileText ;;
        ret (Some (convertImageLinks compiledText (getPath file)))
  end.

End Images.

Section Extraction.

Variable E : Env.

(** *** extractImageLinks *)

Definition extractTranscludedImage (file : TFile) (assets : list str)
  (imageMatch : str) : list str :=
  let parts :=
    Str.split
      (Str.substring imageMatch
         (Str.indexOf imageMatch (js "[") + 2)
         (Str.indexOf imageMatch (js "]")))
      (js "|") in
  let imageName := nth 0 parts [] in
  let imagePath := getLinkpath E imageName in
  match getFirstLinkpathDest E imagePath (getPath file) with
  | None => assets
  | Some linkedFile => assets ++ [path linkedFile]
  end.

Definition extractMarkdownImage (file : TFile) (assets : list str)
  (imageMatch : str) : list str :=
  let pathStart := (Str.lastIndexOf imageMatch (js "(") + 1)%Z in
  let pathEnd := Str.lastIndexOf imageMatch (js ")") in
  let imagePath := Str.substring imageMatch pathStart pathEnd in
  if Str.startsWith imagePath (js "http") then assets
  else
    match decodeURI E imagePath with
    | None => assets
    | Some decodedImagePath =>
        match getFirstLinkpathDest E decodedImagePath (getPath file) with
        | None => assets
        | Some linkedFile => assets ++ [path linkedFile]
        end
    end.

(** The result is [None] when the file cannot be read. *)
Definition extractImageLinks (file : TFile) : option (list str) :=
  match cachedRead E file with
  | None => None
  | Some text =>
      let transcludedImageMatches := matches transcludedImageRegex text in
      let assets :=
        fold_left (extractTranscludedImage file) transcludedImageMatches [] in
      let imageMatches := matches imageRegex text in
      Some (fold_left (extractMarkdownImage file) imageMatches assets)
  end.

End Extraction.

(** ** What the specification states, for comparison with the code *)

Module Pattern.

(** A pattern of the compiler as a function to spans. *)
Definition ofRegex (r : regex) : Pat.pattern := fun s => spans r s.

(** Modelled from the spec: [CODE_FENCE_REGEX], declared in [utils/regexes]
    and missing here, locates the "inline code span" regions: a run of text
    between two backticks on one line. *)
Definition inlineCodeSpan : regex :=
  Seq (Chr "`"%char) (Seq (Grp 1 (Star false (Cls isDot))) (Chr "`"%char)).

End Pattern.

Section Specification.

Variable E : Env.

(** A span lies inside a region. *)
Definition within (span region : nat * nat) : bool :=
  (fst region <=? fst span) &&
  (fst span + snd span <=? fst region + snd region).

Definition protectedRegions (text : str) : list (nat * nat) :=
  CODEBLOCK_REGEX E text ++ CODE_FENCE_REGEX E text ++ EXCALIDRAW_REGEX E text.

(** Comment stripping as the specification words it: the comment spans are
    removed, except those that lie inside a fenced code block, an inline code
    span or a drawing block. *)
Definition commentsStripped (text : str) : str :=
  Pat.rebuild
    (filter
       (fun span => negb (existsb (within span) (protectedRegions text)))
       (spans obsidianCommentsRegex text))
    (fun _ => []) text 0.

(** The test the code applies instead: the text of the comment occurs in the
    text of a region. *)
Definition keptComment (text commentMatch : str) : bool :=
  containedIn (Pat.matches (CODEBLOCK_REGEX E) text) commentMatch ||
  containedIn (Pat.matches (CODE_FENCE_REGEX E) text) commentMatch ||
  containedIn (Pat.matches (EXCALIDRAW_REGEX E) text) commentMatch.

End Specification.

(** *** Drawing calls in a trace *)

(** All calls of the drawing compiler in a trace, in order. *)
Fixpoint callsOf (e : Event) : list ExcalidrawOptions :=
  match e with
  | Notice _ => []
  | CompileDrawing opts _ => [opts]
  | Inside _ events =>
      (fix all (l : list Event) : list ExcalidrawOptions :=
         match l with
         | [] => []
         | x :: l' => callsOf x ++ all l'
         end) events
  end.

Definition drawingCalls (trace : list Event) : list ExcalidrawOptions :=
  flat_map callsOf trace.

(** The calls made by one invocation of the resolver itself. *)
Definition ownCalls (trace : list Event) : list ExcalidrawOptions :=
  flat_map
    (fun e => match e with CompileDrawing opts _ => [opts] | _ => [] end)
    trace.

(** The support script goes with the first call and with no other. *)
Definition supportScriptOnce (calls : list ExcalidrawOptions) : Prop :=
  match calls with
  | [] => True
  | first :: others =>
      includeExcaliDrawJs first = true /\
      Forall (fun opts => includeExcaliDrawJs opts = false) others
  end.

(** The options of the call for the drawing counted [n]. *)
Definition drawingOptions (n : nat) : ExcalidrawOptions :=
  {| includeExcaliDrawJs := n =? 1;
     idAppendage := Some (numToString n);
     includeFrontMatter := Some false |}.

(** The calls carry counter values that start at 1 or above and grow. *)
Definition numbered (calls : list ExcalidrawOptions) : Prop :=
  exists ns,
    calls = map drawingOptions ns /\
    StronglySorted lt ns /\ Forall (fun n => 1 <= n) ns.

(** Every invocation recorded in the trace numbers its own calls. *)
Fixpoint wellNumbered (e : Event) : Prop :=
  match e with
  | Inside _ events =>
      numbered (ownCalls events) /\
      (fix all (l : list Event) : Prop :=
         match l with
         | [] => True
         | x :: l' => wellNumbered x /\ all l'
         end) events
  | _ => True
  end.

(** *** Names without link syntax *)

Definition lacks (c : ascii) (s : str) : bool :=
  forallb (fun x => negb (Ascii.eqb c x)) s.

(** A name without the characters that structure a link. *)
Definition plainText (s : str) : bool :=
  lacks "#"%char s && lacks "["%char s && lacks "]"%char s && lacks "|"%char s.

(** *** Invariant of the drawing counter *)

(** The calls made so far by one run of the loop: numbered up to the counter
    [n]; and every recursive call recorded numbers its own. *)
Definition counted (n : nat) (trace : list Event) : Prop :=
  (exists ns,
      ownCalls trace = map drawingOptions ns /\
      StronglySorted lt ns /\ Forall (fun k => 1 <= k <= n) ns) /\
  Forall wellNumbered trace.

(** A trace without calls of the loop itself. *)
Definition quiet (trace : list Event) : Prop :=
  ownCalls trace = [] /\ Forall wellNumbered trace.

(** After the first call no call carries the support script. *)
Definition scriptOnlyFirst (calls : list ExcalidrawOptions) : Prop :=
  match calls with
  | [] => True
  | _ :: others => Forall (fun opts => includeExcaliDrawJs opts = false) others
  end.

(** *** Devices for reasoning on matches *)

(** The first suffix of [s] that [k] accepts. *)
Fixpoint firstSuffix (k : K) (s : str) (c : caps) : option (str * caps) :=
  orElse (k s c)
    match s with
    | [] => None
    | _ :: s' => firstSuffix k s' c
    end.

Fixpoint takeWhile (p : ascii -> bool) (s : str) : str :=
  match s with
  | x :: s' => if p x then x :: takeWhile p s' else []
  | [] => []
  end.

Fixpoint dropWhile (p : ascii -> bool) (s : str) : str :=
  match s with
  | x :: s' => if p x then dropWhile p s' else s
  | [] => []
  end.

(** No suffix of [s] starts with a match of [r]. *)
Definition noMatch (r : regex) (s : str) : Prop :=
  forall j, matchAt r (skipn j s) = None.

(** A pattern whose matches are never empty. *)
Definition neverEmpty (r : regex) : Prop :=
  forall t c, matchAt r t <> Some ([], c).

(** The continuation that ends a match. *)
Definition accept : K := fun s c => Some (s, c).

(** No comment opens in [p], even with a percent sign behind it. *)
Definition sealed (p : str) : Prop :=
  Str.find (p ++ js "%") (js "%%") = None.

(** The replacement of [text.replace(pattern, "")]. *)
Definition deleted : str -> caps -> str := fun _ _ => [].

(** No space of [t] has a caret behind it, so that no trailing anchor starts
    in [t], whatever follows. *)
Fixpoint calm (t : str) : bool :=
  match t with
  | [] => true
  | c :: t' =>
      (negb (Ascii.eqb c " "%char) ||
       match t' with
       | d :: _ => negb (Ascii.eqb d "^"%char)
       | [] => false
       end) && calm t'
  end.

(** The replacement function of the trailing form in [createBlockIDs]. *)
Definition inlineAnchor : str -> caps -> str :=
  fun _match c => js "\n{ #" ++ group 1 c ++ js "}\n".

(** *** Images in bracket embeds *)

(** A token of an embed: no bar and no closing bracket. *)
Definition plainToken (t : str) : bool :=
  lacks "|"%char t && lacks "]"%char t.

(** The bracket embed of an image with the tokens behind its name. *)
Definition imageEmbed (imageName : str) (tokens : list str) : str :=
  js "![[" ++ Str.join (js "|") (imageName :: tokens) ++ js "]]".

(** ** Vocabulary of the further properties *)

(** The place of an asset on the site. *)
Definition cmsImgPath (p : str) : str := js "/img/user/" ++ p.

(** The assets one iteration on a bracket embed and on a markdown image
    leaves behind, whatever the text. *)
Definition assetOfEmbed (E : Env) (filePath : str) (assets : list Asset)
  (imageMatch : str) : list Asset :=
  snd (convertTranscludedImage E filePath ([], assets) imageMatch).

Definition assetOfImage (E : Env) (filePath : str) (assets : list Asset)
  (imageMatch : str) : list Asset :=
  snd (convertMarkdownImage E filePath ([], assets) imageMatch).

(** The file a bracket embed of an image is looked up as: the name in front
    of the first bar, resolved from the document at [filePath]. *)
Definition embedImageFile (E : Env) (filePath imageMatch : str)
  : option TFile :=
  getFirstLinkpathDest E
    (getLinkpath E
       (nth 0
          (Str.split
             (Str.substring imageMatch
                (Str.indexOf imageMatch (js "[") + 2)
                (Str.indexOf imageMatch (js "]")))
             (js "|"))
          []))
    filePath.

(** The file a markdown image is looked up as: the decoded text of its last
    parentheses, unless that begins with [http]. *)
Definition markdownImageFile (E : Env) (filePath imageMatch : str)
  : option TFile :=
  let imagePath :=
    Str.substring imageMatch
      (Str.lastIndexOf imageMatch (js "(") + 1)
      (Str.lastIndexOf imageMatch (js ")")) in
  if Str.startsWith imagePath (js "http") then None
  else
    match decodeURI E imagePath with
    | Some decodedImagePath =>
        getFirstLinkpathDest E decodedImagePath filePath
    | None => None
    end.

(** An asset read off the file that an image of the text resolves to. *)
Definition assetOfVault (E : Env) (text filePath : str) (a : Asset) : Prop :=
  exists imageMatch linkedFile image,
    (In imageMatch (matches transcludedImageRegex text) /\
     embedImageFile E filePath imageMatch = Some linkedFile \/
     In imageMatch (matches imageRegex text) /\
     markdownImageFile E filePath imageMatch = Some linkedFile) /\
    readBinary E linkedFile = Some image /\
    a = {| assetPath := js "/img/user/" ++ path linkedFile;
           content := arrayBufferToBase64 E image |}.

(** A query of a document that ends the pass over the queries: a block query
    for which the call of the API throws, or an inline query. *)
Definition queryFails (dvApi : DataviewApi) (filePath text : str)
  (q : str * caps) : Prop :=
  (In q (matchAll dataViewRegex text) /\
   tryQueryMarkdown dvApi (group 1 (snd q)) filePath = None) \/
  (In q (matchAll (blockQueryRegex (dataviewJsKeyword dvApi)) text) /\
   executeJs dvApi (group 1 (snd q)) filePath = None) \/
  In q (matchAll (inlineQueryRegex (inlineQueryPrefix dvApi)) text) \/
  (In q (matchAll (inlineQueryRegex (inlineJsQueryPrefix dvApi)) text) /\
   executeJs dvApi (group 1 (snd q)) filePath = None).

(** How the loops over the queries end: with the text replaced so far and no
    event, or with the text of a query and one notice. *)
Definition settled (failing : str * caps -> Prop) (m : M Flow) : Prop :=
  (exists replacedText, m = (Next replacedText, [])) \/
  (exists q msg, m = (Return (fst q), [Notice msg]) /\ failing q).

(** A block query: the fence with the keyword, a white space, the query and
    the closing fence. *)
Definition queryBlock (keyword : str) (w : ascii) (query : str) : str :=
  js "```" ++ keyword ++ w :: query ++ js "```".

(** A piece of a link or of an embed written on one line: none of the code
    units that structure a link and no line break. *)
Definition plainWord (s : str) : bool :=
  plainText s && forallb isDot s.

(** [`[[${linkedFileName}${header}\\|${linkDisplayName}]]`] *)
Definition escapedLink (linkedFileName header linkDisplayName : str) : str :=
  js "[[" ++ linkedFileName ++ header ++ js "\\|" ++ linkDisplayName ++
  js "]]".

(** The header path of a link: none, or a number sign and a heading. *)
Definition isHeaderPath (header : str) : Prop :=
  header = [] \/
  exists h, header = "#"%char :: h /\ plainWord h = true.

(** The patterns of the regions set aside find nothing in a text. *)
Definition noProtectedText (E : Env) (text : str) : Prop :=
  EXCALIDRAW_REGEX E text = [] /\ CODEBLOCK_REGEX E text = [] /\
  CODE_FENCE_REGEX E text = [] /\ FRONTMATTER_REGEX E text = [].

(** A drawing, by the name of its file. *)
Definition isDrawing (f : TFile) : bool :=
  Str.endsWith (name f) (js ".excalidraw.md").

(** The file an embed resolves to from [file]. *)
Definition embeddedFileOf (E : Env) (file : TFile) (transclusionMatch : str)
  : option TFile :=
  getFirstLinkpathDest E
    (getLinkpath E (fst (transclusionParts transclusionMatch))) (getPath file).

(** The drawings among the files a list of embeds resolves to. *)
Definition drawingsOf (E : Env) (file : TFile) (embeds : list str)
  : list TFile :=
  flat_map
    (fun m =>
       match embeddedFileOf E file m with
       | Some linkedFile => if isDrawing linkedFile then [linkedFile] else []
       | None => []
       end)
    embeds.

(** The drawings embedded in a text, in the order of their embeds. *)
Definition embeddedDrawings (E : Env) (file : TFile) (text : str) : list TFile :=
  drawingsOf E file (matches transcludedRegex text).

(** The calls of the drawing compiler one invocation of the resolver makes
    itself, each with the drawing compiled. *)
Definition ownDrawings (trace : list Event) : list (ExcalidrawOptions * TFile) :=
  flat_map
    (fun e => match e with CompileDrawing opts f => [(opts, f)] | _ => [] end)
    trace.

(** The metadata of a note records a heading with the text [h]. *)
Definition hasHeading (metadata : option CachedMetadata) (h : str) : bool :=
  match metadata with
  | Some md =>
      match headings md with
      | Some hs => existsb (fun x => Str.eqb (heading x) h) hs
      | None => false
      end
  | None => false
  end.

(** The target of an embed is among the notes marked for publishing. *)
Definition published (E : Env) (linkedFile : TFile) : bool :=
  existsb (fun f => Str.eqb (getPath f) (path linkedFile))
    (getFilesMarkedForPublishing E).

(** [frontmatter["dg-permalink"]] of a note. *)
Definition permalinkOf (E : Env) (linkedFile : TFile) : option str :=
  match getFileCache E linkedFile with
  | Some md => dgPermalink md
  | None => None
  end.

(** The link from an embed back to the note, at the address [href]. *)
Definition linkBack (href : str) : str :=
  js "<a class=\x22markdown-embed-link\x22 href=\x22" ++ href ++
  js "\x22 aria-label=\x22Open link\x22><svg xmlns=\x22http://www.w3.org/2000/svg\x22 width=\x2224\x22 height=\x2224\x22 viewBox=\x220 0 24 24\x22 fill=\x22none\x22 stroke=\x22currentColor\x22 stroke-width=\x222\x22 stroke-linecap=\x22round\x22 stroke-linejoin=\x22round\x22 class=\x22svg-icon lucide-link\x22><path d=\x22M10 13a5 5 0 0 0 7.54.54l3-3a5 5 0 0 0-7.07-7.07l-1.72 1.71\x22></path><path d=\x22M14 11a5 5 0 0 0-7.54-.54l-3 3a5 5 0 0 0 7.07 7.07l1.71-1.71\x22></path></svg></a>".

(** The settings with other custom filters. *)
Definition withFilters (E : Env) (filters : list CustomFilter) : Env :=
  {| getFirstLinkpathDest := getFirstLinkpathDest E;
     getFileCache := getFileCache E;
     cachedRead := cachedRead E;
     read := read E;
     readBinary := readBinary E;
     getLinkpath := getLinkpath E;
     arrayBufferToBase64 := arrayBufferToBase64 E;
     getCompiledFrontmatter := getCompiledFrontmatter E;
     getFilesMarkedForPublishing := getFilesMarkedForPublishing E;
     customFilters := filters;
     regExpReplace := regExpReplace E;
     slugify := slugify E;
     sanitizePermalink := sanitizePermalink E;
     generateUrlPath := generateUrlPath E;
     getGardenPathForNote := getGardenPathForNote E;
     fixMarkdownHeaderSyntax := fixMarkdownHeaderSyntax E;
     setWidth := setWidth E;
     decodeURI := decodeURI E;
     compileMarkdown := compileMarkdown E;
     getAPI := getAPI E;
     FRONTMATTER_REGEX := FRONTMATTER_REGEX E;
     BLOCKREF_REGEX := BLOCKREF_REGEX E;
     CODEBLOCK_REGEX := CODEBLOCK_REGEX E;
     CODE_FENCE_REGEX := CODE_FENCE_REGEX E;
     EXCALIDRAW_REGEX := EXCALIDRAW_REGEX E;
     TRANSCLUDED_SVG_REGEX := TRANSCLUDED_SVG_REGEX E |}.

(** The notice for a filter whose pattern is not a regular expression. *)
Definition invalidFilterNotice (filter : CustomFilter) : Event :=
  Notice (js "Your custom filters contains an invalid regex: " ++
          pattern filter ++ js ". Skipping it.").

(** A text does not go on with a code unit of an identifier. *)
Definition endsIdentifier (b : str) : bool :=
  match b with
  | [] => true
  | c :: _ => negb (isIdChar c)
  end.

(** A markdown image of an SVG file: [![alt](path.svg)]. *)
Definition svgImage (alt p : str) : str :=
  js "![" ++ alt ++ js "](" ++ p ++ js ".svg)".

(** A comment: two percent signs, at least one code unit, two percent
    signs. *)
Definition comment (x : ascii) (y : str) : str :=
  js "%%" ++ x :: y ++ js "%%".

(** The code, the code fences and the drawing data of a text: the patterns
    find none. *)
Definition noCodeRegion (E : Env) (text : str) : Prop :=
  CODEBLOCK_REGEX E text = [] /\ CODE_FENCE_REGEX E text = [] /\
  EXCALIDRAW_REGEX E text = [].

(** *** What the loops pass over *)

(** Every text the pattern matches has the code unit [d] in it (a sufficient
    condition, read off the pattern). *)
Fixpoint requires (d : ascii) (r : regex) : bool :=
  match r with
  | Eps => false
  | Chr x => Ascii.eqb x d
  | Cls _ => false
  | Seq r1 r2 => requires d r1 || requires d r2
  | Alt r1 r2 => requires d r1 && requires d r2
  | Star _ _ => false
  | Grp _ r1 => requires d r1
  end.

(** The code units with a meaning for one of the passes. *)
Definition markupUnits : str := js "![]()^`%".

(** Prose: a text without any of them. *)
Definition plainProse (s : str) : bool :=
  forallb (fun c => negb (existsb (Ascii.eqb c) markupUnits)) s.

(** An embed whose file name resolves from [file]. *)
Definition resolved (E : Env) (file : TFile) (transclusionMatch : str) : bool :=
  match embeddedFileOf E file transclusionMatch with
  | Some _ => true
  | None => false
  end.

(** A link that resolves to a file that is not a markdown note. *)
Definition nonMarkdown (E : Env) (file : TFile) (linkMatch : str) : bool :=
  match linkedFileOf E file linkMatch with
  | Some linkedFile => negb (Str.eqb (extension linkedFile) (js "md"))
  | None => false
  end.

(** A text holds [token], between a text before it and a text behind it. *)
Definition keeps (token text : str) : Prop :=
  exists before after, text = before ++ token ++ after.

(** A link on one name: no bracket between its brackets. *)
Definition plainLink (linkMatch : str) : Prop :=
  exists inner,
    linkMatch = js "[[" ++ inner ++ js "]]" /\
    ~ In "["%char inner /\ ~ In "]"%char inner.

(** An embed on one name: no closing bracket and no exclamation mark between
    its brackets. *)
Definition plainEmbed (transclusionMatch : str) : Prop :=
  exists inner,
    transclusionMatch = js "![[" ++ inner ++ js "]]" /\
    ~ In "]"%char inner /\ ~ In "!"%char inner.

(** A markdown image whose path, the text of its last parentheses, begins
    with [http]. *)
Definition remoteImage (imageMatch : str) : bool :=
  Str.startsWith
    (Str.substring imageMatch
       (Str.lastIndexOf imageMatch (js "(") + 1)
       (Str.lastIndexOf imageMatch (js ")")))
    (js "http").

(** A markdown image [![alt](path)] without exclamation mark or closing
    parenthesis in its two parts. *)
Definition plainImage (imageMatch : str) : Prop :=
  exists alt p,
    imageMatch = js "![" ++ alt ++ js "](" ++ p ++ js ")" /\
    ~ In "!"%char alt /\ ~ In ")"%char alt /\
    ~ In "!"%char p /\ ~ In ")"%char p.

(** ** A vault for worked examples

    The helpers of [utils] are the identity, [getLinkpath] cuts a link at its
    first [#], a link resolves to the file with that base name, name or path,
    and the drawing compiler answers with a tag showing its options. The
    patterns of [utils/regexes] find nothing: the example texts hold no front
    matter, code, block reference or drawing data. *)

Module Vault.

Record Entry := {
  file : TFile;
  body : str;
  meta : option CachedMetadata
}.

Definition note (folder base : string) : TFile :=
  {| path := js folder ++ js base ++ js ".md";
     name := js base ++ js ".md";
     basename := js base;
     extension := js "md" |}.

Definition drawing (base : string) : TFile :=
  {| path := js base ++ js ".excalidraw.md";
     name := js base ++ js ".excalidraw.md";
     basename := js base ++ js ".excalidraw";
     extension := js "md" |}.

Definition image (folder base ext : string) : TFile :=
  {| path := js folder ++ js base ++ js "." ++ js ext;
     name := js base ++ js "." ++ js ext;
     basename := js base;
     extension := js ext |}.

Definition text (f : TFile) (b : string) : Entry :=
  {| file := f; body := js b; meta := None |}.

Definition lookup (files : list Entry) (linkpath : str) : option Entry :=
  find (fun e => Str.eqb (basename (file e)) linkpath ||
                 Str.eqb (name (file e)) linkpath ||
                 Str.eqb (path (file e)) linkpath) files.

Definition byPath (files : list Entry) (f : TFile) : option Entry :=
  find (fun e => Str.eqb (path (file e)) (path f)) files.

Definition drawingTag (opts : ExcalidrawOptions) : str :=
  js "<drawing" ++
  (if includeExcaliDrawJs opts then js " script" else []) ++
  match idAppendage opts with Some i => js " id=" ++ i | None => [] end ++
  js ">".

Definition env (files : list Entry) (dvApi : option DataviewApi)
  (codeFence : Pat.pattern) : Env :=
  {| getFirstLinkpathDest := fun l _ => option_map file (lookup files l);
     getFileCache :=
       fun f => match byPath files f with Some e => meta e | None => None end;
     cachedRead := fun f => option_map body (byPath files f);
     read := fun f => option_map body (byPath files f);
     readBinary :=
       fun f => option_map (fun e => map byte_of_ascii (body e)) (byPath files f);
     getLinkpath := fun l => nth 0 (Str.split l (js "#")) [];
     arrayBufferToBase64 := fun b => js "base64:" ++ map ascii_of_byte b;
     getCompiledFrontmatter := fun _ => [];
     getFilesMarkedForPublishing := [];
     customFilters := [];
     regExpReplace := fun _ _ _ t => Some t;
     slugify := fun s => s;
     sanitizePermalink := fun s => s;
     generateUrlPath := fun s => s;
     getGardenPathForNote := fun s => s;
     fixMarkdownHeaderSyntax := fun s => s;
     setWidth := fun s _ => Some s;
     decodeURI := fun s => Some s;
     compileMarkdown := fun opts _ _ => Some (drawingTag opts);
     getAPI := dvApi;
     FRONTMATTER_REGEX := fun _ => [];
     BLOCKREF_REGEX := fun _ => [];
     CODEBLOCK_REGEX := fun _ => [];
     CODE_FENCE_REGEX := codeFence;
     EXCALIDRAW_REGEX := fun _ => [];
     TRANSCLUDED_SVG_REGEX := fun _ => [] |}.

Definition plain (files : list Entry) : Env := env files None (fun _ => []).

Definition root : TFile := note "" "root".

(** The embed of the transclusion resolver around a text, without link back
    and without title. *)
Definition embed (s : str) : str := wrapTransclusion [] [] s.

(** Six notes, each embedding the next. *)
Definition chain : list Entry :=
  [ text (note "" "n1") "one ![[n2]]";
    text (note "" "n2") "two ![[n3]]";
    text (note "" "n3") "three ![[n4]]";
    text (note "" "n4") "four ![[n5]]";
    text (note "" "n5") "five ![[n6]]";
    text (note "" "n6") "six" ].

(** A note with an embed that does not resolve. *)
Definition dangling : list Entry :=
  [ text root "x ![[nonexistent]] y" ].

(** A Dataview API whose block queries throw. *)
Definition failingDataview : DataviewApi :=
  {| dataviewJsKeyword := js "dataviewjs";
     inlineQueryPrefix := js "=";
     inlineJsQueryPrefix := js "$=";
     tryQueryMarkdown := fun _ _ => None;
     executeJs := fun _ _ => Some (js "<div></div>");
     tryEvaluate := fun _ => Some None |}.

Definition pictures : list Entry :=
  [ text (image "assets/" "pic" "png") "PNG";
    text (image "my assets/" "photo" "jpg") "JPG" ].

(** Two drawings, and a note embedding the second. *)
Definition drawings : list Entry :=
  [ text root "![[d1.excalidraw]] ![[inner]]";
    text (drawing "d1") "D1";
    text (drawing "d2") "D2";
    text (note "" "inner") "in ![[d2.excalidraw]]" ].

(** A note with a block query between two lines of text. *)
Definition queried : list Entry :=
  [ text root "intro\n```dataview\nLIST\n```\noutro" ].

(** A target with three headings, at lines 0, 5 and 10. *)
Definition threeHeadings : CachedMetadata :=
  {| headings := Some
       [ {| heading := js "A"; level := 1; headingLine := 0 |};
         {| heading := js "B"; level := 2; headingLine := 5 |};
         {| heading := js "C"; level := 1; headingLine := 10 |} ];
     blocks := None;
     dgPermalink := None |}.

Definition sections : list Entry :=
  [ {| file := note "" "target";
       body := js "# A\na1\na2\na3\na4\n## B\nb1\nb2\nb3\nb4\n# C\nc1";
       meta := Some threeHeadings |} ].

(** A target with the anchor [blk] on its second line. *)
Definition oneAnchor : CachedMetadata :=
  {| headings := None;
     blocks := Some
       (fun id => if Str.eqb id (js "blk")
                  then Some {| startLine := 1; endLine := 1 |}
                  else None);
     dgPermalink := None |}.

Definition anchored : list Entry :=
  [ {| file := note "" "target";
       body := js "a\n^blk: content\nb";
       meta := Some oneAnchor |} ].

(** A note linking to a picture. *)
Definition gallery : list Entry :=
  [ text root "see [[pic.png]]";
    text (image "assets/" "pic" "png") "PNG" ].

(** A note with an image in each of the two forms. *)
Definition album : list Entry :=
  text root "![[pic.png|200]] and ![x](photo.jpg)" :: pictures.

(** A Dataview API that renders every query. *)
Definition rendering : DataviewApi :=
  {| dataviewJsKeyword := js "dataviewjs";
     inlineQueryPrefix := js "=";
     inlineJsQueryPrefix := js "$=";
     tryQueryMarkdown := fun _ _ => Some (js "- one\n- two");
     executeJs := fun _ _ => Some (js "<div></div>");
     tryEvaluate := fun _ => Some None |}.

(** A note in a folder, and a note linking to a heading of it. *)
Definition linked : list Entry :=
  [ text root "see [[target#Intro|shown]] end";
    text (note "notes/" "target") "# Intro\ntext" ].

(** A note embedding two drawings. *)
Definition sketches : list Entry :=
  [ text root "![[d1.excalidraw]] and ![[d2.excalidraw]]";
    text (drawing "d1") "D1";
    text (drawing "d2") "D2" ].

(** A note with a markdown image of an SVG file. *)
Definition logo : list Entry :=
  [ text root "logo: ![logo](assets/logo.svg) end";
    text (image "assets/" "logo" "svg") "<svg></svg>" ].

(** A note of one line of prose. *)
Definition prose : list Entry :=
  [ text root "Just prose." ].

(** An engine that rejects the pattern of an open parenthesis and, for every
    other pattern, appends the replacement to the text. *)
Definition engine (pattern _flags replace text : str) : option str :=
  if Str.eqb pattern (js "(") then None else Some (text ++ replace).

(** The empty vault with that engine. *)
Definition strict : Env :=
  {| getFirstLinkpathDest := fun _ _ => None;
     getFileCache := fun _ => None;
     cachedRead := fun _ => None;
     read := fun _ => None;
     readBinary := fun _ => None;
     getLinkpath := fun l => l;
     arrayBufferToBase64 := fun b => map ascii_of_byte b;
     getCompiledFrontmatter := fun _ => [];
     getFilesMarkedForPublishing := [];
     customFilters := [];
     regExpReplace := engine;
     slugify := fun s => s;
     sanitizePermalink := fun s => s;
     generateUrlPath := fun s => s;
     getGardenPathForNote := fun s => s;
     fixMarkdownHeaderSyntax := fun s => s;
     setWidth := fun s _ => Some s;
     decodeURI := fun s => Some s;
     compileMarkdown := fun _ _ _ => None;
     getAPI := None;
     FRONTMATTER_REGEX := fun _ => [];
     BLOCKREF_REGEX := fun _ => [];
     CODEBLOCK_REGEX := fun _ => [];
     CODE_FENCE_REGEX := fun _ => [];
     EXCALIDRAW_REGEX := fun _ => [];
     TRANSCLUDED_SVG_REGEX := fun _ => [] |}.

(** The vault [files] with the notes [marked] for publishing. *)
Definition garden (files : list Entry) (marked : list TFile) : Env :=
  {| getFirstLinkpathDest := getFirstLinkpathDest (plain files);
     getFileCache := getFileCache (plain files);
     cachedRead := cachedRead (plain files);
     read := read (plain files);
     readBinary := readBinary (plain files);
     getLinkpath := getLinkpath (plain files);
     arrayBufferToBase64 := arrayBufferToBase64 (plain files);
     getCompiledFrontmatter := getCompiledFrontmatter (plain files);
     getFilesMarkedForPublishing := marked;
     customFilters := [];
     regExpReplace := regExpReplace (plain files);
     slugify := slugify (plain files);
     sanitizePermalink := sanitizePermalink (plain files);
     generateUrlPath := generateUrlPath (plain files);
     getGardenPathForNote := getGardenPathForNote (plain files);
     fixMarkdownHeaderSyntax := fixMarkdownHeaderSyntax (plain files);
     setWidth := setWidth (plain files);
     decodeURI := decodeURI (plain files);
     compileMarkdown := compileMarkdown (plain files);
     getAPI := None;
     FRONTMATTER_REGEX := fun _ => [];
     BLOCKREF_REGEX := fun _ => [];
     CODEBLOCK_REGEX := fun _ => [];
     CODE_FENCE_REGEX := fun _ => [];
     EXCALIDRAW_REGEX := fun _ => [];
     TRANSCLUDED_SVG_REGEX := fun _ => [] |}.

(** A note with an embed that resolves and one that does not. *)
Definition mixed : list Entry :=
  [ text root "![[n6]] and ![[nonexistent]]";
    text (note "" "n6") "six" ].

(** A picture whose caption holds a link, beside the same link. *)
Definition nested : list Entry :=
  [ text root "[[pic.png|see [[note]]]] and [[note]]";
    text (image "assets/" "pic" "png") "PNG";
    text (note "" "note") "a note" ].

(** A note with an image on the web and one of the vault. *)
Definition remote : list Entry :=
  [ text root "![a](http://x/y.png) and ![b](photo.jpg)";
    text (image "my assets/" "photo" "jpg") "JPG" ].

End Vault.

(** * Properties *)

(** ** Facts on the string primitives *)

Lemma str_eqb_eq (a b : str) : Str.eqb a b = true <-> a = b.
Proof.
  revert b. induction a as [|x a IH]; intros [|y b]; simpl; split; intros H;
    try reflexivity; try discriminate.
  - apply andb_true_iff in H. destruct H as [H1 H2].
    apply Ascii.eqb_eq in H1. apply IH in H2. congruence.
  - inversion H; subst. rewrite Ascii.eqb_refl. apply IH. reflexivity.
Qed.

Lemma str_eqb_refl (a : str) : Str.eqb a a = true.
Proof. apply str_eqb_eq. reflexivity. Qed.

Lemma startsWith_app (p r : str) : Str.startsWith (p ++ r) p = true.
Proof.
  induction p as [|x p IH]; simpl; [reflexivity|].
  rewrite Ascii.eqb_refl. exact IH.
Qed.

Lemma startsWith_split t p :
  Str.startsWith t p = true -> t = p ++ skipn (length p) t.
Proof.
  revert t. induction p as [|x p IH]; intros t H; simpl; [reflexivity|].
  destruct t as [|y t]; [discriminate|]. simpl in H.
  apply andb_true_iff in H. destruct H as [H1 H2].
  apply Ascii.eqb_eq in H1. subst y. simpl. f_equal. apply IH. exact H2.
Qed.

Lemma startsWith_longer t p q :
  Str.startsWith t p = false -> Str.startsWith t (p ++ q) = false.
Proof.
  revert t. induction p as [|x p IH]; intros t H; [discriminate H|].
  destruct t as [|y t]; [reflexivity|]. cbn [Str.startsWith app] in *.
  destruct (Ascii.eqb x y); [apply IH; exact H | reflexivity].
Qed.

Lemma find_at_start (p r : str) : Str.find (p ++ r) p = Some 0.
Proof.
  destruct p as [|x p]; [destruct r; reflexivity|].
  simpl. rewrite Ascii.eqb_refl, startsWith_app. reflexivity.
Qed.

(** A pattern is not found before the first occurrence of its first code
    unit. *)
Lemma find_after (d : ascii) (p a s : str) :
  ~ In d a ->
  Str.find (a ++ s) (d :: p) = option_map (Nat.add (length a)) (Str.find s (d :: p)).
Proof.
  induction a as [|c a IH]; intros Hd.
  - simpl app. destruct (Str.find s (d :: p)); reflexivity.
  - assert (Hc : Ascii.eqb d c = false).
    { apply Ascii.eqb_neq. intros ->. apply Hd. left. reflexivity. }
    simpl app. cbn [Str.find Str.startsWith]. rewrite Hc. cbn [andb].
    rewrite IH by (intros H; apply Hd; right; exact H).
    destruct (Str.find s (d :: p)); reflexivity.
Qed.

Lemma find_absent (d : ascii) (p s : str) :
  ~ In d s -> Str.find s (d :: p) = None.
Proof.
  intros Hd. rewrite <- (app_nil_r s). rewrite find_after by exact Hd.
  reflexivity.
Qed.

Lemma find_first (d : ascii) (p a r : str) :
  ~ In d a -> Str.find (a ++ (d :: p) ++ r) (d :: p) = Some (length a).
Proof.
  intros Hd. rewrite find_after by exact Hd.
  rewrite find_at_start. simpl. f_equal. lia.
Qed.

Lemma find_split t p i :
  Str.find t p = Some i -> t = firstn i t ++ p ++ skipn (i + length p) t.
Proof.
  revert i. induction t as [|x t IH]; intros i; cbn [Str.find].
  - destruct (Str.startsWith [] p) eqn:Hs; [|discriminate].
    intros H. inversion H; subst. apply (startsWith_split [] p Hs).
  - destruct (Str.startsWith (x :: t) p) eqn:Hs.
    + intros H. inversion H; subst. apply (startsWith_split _ p Hs).
    + destruct (Str.find t p) as [j|]; [|discriminate].
      intros H. inversion H; subst. simpl. f_equal. apply IH. reflexivity.
Qed.

Lemma find_occurs u p v : Str.find (u ++ p ++ v) p <> None.
Proof.
  induction u as [|x u IH].
  - simpl app. rewrite find_at_start. discriminate.
  - simpl app. cbn [Str.find].
    destruct (Str.startsWith (x :: u ++ p ++ v) p); [discriminate|].
    destruct (Str.find (u ++ p ++ v) p); [discriminate | exact IH].
Qed.

Lemma find_tail x t p : Str.find (x :: t) p = None -> Str.find t p = None.
Proof.
  cbn [Str.find]. destruct (Str.startsWith (x :: t) p); [discriminate|].
  destruct (Str.find t p); [discriminate | reflexivity].
Qed.

Lemma find_head x t p :
  Str.find (x :: t) p = None -> Str.startsWith (x :: t) p = false.
Proof.
  cbn [Str.find]. destruct (Str.startsWith (x :: t) p); [discriminate | reflexivity].
Qed.

Lemma includes_first (d : ascii) (p a r : str) :
  ~ In d a -> Str.includes (a ++ (d :: p) ++ r) (d :: p) = true.
Proof. intros H. unfold Str.includes. rewrite find_first by exact H. reflexivity. Qed.

Lemma rfind_last (c : ascii) (a : str) : Str.rfind (a ++ [c]) [c] = Some (length a).
Proof.
  induction a as [|x a IH]; simpl.
  - rewrite Ascii.eqb_refl. reflexivity.
  - rewrite IH. reflexivity.
Qed.

Lemma substring_middle (a b c : str) :
  Str.substring (a ++ b ++ c) (Z.of_nat (length a)) (Z.of_nat (length a + length b)) = b.
Proof.
  unfold Str.substring, Str.clamp. rewrite !Nat2Z.id, !length_app.
  rewrite !Nat.min_l by lia. rewrite Nat.max_r by lia.
  replace (length a + length b - length a) with (length b) by lia.
  rewrite skipn_app, skipn_all, Nat.sub_diag. simpl.
  rewrite firstn_app, firstn_all, Nat.sub_diag. simpl. apply app_nil_r.
Qed.

Lemma firstn_app_length {A} (a b : list A) :
  firstn (length (a ++ b) - length b) (a ++ b) = a.
Proof.
  rewrite length_app. replace (length a + length b - length b) with (length a) by lia.
  rewrite firstn_app, firstn_all, Nat.sub_diag. simpl. apply app_nil_r.
Qed.

Lemma not_in_app {A} (x : A) a b : ~ In x a -> ~ In x b -> ~ In x (a ++ b).
Proof. intros Ha Hb H. apply in_app_or in H. tauto. Qed.

Lemma split_one (d : ascii) (p s : str) :
  ~ In d s -> Str.split s (d :: p) = [s].
Proof.
  intros Hd. unfold Str.split.
  destruct (length s); simpl; [reflexivity|].
  rewrite find_absent by exact Hd. reflexivity.
Qed.

Lemma split_fuel_one (n : nat) (d : ascii) (p s : str) :
  ~ In d s -> Str.split_fuel n (d :: p) s = [s].
Proof.
  intros Hd. destruct n; simpl; [reflexivity|].
  rewrite find_absent by exact Hd. reflexivity.
Qed.

Lemma split_fuel_enough d p n : forall m s,
  length s <= n -> length s <= m ->
  Str.split_fuel n (d :: p) s = Str.split_fuel m (d :: p) s.
Proof.
  induction n as [|n IH]; intros m s Hn Hm.
  - destruct s; [|simpl in Hn; lia]. destruct m; reflexivity.
  - destruct m as [|m].
    + destruct s; [|simpl in Hm; lia]. reflexivity.
    + cbn [Str.split_fuel].
      destruct (Str.find s (d :: p)) as [i|] eqn:Hf; [|reflexivity].
      assert (Hs : 1 <= length s)
        by (destruct s; [discriminate Hf | simpl; lia]).
      f_equal. apply IH; rewrite length_skipn; cbn [length]; lia.
Qed.

Lemma split_two (d : ascii) (p a r : str) :
  ~ In d a -> ~ In d r -> Str.split (a ++ (d :: p) ++ r) (d :: p) = [a; r].
Proof.
  intros Ha Hr. unfold Str.split.
  rewrite length_app. simpl length.
  replace (length a + S (length (p ++ r))) with (S (length a + length (p ++ r))) by lia.
  cbn [Str.split_fuel]. rewrite find_first by exact Ha.
  rewrite firstn_app, firstn_all, Nat.sub_diag. simpl firstn. rewrite app_nil_r.
  f_equal.
  replace (length a + length (d :: p)) with (length (a ++ d :: p))
    by (rewrite length_app; reflexivity).
  rewrite app_assoc, skipn_app, skipn_all, Nat.sub_diag. simpl.
  apply split_fuel_one. exact Hr.
Qed.

Lemma split_cons d p a rest :
  ~ In d a ->
  Str.split (a ++ (d :: p) ++ rest) (d :: p) = a :: Str.split rest (d :: p).
Proof.
  intros Ha. unfold Str.split.
  rewrite length_app. simpl length.
  replace (length a + S (length (p ++ rest)))
    with (S (length a + length (p ++ rest))) by lia.
  cbn [Str.split_fuel]. rewrite find_first by exact Ha.
  rewrite firstn_app, firstn_all, Nat.sub_diag. simpl firstn. rewrite app_nil_r.
  f_equal.
  replace (length a + length (d :: p)) with (length (a ++ d :: p))
    by (rewrite length_app; reflexivity).
  rewrite app_assoc, skipn_app, skipn_all, Nat.sub_diag. simpl skipn.
  apply split_fuel_enough; rewrite ?length_app; lia.
Qed.

Lemma split_join d x l :
  Forall (fun t => ~ In d t) (x :: l) ->
  Str.split (Str.join [d] (x :: l)) [d] = x :: l.
Proof.
  revert x. induction l as [|y l IH]; intros x H.
  - inversion H; subst. simpl. apply split_one. assumption.
  - inversion H; subst.
    change (Str.join [d] (x :: y :: l)) with (x ++ [d] ++ Str.join [d] (y :: l)).
    rewrite split_cons by assumption. f_equal. apply IH. assumption.
Qed.

Lemma lacks_not_in c s : lacks c s = true -> ~ In c s.
Proof.
  unfold lacks. rewrite forallb_forall. intros H Hin.
  specialize (H c Hin). rewrite Ascii.eqb_refl in H. discriminate.
Qed.

Lemma lacks_app c a b : lacks c (a ++ b) = lacks c a && lacks c b.
Proof. unfold lacks. apply forallb_app. Qed.

Lemma lacks_join c d l :
  Ascii.eqb c d = false ->
  forallb (lacks c) l = true -> lacks c (Str.join [d] l) = true.
Proof.
  intros Hcd. induction l as [|x l IH]; intros H; [reflexivity|].
  simpl in H. apply andb_true_iff in H. destruct H as [Hx Hl].
  destruct l as [|y l]; [exact Hx|].
  change (Str.join [d] (x :: y :: l)) with (x ++ [d] ++ Str.join [d] (y :: l)).
  rewrite !lacks_app, Hx, (IH Hl). simpl. rewrite Hcd. reflexivity.
Qed.

Lemma plainText_lacks s :
  plainText s = true ->
  ~ In "#"%char s /\ ~ In "["%char s /\ ~ In "]"%char s /\ ~ In "|"%char s.
Proof.
  unfold plainText. rewrite !andb_true_iff. intros [[[H1 H2] H3] H4].
  repeat split; apply lacks_not_in; assumption.
Qed.

Lemma fold_left_unchanged {A S} (f : S -> A -> S) (l : list A) (s : S) :
  (forall a, In a l -> f s a = s) -> fold_left f l s = s.
Proof.
  induction l as [|a l IH]; intros H; simpl; [reflexivity|].
  rewrite H by (left; reflexivity).
  apply IH. intros b Hb. apply H. right. exact Hb.
Qed.

Lemma fold_left_ext_in {A B} (f g : B -> A -> B) (l : list A) (b : B) :
  (forall a, In a l -> forall b, f b a = g b a) ->
  fold_left f l b = fold_left g l b.
Proof.
  revert b. induction l as [|a l IH]; intros b H; simpl; [reflexivity|].
  rewrite H by (left; reflexivity). apply IH.
  intros a' Ha'. apply H. right. exact Ha'.
Qed.

(** ** The writer monad *)

Lemma bind_ret_l {A B} (a : A) (f : A -> M B) : bind (ret a) f = f a.
Proof. unfold bind, ret. destruct (f a). reflexivity. Qed.

Lemma fst_bind {A B} (m : M A) (f : A -> M B) :
  fst (bind m f) = fst (f (fst m)).
Proof. unfold bind. destruct m as [a l]. simpl. destruct (f a). reflexivity. Qed.

Lemma snd_bind {A B} (m : M A) (f : A -> M B) :
  snd (bind m f) = snd m ++ snd (f (fst m)).
Proof. unfold bind. destruct m as [a l]. simpl. destruct (f a). reflexivity. Qed.

Lemma foldM_unchanged {A S} (f : S -> A -> M S) (l : list A) (s : S) :
  (forall a, In a l -> f s a = ret s) -> foldM f l s = ret s.
Proof.
  induction l as [|a l IH]; intros H; simpl; [reflexivity|].
  rewrite H by (left; reflexivity). rewrite bind_ret_l.
  apply IH. intros b Hb. apply H. right. exact Hb.
Qed.

(** ** Scanning with a global pattern *)

Lemma orElse_none {A} (a : option A) : orElse a None = a.
Proof. destruct a; reflexivity. Qed.

Lemma matchAt_prefix r t m c :
  matchAt r t = Some (m, c) -> exists rest, t = m ++ rest.
Proof.
  unfold matchAt. destruct (run r t [] _) as [[rest c']|]; [|discriminate].
  intros H. inversion H; subst.
  exists (skipn (length t - length rest) t). symmetry. apply firstn_skipn.
Qed.

Lemma scan_skip r a rest : scan r (a ++ rest) (length a) = scan r rest 0.
Proof.
  induction a as [|x a IH]; simpl; [destruct rest; reflexivity | exact IH].
Qed.

Lemma replaceWith_skip r f a rest :
  replaceWith r f (a ++ rest) (length a) = replaceWith r f rest 0.
Proof.
  induction a as [|x a IH]; simpl; [destruct rest; reflexivity | exact IH].
Qed.

Lemma noMatch_head r s : noMatch r s -> matchAt r s = None.
Proof. intros H. exact (H 0). Qed.

Lemma noMatch_tail r x s : noMatch r (x :: s) -> noMatch r s.
Proof. intros H j. exact (H (S j)). Qed.

Lemma noMatch_cons r x s :
  matchAt r (x :: s) = None -> noMatch r s -> noMatch r (x :: s).
Proof. intros H0 H [|j]; [exact H0 | exact (H j)]. Qed.

Lemma noMatch_scan r s : noMatch r s -> scan r s 0 = [].
Proof.
  induction s as [|x s IH]; intros H; simpl.
  - rewrite (noMatch_head _ _ H). reflexivity.
  - rewrite (noMatch_head _ _ H). apply IH. eapply noMatch_tail. exact H.
Qed.

Lemma scan_noMatch r s : scan r s 0 = [] -> noMatch r s.
Proof.
  induction s as [|x s IH]; simpl.
  - destruct (matchAt r []) eqn:H0; [discriminate|].
    intros _ j. destruct j; exact H0.
  - destruct (matchAt r (x :: s)) as [[m c]|] eqn:H0; [discriminate|].
    intros H. apply noMatch_cons; [exact H0 | apply IH; exact H].
Qed.

Lemma matches_noMatch r s : matches r s = [] <-> noMatch r s.
Proof.
  unfold matches, matchAll. split.
  - intros H. apply scan_noMatch. destruct (scan r s 0); [reflexivity | discriminate].
  - intros H. rewrite noMatch_scan by exact H. reflexivity.
Qed.

Lemma noMatch_replaceWith r f s : noMatch r s -> replaceWith r f s 0 = s.
Proof.
  induction s as [|x s IH]; intros H; simpl.
  - rewrite (noMatch_head _ _ H). reflexivity.
  - rewrite (noMatch_head _ _ H). f_equal. apply IH. eapply noMatch_tail. exact H.
Qed.

Lemma matches_cons r s m c rest' :
  scan r s 0 = (m, c) :: scan r rest' 0 -> matches r s = m :: matches r rest'.
Proof. unfold matches, matchAll. intros ->. reflexivity. Qed.

(** A text either has no match, or is a gap, the first match and a rest. *)
Lemma scan_cases r f s :
  neverEmpty r ->
  noMatch r s \/
  exists g m c rest,
    s = g ++ m ++ rest /\
    (forall j, j < length g -> matchAt r (skipn j s) = None) /\
    matchAt r (m ++ rest) = Some (m, c) /\
    scan r s 0 = (m, c) :: scan r rest 0 /\
    replaceWith r f s 0 = g ++ f m c ++ replaceWith r f rest 0.
Proof.
  intros Hne. induction s as [|x s IH].
  - left. intros j. destruct (matchAt r []) as [[m c]|] eqn:H0.
    + destruct (matchAt_prefix _ _ _ _ H0) as [rest Hr].
      destruct m; [exfalso; exact (Hne _ _ H0) | discriminate].
    + destruct j; exact H0.
  - destruct (matchAt r (x :: s)) as [[m c]|] eqn:H0.
    + right. destruct (matchAt_prefix _ _ _ _ H0) as [rest Hr].
      destruct m as [|y m]; [exfalso; exact (Hne _ _ H0)|].
      simpl in Hr. inversion Hr; subst y s.
      exists [], (x :: m), c, rest. simpl. rewrite H0. repeat split.
      * intros j Hj. lia.
      * replace (length (x :: m) - 1) with (length m) by (simpl; lia).
        rewrite scan_skip. reflexivity.
      * rewrite replaceWith_skip. reflexivity.
    + destruct IH as [IH|(g & m & c & rest & Hs & Hg & Hm & Hsc & Hrw)].
      * left. apply noMatch_cons; assumption.
      * right. exists (x :: g), m, c, rest. simpl. rewrite H0. repeat split.
        -- rewrite Hs. reflexivity.
        -- intros [|j] Hj; [exact H0|]. apply Hg. simpl in Hj. lia.
        -- exact Hm.
        -- exact Hsc.
        -- rewrite Hrw. reflexivity.
Qed.

(** ** The matcher on the shapes the compiler uses *)

Lemma run_Lit p s c k :
  run (Lit p) s c k
  = if Str.startsWith s p then k (skipn (length p) s) c else None.
Proof.
  revert s. induction p as [|x p IH]; intros s; simpl; [reflexivity|].
  destruct s as [|y s]; [reflexivity|].
  rewrite Ascii.eqb_sym. destruct (Ascii.eqb x y); simpl; [apply IH | reflexivity].
Qed.

Lemma star_lazy_any k fuel s c :
  length s <= fuel ->
  star false (run (Cls isAny)) k fuel s c = firstSuffix k s c.
Proof.
  revert s. induction fuel as [|fuel IH]; intros s Hl.
  - destruct s; [|simpl in Hl; lia]. simpl. rewrite orElse_none. reflexivity.
  - destruct s as [|x s]; cbn [star run isAny firstSuffix].
    + reflexivity.
    + replace (length s <? length (x :: s)) with true
        by (symmetry; apply Nat.ltb_lt; simpl; lia).
      rewrite IH by (simpl in Hl; lia). reflexivity.
Qed.

Lemma star_greedy_total p k fuel s c :
  (forall s c, k s c <> None) ->
  length s <= fuel ->
  star true (run (Cls p)) k fuel s c = k (dropWhile p s) c.
Proof.
  intros Hk. revert s. induction fuel as [|fuel IH]; intros s Hl.
  - destruct s; [reflexivity | simpl in Hl; lia].
  - destruct s as [|x s]; cbn [star run dropWhile orElse]; [reflexivity|].
    destruct (p x); [|reflexivity].
    replace (length s <? length (x :: s)) with true
      by (symmetry; apply Nat.ltb_lt; simpl; lia).
    rewrite IH by (simpl in Hl; lia). cbn [orElse].
    destruct (k (dropWhile p s) c) eqn:Hd; [reflexivity|].
    exfalso. exact (Hk _ _ Hd).
Qed.

Lemma firstSuffix_ext k1 k2 s c :
  (forall s c, k1 s c = k2 s c) -> firstSuffix k1 s c = firstSuffix k2 s c.
Proof.
  intros H. induction s as [|x s IH]; simpl; rewrite H; [reflexivity|].
  rewrite IH. reflexivity.
Qed.

Lemma firstSuffix_find p s c :
  firstSuffix
    (fun s' c' => if Str.startsWith s' p then Some (skipn (length p) s', c') else None)
    s c
  = match Str.find s p with
    | Some i => Some (skipn (i + length p) s, c)
    | None => None
    end.
Proof.
  induction s as [|x s IH].
  - simpl. destruct (Str.startsWith [] p); reflexivity.
  - cbn [firstSuffix Str.find].
    destruct (Str.startsWith (x :: s) p); [reflexivity|].
    cbn [orElse]. rewrite IH. destruct (Str.find s p); reflexivity.
Qed.

(** ** The depth bound *)

Lemma createTranscludedText_at_bound E d file text :
  4 <= d -> createTranscludedText E d file text = ret text.
Proof.
  intros Hd. unfold createTranscludedText.
  replace (4 - d) with 0 by lia. reflexivity.
Qed.

(** C1: called at a recursion depth of 4 or more, the transclusion resolver
    returns its text unchanged, whatever the text and the source document.
    So in a chain of six nested embeds the resolver run on the root expands
    four levels (the calls at depths 0 to 3) and the embed found in the fifth
    document stays as literal markup. *)
Theorem depth_bound :
  (forall E d file text,
      4 <= d -> createTranscludedText E d file text = ret text) /\
  fst (createTranscludedText (Vault.plain Vault.chain) 0 Vault.root
         (js "root ![[n1]]"))
  = js "root " ++
    Vault.embed (js "one " ++
      Vault.embed (js "two " ++
        Vault.embed (js "three " ++
          Vault.embed (js "four ![[n5]]")))).
Proof.
  split.
  - exact createTranscludedText_at_bound.
  - vm_compute. reflexivity.
Qed.

Lemma depth_bound_witness :
  createTranscludedText (Vault.plain Vault.chain) 4 (Vault.note "" "n4")
    (js "four ![[n5]]")
  = ret (js "four ![[n5]]").
Proof.
  apply (proj1 depth_bound). lia.
Defined.

(** ** Embeds that do not resolve *)

(** The text between the brackets of an embed. *)
Lemma embed_inner (inner : str) :
  ~ In "]"%char inner ->
  Str.substring (js "![[" ++ inner ++ js "]]")
    (Str.indexOf (js "![[" ++ inner ++ js "]]") (js "[") + 2)
    (Str.indexOf (js "![[" ++ inner ++ js "]]") (js "]")) = inner.
Proof.
  intros Hc.
  assert (H1 : Str.indexOf (js "![[" ++ inner ++ js "]]") (js "[") = 1%Z)
    by reflexivity.
  assert (H2 : Str.indexOf (js "![[" ++ inner ++ js "]]") (js "]")
               = Z.of_nat (3 + length inner)).
  { unfold Str.indexOf.
    change (js "![[" ++ inner ++ js "]]")
      with ((js "![[" ++ inner) ++ ("]"%char :: []) ++ js "]").
    change (js "]") with ("]"%char :: []).
    rewrite find_first; [reflexivity|].
    intros [H|[H|[H|H]]]; try discriminate. exact (Hc H). }
  rewrite H1, H2.
  exact (substring_middle (js "![[") inner (js "]]")).
Qed.

Lemma transclusionParts_plain (inner : str) :
  ~ In "]"%char inner -> ~ In "|"%char inner ->
  transclusionParts (js "![[" ++ inner ++ js "]]") = (inner, None).
Proof.
  intros Hc Hb. unfold transclusionParts.
  rewrite embed_inner by exact Hc.
  change (js "|") with ("|"%char :: []).
  rewrite split_one by exact Hb. reflexivity.
Qed.

Lemma transcludeMatch_unresolved E deeper file st transclusionMatch :
  getFirstLinkpathDest E
    (getLinkpath E (fst (transclusionParts transclusionMatch))) (getPath file)
  = None ->
  transcludeMatch E deeper file st transclusionMatch = ret st.
Proof.
  intros H. unfold transcludeMatch.
  destruct (transclusionParts transclusionMatch) as [fileName headerName].
  simpl in H. rewrite H. reflexivity.
Qed.

Lemma createTranscludedText_unresolved E d file text :
  (forall m, In m (Regex.matches transcludedRegex text) ->
     getFirstLinkpathDest E (getLinkpath E (fst (transclusionParts m)))
       (getPath file) = None) ->
  createTranscludedText E d file text = ret text.
Proof.
  intros H. unfold createTranscludedText.
  destruct (4 - d) as [|fuel]; [reflexivity|].
  cbn [transcludeWithin].
  rewrite foldM_unchanged.
  - rewrite bind_ret_l. reflexivity.
  - intros m Hm. apply transcludeMatch_unresolved. apply H. exact Hm.
Qed.

(** A link [[[name]]] with a plain name: the name is the file name and the
    display name, and there is no header path. *)
Lemma parseLink_plain name :
  plainText name = true -> Str.endsWith name [bsl] = false ->
  parseLink (js "[[" ++ name ++ js "]]")
  = {| linkedFileName := name; headerPath := []; linkDisplayName := name |}.
Proof.
  intros Hp He. apply plainText_lacks in Hp. destruct Hp as (H1 & H2 & H3 & H4).
  unfold parseLink.
  assert (Hi : Str.indexOf (js "[[" ++ name ++ js "]]") (js "[") = 0%Z)
    by reflexivity.
  assert (Hl : Str.lastIndexOf (js "[[" ++ name ++ js "]]") (js "]")
               = Z.of_nat (3 + length name)).
  { unfold Str.lastIndexOf.
    replace (js "[[" ++ name ++ js "]]")
      with ((js "[[" ++ name ++ js "]") ++ ["]"%char])
      by (rewrite <- !app_assoc; reflexivity).
    change (js "]") with ["]"%char] at 2.
    rewrite rfind_last. f_equal.
    rewrite !length_app. simpl. lia. }
  rewrite Hi, Hl.
  replace (0 + 2)%Z with (Z.of_nat (length (js "[["))) by reflexivity.
  replace (Z.of_nat (3 + length name) - 1)%Z
    with (Z.of_nat (length (js "[[") + length name))
    by (simpl length; lia).
  rewrite substring_middle.
  change (js "|") with ["|"%char]. rewrite split_one by exact H4.
  cbn [nth nth_error]. rewrite He.
  unfold Str.includes. change (js "#") with ["#"%char].
  rewrite find_absent by exact H1. reflexivity.
Qed.

(** An ordinary link resolves as its name does. *)
Lemma linkedFileOf_plain E file name :
  plainText name = true -> Str.endsWith name [bsl] = false ->
  linkedFileOf E file (js "[[" ++ name ++ js "]]")
  = getFirstLinkpathDest E (getLinkpath E name) (getPath file).
Proof.
  intros Hp He. unfold linkedFileOf. rewrite parseLink_plain by assumption.
  reflexivity.
Qed.

Lemma convertLink_unresolved E file name convertedText :
  plainText name = true -> Str.endsWith name [bsl] = false ->
  getFirstLinkpathDest E (getLinkpath E name) (getPath file) = None ->
  convertLink E file convertedText (js "[[" ++ name ++ js "]]")
  = Str.replace convertedText (js "[[" ++ name ++ js "]]")
      (js "[[" ++ name ++ js "\\|" ++ name ++ js "]]").
Proof.
  intros Hp He Hr. unfold convertLink, linkedFileOf.
  rewrite parseLink_plain by assumption. cbn [linkedFileName headerPath linkDisplayName].
  rewrite Hr. reflexivity.
Qed.

(** The pipeline as a whole does not keep an unresolved embed as it was. *)
Lemma unresolved_embed_not_preserved :
  ~ (forall E file text name out assets trace,
        cachedRead E file = Some text ->
        Str.includes text (js "![[" ++ name ++ js "]]") = true ->
        getFirstLinkpathDest E (getLinkpath E name) (getPath file) = None ->
        generateMarkdown E file = (Some (out, assets), trace) ->
        Str.includes out (js "![[" ++ name ++ js "]]") = true).
Proof.
  intros H.
  assert (Hg : generateMarkdown (Vault.plain Vault.dangling) Vault.root
               = (Some (js "x ![[nonexistent\\|nonexistent]] y", []), []))
    by (vm_compute; reflexivity).
  assert (Hi : Str.includes (js "x ![[nonexistent]] y")
                 (js "![[" ++ js "nonexistent" ++ js "]]") = true)
    by (vm_compute; reflexivity).
  assert (Hr : cachedRead (Vault.plain Vault.dangling) Vault.root
               = Some (js "x ![[nonexistent]] y"))
    by (vm_compute; reflexivity).
  assert (Hn : getFirstLinkpathDest (Vault.plain Vault.dangling)
                 (getLinkpath (Vault.plain Vault.dangling) (js "nonexistent"))
                 (getPath Vault.root) = None)
    by (vm_compute; reflexivity).
  specialize (H (Vault.plain Vault.dangling) Vault.root
                (js "x ![[nonexistent]] y") (js "nonexistent")
                _ _ _ Hr Hi Hn Hg).
  vm_compute in H. discriminate H.
Qed.

(** ** Queries that throw *)

(** Whenever the first block query of a text throws, the pass ends there:
    its result is that block, with the notice. *)
Lemma convertDataViews_first_query_throws E dvApi file text block c rest :
  getAPI E = Some dvApi ->
  matchAll dataViewRegex text = (block, c) :: rest ->
  tryQueryMarkdown dvApi (group 1 c) (getPath file) = None ->
  convertDataViews E file text
  = (block,
     [Notice (js "Unable to render dataview query. Please update the dataview plugin to the latest version.")]).
Proof.
  intros Ha Hm Hq. unfold convertDataViews. rewrite Ha, Hm.
  cbn [forQueries fst snd]. rewrite Hq.
  unfold failed, andThen, bind, tell, ret. cbn [app].
  replace (js "Unable to render " ++ js "dataview" ++
           js " query. Please update the dataview plugin to the latest version.")
    with (js "Unable to render dataview query. Please update the dataview plugin to the latest version.")
    by (vm_compute; reflexivity).
  reflexivity.
Qed.

(** C3: a block query whose evaluation throws. The notice is shown, but the
    pass returns from inside the loop with the query block as its result:
    the text around the block is gone, from the pass and from the compiled
    document. *)
Theorem failing_query_discards_document :
  let E := Vault.env Vault.queried (Some Vault.failingDataview) (fun _ => []) in
  convertDataViews E Vault.root (js "intro\n```dataview\nLIST\n```\noutro")
  = (js "```dataview\nLIST\n```",
     [Notice (js "Unable to render dataview query. Please update the dataview plugin to the latest version.")])
  /\ fst (generateMarkdown E Vault.root)
     = Some (js "```dataview\nLIST\n```", []).
Proof.
  split; vm_compute; reflexivity.
Qed.

(** ** Images *)

Lemma nth_error_last {A} (l : list A) (x : A) :
  nth_error (l ++ [x]) (length (l ++ [x]) - 1) = Some x.
Proof.
  rewrite length_app. simpl.
  replace (length l + 1 - 1) with (length l) by lia.
  rewrite nth_error_app2 by lia. rewrite Nat.sub_diag. reflexivity.
Qed.

Lemma slice_init {A} (l : list A) (x : A) :
  Str.slice (l ++ [x]) 0 (length (l ++ [x]) - 1) = l.
Proof.
  unfold Str.slice. rewrite length_app. simpl.
  replace (length l + 1 - 1 - 0) with (length l) by lia.
  rewrite firstn_app, firstn_all, Nat.sub_diag. simpl. apply app_nil_r.
Qed.

(** With a size: the name, the middle tokens when their joined text is not
    empty, and the size. *)
Lemma imageLabel_size imageName middle size :
  parseIntIsNaN size = false ->
  imageLabel imageName (middle ++ [size])
  = if isNonEmpty (Str.join (js " ") middle)
    then imageName ++ js "|" ++ Str.join (js " ") middle ++ js "|" ++ size
    else imageName ++ js "|" ++ size.
Proof.
  intros Hs. unfold imageLabel.
  rewrite nth_error_last, slice_init. cbn [orUndefined]. rewrite Hs. cbn [negb].
  assert (Ht : truthy (Some size) = true).
  { destruct size; [discriminate Hs | reflexivity]. }
  rewrite Ht, andb_true_r.
  destruct middle as [|t middle].
  - reflexivity.
  - replace (1 <? length ((t :: middle) ++ [size])) with true
      by (symmetry; apply Nat.ltb_lt; rewrite length_app; simpl; lia).
    reflexivity.
Qed.

(** Without a size the label is the bare name. *)
Lemma imageLabel_no_size imageName middle last :
  parseIntIsNaN last = true ->
  imageLabel imageName (middle ++ [last]) = imageName.
Proof.
  intros Hs. unfold imageLabel.
  rewrite nth_error_last. cbn [orUndefined]. rewrite Hs. cbn [negb truthy].
  rewrite andb_false_r. reflexivity.
Qed.

Lemma imageLabel_bare imageName : imageLabel imageName [] = imageName.
Proof. reflexivity. Qed.

Lemma imageEmbed_parts imageName tokens :
  forallb plainToken (imageName :: tokens) = true ->
  Str.split
    (Str.substring (imageEmbed imageName tokens)
       (Str.indexOf (imageEmbed imageName tokens) (js "[") + 2)
       (Str.indexOf (imageEmbed imageName tokens) (js "]")))
    (js "|")
  = imageName :: tokens.
Proof.
  intros H. unfold imageEmbed.
  assert (Hbar : Forall (fun t => ~ In "|"%char t) (imageName :: tokens)).
  { apply Forall_forall. intros t Ht. rewrite forallb_forall in H.
    specialize (H t Ht). unfold plainToken in H.
    apply andb_true_iff in H. apply lacks_not_in. apply H. }
  assert (Hbr : lacks "]"%char (Str.join (js "|") (imageName :: tokens)) = true).
  { apply lacks_join; [reflexivity|].
    rewrite forallb_forall in *. intros t Ht. specialize (H t Ht).
    unfold plainToken in H. apply andb_true_iff in H. apply H. }
  rewrite embed_inner by (apply lacks_not_in; exact Hbr).
  exact (split_join "|"%char imageName tokens Hbar).
Qed.

(** One iteration on a bracket embed that resolves: the asset and the
    rewritten markup, labelled by the split rule. *)
Lemma convertTranscludedImage_resolved E filePath imageText assets
  imageName tokens linkedFile image :
  forallb plainToken (imageName :: tokens) = true ->
  getFirstLinkpathDest E (getLinkpath E imageName) filePath = Some linkedFile ->
  readBinary E linkedFile = Some image ->
  convertTranscludedImage E filePath (imageText, assets)
    (imageEmbed imageName tokens)
  = (Str.replace imageText (imageEmbed imageName tokens)
       (js "![" ++ imageLabel imageName tokens ++ js "](" ++
        encodeURI (js "/img/user/" ++ path linkedFile) ++ js ")"),
     assets ++
     [ {| assetPath := js "/img/user/" ++ path linkedFile;
          content := arrayBufferToBase64 E image |} ]).
Proof.
  intros Hp Hr Hb. unfold convertTranscludedImage.
  rewrite imageEmbed_parts by exact Hp. cbn [nth tl].
  rewrite Hr, Hb. reflexivity.
Qed.

(** C4: a bracket embed of an image with a size is rewritten to a markdown
    image labelled name|size that points to the URI-encoded path under
    /img/user/, and the base64 content is recorded as an asset. Without a
    size the code appends the last token to the metadata and then leaves the
    metadata out of the rewritten markup, and the markdown-image form writes
    the path without encoding it where the bracket form encodes it. *)
Theorem image_rewrite_cases :
  let E := Vault.plain Vault.pictures in
  convertImageLinks E (js "![[pic.png|200]]") (js "root.md")
  = (js "![pic.png|200](/img/user/assets/pic.png)",
     [ {| assetPath := js "/img/user/assets/pic.png";
          content := js "base64:PNG" |} ])
  /\ fst (convertImageLinks E (js "![[pic.png|a caption]]") (js "root.md"))
     = js "![pic.png](/img/user/assets/pic.png)"
  /\ fst (convertImageLinks E (js "![[photo.jpg]]") (js "root.md"))
     = js "![photo.jpg](/img/user/my%20assets/photo.jpg)"
  /\ fst (convertImageLinks E (js "![x](photo.jpg)") (js "root.md"))
     = js "![x](/img/user/my assets/photo.jpg)".
Proof.
  repeat split; vm_compute; reflexivity.
Qed.

(** ** Sections of a target *)

Section Sections.

Variable E : Env.

Lemma transcludeSection_block target id fileText metadata :
  ~ In "#"%char target -> ~ In "#"%char id ->
  transcludeSection E (target ++ js "#^" ++ id) fileText metadata
  = match transcludeBlock id fileText metadata with
    | Some fileText => Some (fileText, js "#" ++ slugify E id)
    | None => None
    end.
Proof.
  intros Ht Hi. unfold transcludeSection.
  change (js "#^") with ("#"%char :: ["^"%char]).
  rewrite includes_first by exact Ht.
  rewrite split_two by assumption. reflexivity.
Qed.

Lemma includes_header_only target header :
  ~ In "#"%char target -> ~ In "#"%char header ->
  Str.startsWith header (js "^") = false ->
  Str.includes (target ++ js "#" ++ header) (js "#^") = false.
Proof.
  intros Ht Hh Hs. unfold Str.includes.
  change (js "#^") with ("#"%char :: ["^"%char]).
  rewrite find_after by exact Ht.
  change (js "#" ++ header) with ("#"%char :: header).
  change (js "^") with ["^"%char] in Hs.
  assert (Hf : Str.find header ("#"%char :: ["^"%char]) = None)
    by (apply find_absent; exact Hh).
  destruct header as [|h0 hr]; [reflexivity|].
  cbn [Str.startsWith] in Hs.
  cbn [Str.find Str.startsWith]. rewrite Ascii.eqb_refl. cbn [andb].
  rewrite Hs. cbn [Str.find Str.startsWith] in Hf. rewrite Hf. reflexivity.
Qed.

Lemma transcludeSection_header target header fileText metadata :
  ~ In "#"%char target -> ~ In "#"%char header ->
  Str.startsWith header (js "^") = false ->
  transcludeSection E (target ++ js "#" ++ header) fileText metadata
  = Some (transcludeHeader header fileText metadata,
          js "#" ++ slugify E header).
Proof.
  intros Ht Hh Hs. unfold transcludeSection.
  rewrite includes_header_only by assumption.
  change (js "#") with ("#"%char :: []).
  rewrite includes_first by exact Ht.
  rewrite split_two by assumption. reflexivity.
Qed.

End Sections.







(** ** The drawing counter *)

Lemma ownCalls_app a b : ownCalls (a ++ b) = ownCalls a ++ ownCalls b.
Proof. apply flat_map_app. Qed.

Lemma wellNumbered_Inside file events :
  wellNumbered (Inside file events) <->
  numbered (ownCalls events) /\ Forall wellNumbered events.
Proof.
  cbn [wellNumbered].
  assert (H : forall l,
             (fix all (l : list Event) : Prop :=
                match l with
                | [] => True
                | x :: l' => wellNumbered x /\ all l'
                end) l <-> Forall wellNumbered l).
  { induction l as [|x l IH].
    - split; intros; [constructor | exact I].
    - split.
      + intros [Hx Hl]. constructor; [exact Hx | apply IH; exact Hl].
      + intros Hf. inversion Hf; subst. split; [assumption | apply IH; assumption]. }
  rewrite H. reflexivity.
Qed.

Lemma quiet_nil : quiet [].
Proof. split; [reflexivity | constructor]. Qed.

Lemma quiet_app a b : quiet a -> quiet b -> quiet (a ++ b).
Proof.
  intros [Ha1 Ha2] [Hb1 Hb2]. split.
  - rewrite ownCalls_app, Ha1, Hb1. reflexivity.
  - apply Forall_app. split; assumption.
Qed.

Lemma quiet_notice msg : quiet [Notice msg].
Proof. split; [reflexivity | repeat constructor]. Qed.

Lemma quiet_inside file events :
  numbered (ownCalls events) -> Forall wellNumbered events ->
  quiet [Inside file events].
Proof.
  intros Hn Hw. split; [reflexivity|].
  constructor; [|constructor]. apply wellNumbered_Inside. split; assumption.
Qed.

Lemma foldM_quiet {A S} (f : S -> A -> M S) (l : list A) (s : S) :
  (forall s a, quiet (snd (f s a))) -> quiet (snd (foldM f l s)).
Proof.
  intros H. revert s. induction l as [|a l IH]; intros s; simpl.
  - apply quiet_nil.
  - rewrite snd_bind. apply quiet_app; [apply H | apply IH].
Qed.

Lemma convertCustomFilters_quiet E file text :
  quiet (snd (convertCustomFilters E file text)).
Proof.
  unfold convertCustomFilters. apply foldM_quiet. intros s a.
  destruct (regExpReplace E (pattern a) (flags a) (replace a) s).
  - apply quiet_nil.
  - rewrite snd_bind. simpl. apply quiet_notice.
Qed.

Lemma counted_zero : counted 0 [].
Proof.
  split; [|constructor]. exists []. repeat split; constructor.
Qed.

Lemma counted_more n n' trace : n <= n' -> counted n trace -> counted n' trace.
Proof.
  intros Hle [(ns & H1 & H2 & H3) Hw]. split; [|exact Hw].
  exists ns. repeat split; try assumption.
  eapply Forall_impl; [|exact H3]. simpl. intros k Hk. lia.
Qed.

Lemma counted_quiet n trace more :
  counted n trace -> quiet more -> counted n (trace ++ more).
Proof.
  intros [(ns & H1 & H2 & H3) Hw] [Hq1 Hq2]. split.
  - exists ns. rewrite ownCalls_app, Hq1, app_nil_r. repeat split; assumption.
  - apply Forall_app. split; assumption.
Qed.

Lemma sorted_snoc ns n :
  StronglySorted lt ns -> Forall (fun k => k < n) ns ->
  StronglySorted lt (ns ++ [n]).
Proof.
  induction 1 as [|k ns Hs IH Hk]; intros Hn; simpl.
  - repeat constructor.
  - inversion Hn; subst. constructor; [apply IH; assumption|].
    apply Forall_app. split; [assumption | repeat constructor; assumption].
Qed.

Lemma counted_call n trace file :
  counted n trace ->
  counted (n + 1) (trace ++ [CompileDrawing (drawingOptions (n + 1)) file]).
Proof.
  intros [(ns & H1 & H2 & H3) Hw]. split.
  - exists (ns ++ [n + 1]). rewrite ownCalls_app, H1, map_app. repeat split.
    + apply sorted_snoc; [exact H2|].
      eapply Forall_impl; [|exact H3]. simpl. intros k Hk. lia.
    + apply Forall_app. split.
      * eapply Forall_impl; [|exact H3]. simpl. intros k Hk. lia.
      * repeat constructor; lia.
  - apply Forall_app. split; [exact Hw | repeat constructor].
Qed.

Section Counter.

Variable E : Env.
Variable deeper : TFile -> str -> M str.
Hypothesis deeper_numbered :
  forall file text,
    numbered (ownCalls (snd (deeper file text))) /\
    Forall wellNumbered (snd (deeper file text)).

Lemma transcludeMatch_counted file st transclusionMatch trace :
  counted (numberOfExcaliDraws st) trace ->
  counted
    (numberOfExcaliDraws (fst (transcludeMatch E deeper file st transclusionMatch)))
    (trace ++ snd (transcludeMatch E deeper file st transclusionMatch)).
Proof.
  intros Hc. unfold transcludeMatch.
  destruct (transclusionParts transclusionMatch) as [fileName headerName].
  destruct (getFirstLinkpathDest E (getLinkpath E fileName) (getPath file))
    as [linkedFile|]; [|simpl; rewrite app_nil_r; exact Hc].
  destruct (Str.endsWith (name linkedFile) (js ".excalidraw.md")).
  - destruct (cachedRead E linkedFile) as [fileText|].
    + rewrite fst_bind, snd_bind. cbn [tell fst snd].
      assert (Hcall := counted_call (numberOfExcaliDraws st) trace linkedFile Hc).
      destruct (compileMarkdown E _ linkedFile fileText);
        cbn [ret fst snd numberOfExcaliDraws]; rewrite app_nil_r; exact Hcall.
    + cbn [ret fst snd numberOfExcaliDraws]. rewrite app_nil_r.
      apply counted_more with (n := numberOfExcaliDraws st); [lia | exact Hc].
  - destruct (Str.eqb (extension linkedFile) (js "md"));
      [|simpl; rewrite app_nil_r; exact Hc].
    destruct (cachedRead E linkedFile) as [fileText|];
      [|simpl; rewrite app_nil_r; exact Hc].
    destruct (transcludeSection E fileName fileText (getFileCache E linkedFile))
      as [[sliced sectionID]|]; [|simpl; rewrite app_nil_r; exact Hc].
    rewrite !fst_bind, !snd_bind. cbn [ret fst snd numberOfExcaliDraws].
    rewrite app_nil_r. apply counted_quiet; [exact Hc|].
    apply quiet_app; [apply convertCustomFilters_quiet|].
    match goal with
    | |- quiet (snd (match ?l with [] => _ | _ :: _ => _ end)) => destruct l
    end.
    + apply quiet_nil.
    + cbn [inside snd].
      destruct (deeper_numbered linkedFile
                  (wrapTransclusion (embeddedLink E linkedFile
                       (getFileCache E linkedFile) sectionID)
                     match generateTransclusionHeader E headerName linkedFile with
                     | Some (c :: h) =>
                         js "$<div class=\x22markdown-embed-title\x22>\n\n" ++
                         (c :: h) ++ js "\n\n</div>\n"
                     | _ => []
                     end
                     (Pat.remove (BLOCKREF_REGEX E)
                        (fst (convertCustomFilters E linkedFile
                                (Pat.remove (FRONTMATTER_REGEX E) sliced))))))
        as [Hn Hw].
      apply quiet_inside; assumption.
Qed.

Lemma transclusion_loop_counted file l st trace :
  counted (numberOfExcaliDraws st) trace ->
  counted
    (numberOfExcaliDraws (fst (foldM (transcludeMatch E deeper file) l st)))
    (trace ++ snd (foldM (transcludeMatch E deeper file) l st)).
Proof.
  revert st trace. induction l as [|m l IH]; intros st trace Hc; simpl.
  - rewrite app_nil_r. exact Hc.
  - rewrite fst_bind, snd_bind, app_assoc. apply IH.
    apply transcludeMatch_counted. exact Hc.
Qed.

End Counter.

Lemma counted_numbered n trace :
  counted n trace -> numbered (ownCalls trace) /\ Forall wellNumbered trace.
Proof.
  intros [(ns & H1 & H2 & H3) Hw]. split; [|exact Hw].
  exists ns. repeat split; try assumption.
  eapply Forall_impl; [|exact H3]. simpl. intros k Hk. lia.
Qed.

Lemma transcludeWithin_numbered E fuel :
  forall file text,
    numbered (ownCalls (snd (transcludeWithin E fuel file text))) /\
    Forall wellNumbered (snd (transcludeWithin E fuel file text)).
Proof.
  induction fuel as [|fuel IH]; intros file text.
  - exact (counted_numbered 0 [] counted_zero).
  - cbn [transcludeWithin]. rewrite snd_bind. cbn [ret snd]. rewrite app_nil_r.
    eapply counted_numbered.
    apply (transclusion_loop_counted E (transcludeWithin E fuel) IH file _ _ []).
    apply counted_zero.
Qed.

Lemma numToString_inj n m : numToString n = numToString m -> n = m.
Proof.
  unfold numToString. intros H.
  apply (f_equal string_of_list_ascii) in H.
  rewrite !string_of_list_ascii_of_string in H.
  apply (f_equal NilEmpty.uint_of_string) in H.
  rewrite !NilEmpty.usu in H. inversion H as [H'].
  apply (f_equal Nat.of_uint) in H'.
  rewrite !DecimalNat.Unsigned.of_to in H'. exact H'.
Qed.

Lemma sorted_NoDup ns : StronglySorted lt ns -> NoDup ns.
Proof.
  induction 1 as [|k ns Hs IH Hk]; constructor; [|exact IH].
  intros Hin. rewrite Forall_forall in Hk. specialize (Hk k Hin). lia.
Qed.

Lemma numbered_distinct calls :
  numbered calls ->
  scriptOnlyFirst calls /\ NoDup (map idAppendage calls).
Proof.
  intros (ns & -> & Hs & Hp). split.
  - destruct ns as [|k ns]; simpl; [exact I|].
    inversion Hs as [|? ? Hs' Hk]; subst. inversion Hp as [|? ? Hk1 Hp']; subst.
    apply Forall_map. rewrite Forall_forall in *. intros n Hn.
    specialize (Hk n Hn). simpl. apply Nat.eqb_neq. lia.
  - rewrite map_map. simpl.
    apply Injective_map_NoDup; [|apply sorted_NoDup; exact Hs].
    intros n m H. inversion H as [H']. apply numToString_inj. exact H'.
Qed.

(** One counter for the whole compile would give the support script to the
    first call alone and a different suffix to every call. *)
Lemma drawing_counter_restarts :
  ~ (forall E file,
        let calls := drawingCalls (snd (generateMarkdown E file)) in
        supportScriptOnce calls /\ NoDup (map idAppendage calls)).
Proof.
  intros H. specialize (H (Vault.plain Vault.drawings) Vault.root).
  assert (Hc : drawingCalls (snd (generateMarkdown (Vault.plain Vault.drawings)
                                    Vault.root))
               = [drawingOptions 1; drawingOptions 1])
    by (vm_compute; reflexivity).
  cbv zeta in H. rewrite Hc in H. destruct H as [[_ Hf] _].
  inversion Hf as [|? ? Hjs _]. discriminate Hjs.
Qed.

(** C7, as the code has it: the counter belongs to one invocation of the
    resolver. The calls an invocation makes itself carry growing counter
    values from 1 up, so their suffixes differ and no call after the first
    includes the support script (counter value 1 includes it); this holds
    for every recursive invocation recorded in the trace as well. A
    recursive invocation starts from 0 again: a drawing embedded in the root
    and one embedded in a transcluded note both get the suffix 1 and the
    script. *)
Theorem drawing_counter_per_invocation :
  (forall E d file text,
      let trace := snd (createTranscludedText E d file text) in
      numbered (ownCalls trace) /\
      scriptOnlyFirst (ownCalls trace) /\
      NoDup (map idAppendage (ownCalls trace)) /\
      Forall wellNumbered trace) /\
  drawingCalls (snd (generateMarkdown (Vault.plain Vault.drawings) Vault.root))
  = [drawingOptions 1; drawingOptions 1].
Proof.
  split.
  - intros E d file text trace. subst trace. unfold createTranscludedText.
    destruct (transcludeWithin_numbered E (4 - d) file text) as [Hn Hw].
    destruct (numbered_distinct _ Hn) as [Hs Hd].
    repeat split; assumption.
  - vm_compute. reflexivity.
Qed.

(** ** Comments *)

Lemma comment_run s :
  run obsidianCommentsRegex s [] accept
  = if Str.startsWith s (js "%%") then
      match skipn 2 s with
      | _ :: s2 =>
          match Str.find s2 (js "%%") with
          | Some i => Some (skipn (i + 2) s2, [])
          | None => None
          end
      | [] => None
      end
    else None.
Proof.
  unfold obsidianCommentsRegex, Plus. cbn [run]. rewrite run_Lit.
  destruct (Str.startsWith s (js "%%")); [|reflexivity].
  change (length (js "%%")) with 2.
  destruct (skipn 2 s) as [|x s2]; [reflexivity|].
  cbn [isAny]. rewrite star_lazy_any by lia.
  rewrite (firstSuffix_ext _
             (fun s' c' =>
                if Str.startsWith s' (js "%%")
                then Some (skipn (length (js "%%")) s', c') else None)).
  - rewrite firstSuffix_find. reflexivity.
  - intros s' c'. rewrite run_Lit. reflexivity.
Qed.

(** A match of the comment pattern: two percent signs, at least one code
    unit, and the first two percent signs behind that. *)
Lemma comment_match s m c :
  matchAt obsidianCommentsRegex s = Some (m, c) ->
  exists x y rest,
    s = m ++ rest /\ m = js "%%" ++ x :: y ++ js "%%".
Proof.
  unfold matchAt. fold accept. rewrite comment_run.
  destruct (Str.startsWith s (js "%%")) eqn:Hs; [|discriminate].
  apply startsWith_split in Hs. change (length (js "%%")) with 2 in Hs.
  destruct (skipn 2 s) as [|x s2]; [discriminate|].
  destruct (Str.find s2 (js "%%")) as [i|] eqn:Hf; [|discriminate].
  apply find_split in Hf. change (length (js "%%")) with 2 in Hf.
  assert (Hd : s = (js "%%" ++ x :: firstn i s2 ++ js "%%") ++ skipn (i + 2) s2).
  { rewrite Hs at 1. rewrite Hf at 1. rewrite <- !app_assoc. simpl.
    rewrite <- !app_assoc. reflexivity. }
  remember (skipn (i + 2) s2) as rest eqn:Hrest.
  remember (firstn i s2) as y eqn:Hy.
  clear Hs Hf Hrest Hy. subst s. rewrite firstn_app_length.
  intros H. inversion H; subst m c. clear H.
  exists x, y, rest. split; reflexivity.
Qed.

Lemma comment_neverEmpty : neverEmpty obsidianCommentsRegex.
Proof.
  intros t c H. destruct (comment_match _ _ _ H) as (x & y & rest & _ & Hm).
  discriminate Hm.
Qed.

Lemma comment_starts s :
  matchAt obsidianCommentsRegex s <> None -> Str.startsWith s (js "%%") = true.
Proof.
  unfold matchAt. fold accept. rewrite comment_run.
  destruct (Str.startsWith s (js "%%")); [reflexivity|]. intros H. exact (False_ind _ (H eq_refl)).
Qed.

(** An opening with a closing somewhere behind it is a match. *)
Lemma comment_found x s2 :
  Str.find s2 (js "%%") <> None ->
  matchAt obsidianCommentsRegex (js "%%" ++ x :: s2) <> None.
Proof.
  intros Hf. unfold matchAt. fold accept. rewrite comment_run.
  simpl. destruct (Str.find s2 (js "%%")); [discriminate | exact (False_ind _ (Hf eq_refl))].
Qed.

Section Comments.

#[local] Arguments Ascii.eqb : simpl never.

Lemma startsWith_percents t :
  Str.startsWith t (js "%%")
  = match t with
    | a :: b :: _ => Ascii.eqb "%" a && Ascii.eqb "%" b
    | _ => false
    end.
Proof.
  change (js "%%") with ["%"%char; "%"%char].
  destruct t as [|a [|b t]]; cbn [Str.startsWith];
    rewrite ?andb_true_r, ?andb_false_r; reflexivity.
Qed.

Lemma sealed_nil : sealed [].
Proof. reflexivity. Qed.

Lemma sealed_tail x p : sealed (x :: p) -> sealed p.
Proof. unfold sealed. simpl app. apply find_tail. Qed.

Lemma sealed_first x p :
  sealed (x :: p) ->
  Ascii.eqb "%" x && Ascii.eqb "%" (hd "%"%char p) = false.
Proof.
  unfold sealed. simpl app. intros H. apply find_head in H.
  rewrite startsWith_percents in H. destruct p; exact H.
Qed.

Lemma sealed_app a b : sealed a -> sealed b -> sealed (a ++ b).
Proof.
  intros Ha Hb. induction a as [|x a IH]; [exact Hb|].
  specialize (IH (sealed_tail _ _ Ha)). apply sealed_first in Ha.
  unfold sealed in *. simpl app in *. cbn [Str.find]. rewrite IH.
  rewrite startsWith_percents.
  destruct a as [|y a]; cbn [hd app] in *.
  - rewrite Ascii.eqb_refl, andb_true_r in Ha. rewrite Ha.
    destruct (b ++ js "%"); reflexivity.
  - rewrite Ha. reflexivity.
Qed.

Lemma find_sealed a m rest :
  sealed a ->
  Str.find (a ++ (js "%%" ++ m) ++ rest) (js "%%" ++ m) = Some (length a).
Proof.
  intros Ha. induction a as [|x a IH].
  - exact (find_at_start (js "%%" ++ m) rest).
  - specialize (IH (sealed_tail _ _ Ha)). apply sealed_first in Ha.
    rewrite <- app_comm_cons. cbn [Str.find length]. rewrite IH.
    rewrite startsWith_longer; [reflexivity|].
    rewrite startsWith_percents.
    destruct a as [|y a]; cbn [hd app] in *; [|exact Ha].
    rewrite Ascii.eqb_refl, andb_true_r in Ha. rewrite Ha. reflexivity.
Qed.

Lemma replace_sealed a m rest :
  sealed a ->
  Str.replace (a ++ (js "%%" ++ m) ++ rest) (js "%%" ++ m) [] = a ++ rest.
Proof.
  intros Ha. unfold Str.replace. rewrite find_sealed by exact Ha.
  rewrite firstn_app, firstn_all, Nat.sub_diag. simpl firstn. rewrite app_nil_r.
  cbn [Str.expand app]. f_equal.
  rewrite skipn_app.
  replace (length a + length (js "%%" ++ m) - length a)
    with (length (js "%%" ++ m)) by lia.
  rewrite (skipn_all2 a) by lia. cbn [app].
  rewrite skipn_app, skipn_all, Nat.sub_diag. reflexivity.
Qed.

(** The gap in front of the first comment is sealed. *)
Lemma gap_sealed g x y rest :
  (forall j, j < length g ->
     matchAt obsidianCommentsRegex
       (skipn j (g ++ js "%%" ++ x :: y ++ js "%%" ++ rest)) = None) ->
  sealed g.
Proof.
  induction g as [|c g IH]; intros Hg; [exact sealed_nil|].
  assert (Hs : sealed g).
  { apply IH. intros j Hj. apply (Hg (S j)). simpl. lia. }
  unfold sealed in *. rewrite <- app_comm_cons. cbn [Str.find]. rewrite Hs.
  destruct (Str.startsWith (c :: g ++ js "%") (js "%%")) eqn:Hc; [|reflexivity].
  exfalso. specialize (Hg 0 (Nat.lt_0_succ _)). cbn [skipn] in Hg.
  revert Hg. rewrite startsWith_percents in Hc.
  destruct g as [|d g]; cbn [app] in Hc; apply andb_true_iff in Hc;
    destruct Hc as [E1 E2]; apply Ascii.eqb_eq in E1, E2; subst.
  - change (matchAt obsidianCommentsRegex
              (js "%%" ++ "%"%char :: (x :: y) ++ js "%%" ++ rest) <> None).
    apply comment_found. apply find_occurs.
  - destruct g as [|e g].
    + change (matchAt obsidianCommentsRegex
                (js "%%" ++ "%"%char :: ("%"%char :: x :: y) ++ js "%%" ++ rest)
              <> None).
      apply comment_found. apply find_occurs.
    + change (matchAt obsidianCommentsRegex
                (js "%%" ++ e :: g ++ js "%%" ++ (x :: y ++ js "%%" ++ rest))
              <> None).
      apply comment_found. apply find_occurs.
Qed.

Lemma sealed_noMatch p s :
  sealed p -> noMatch obsidianCommentsRegex s ->
  noMatch obsidianCommentsRegex (p ++ s).
Proof.
  intros Hp Hs. induction p as [|x p IH]; [exact Hs|].
  simpl app. apply noMatch_cons; [|apply IH; eapply sealed_tail; exact Hp].
  destruct (matchAt obsidianCommentsRegex (x :: p ++ s)) eqn:Hm; [|reflexivity].
  exfalso.
  assert (Hst : Str.startsWith (x :: p ++ s) (js "%%") = true).
  { apply comment_starts. rewrite Hm. discriminate. }
  apply sealed_first in Hp. rewrite startsWith_percents in Hst.
  destruct p as [|y p]; cbn [hd app] in *.
  - rewrite Ascii.eqb_refl, andb_true_r in Hp.
    rewrite Hp in Hst. destruct s; discriminate Hst.
  - rewrite Hst in Hp. discriminate Hp.
Qed.

(** Replacing the comments one after the other, first occurrence each time,
    deletes them where they are, and leaves no comment. *)
Lemma strip_all n : forall s p,
  length s <= n -> sealed p ->
  fold_left (fun t m => Str.replace t m []) (matches obsidianCommentsRegex s)
    (p ++ s)
  = p ++ replaceAll obsidianCommentsRegex deleted s /\
  noMatch obsidianCommentsRegex
    (p ++ replaceAll obsidianCommentsRegex deleted s).
Proof.
  induction n as [|n IH]; intros s p Hl Hp.
  - destruct s; [|simpl in Hl; lia].
    assert (Hn : noMatch obsidianCommentsRegex []).
    { intros j. destruct j; reflexivity. }
    split; [reflexivity|]. apply sealed_noMatch; assumption.
  - destruct (scan_cases obsidianCommentsRegex deleted s comment_neverEmpty)
      as [Hn|(g & m & c & rest & Hs & Hg & Hm & Hsc & Hrw)].
    + unfold replaceAll. rewrite noMatch_replaceWith by exact Hn.
      rewrite (proj2 (matches_noMatch _ _) Hn). split; [reflexivity|].
      apply sealed_noMatch; assumption.
    + destruct (comment_match _ _ _ Hm) as (x & y & rest' & _ & Hmm).
      subst m s.
      assert (Heq : g ++ (js "%%" ++ x :: y ++ js "%%") ++ rest
                    = g ++ js "%%" ++ x :: y ++ js "%%" ++ rest).
      { rewrite <- !app_assoc, <- app_comm_cons, <- app_assoc. reflexivity. }
      assert (Hgs : sealed g).
      { apply (gap_sealed g x y rest). rewrite <- Heq. exact Hg. }
      assert (Hpg : sealed (p ++ g)) by (apply sealed_app; assumption).
      rewrite (matches_cons _ _ _ _ _ Hsc). cbn [fold_left].
      unfold replaceAll at 1 2. rewrite Hrw. unfold deleted at 1 3. cbn [app].
      replace (p ++ g ++ (js "%%" ++ x :: y ++ js "%%") ++ rest)
        with ((p ++ g) ++ (js "%%" ++ x :: y ++ js "%%") ++ rest)
        by (rewrite <- app_assoc; reflexivity).
      rewrite replace_sealed by exact Hpg.
      rewrite !(app_assoc p g).
      apply IH; [|exact Hpg].
      rewrite !length_app in Hl. simpl in Hl. lia.
Qed.

End Comments.

(** The loop of [removeObsidianComments] in terms of [keptComment]. *)
Lemma removeObsidianComments_fold E file text :
  removeObsidianComments E file text
  = fold_left
      (fun t commentMatch =>
         if keptComment E text commentMatch then t
         else Str.replace t commentMatch [])
      (matches obsidianCommentsRegex text) text.
Proof.
  unfold removeObsidianComments, keptComment.
  apply fold_left_ext_in. intros m _ t.
  destruct (containedIn (Pat.matches (CODEBLOCK_REGEX E) text) m);
    destruct (containedIn (Pat.matches (CODE_FENCE_REGEX E) text) m);
    destruct (containedIn (Pat.matches (EXCALIDRAW_REGEX E) text) m);
    reflexivity.
Qed.

Lemma comments_all_kept E file text :
  (forall m, In m (matches obsidianCommentsRegex text) ->
     keptComment E text m = true) ->
  removeObsidianComments E file text = text.
Proof.
  intros H. rewrite removeObsidianComments_fold.
  apply fold_left_unchanged. intros m Hm. rewrite (H m Hm). reflexivity.
Qed.

Lemma comments_none_kept E file text :
  (forall m, In m (matches obsidianCommentsRegex text) ->
     keptComment E text m = false) ->
  removeObsidianComments E file text
  = replaceAll obsidianCommentsRegex deleted text /\
  matches obsidianCommentsRegex (removeObsidianComments E file text) = [].
Proof.
  intros H.
  assert (Hf : removeObsidianComments E file text
               = fold_left (fun t m => Str.replace t m [])
                   (matches obsidianCommentsRegex text) text).
  { rewrite removeObsidianComments_fold. apply fold_left_ext_in.
    intros m Hm t. rewrite (H m Hm). reflexivity. }
  destruct (strip_all (length text) text [] (le_n _) sealed_nil) as [Hs Hn].
  cbn [app] in Hs, Hn. rewrite Hf, Hs. split; [reflexivity|].
  apply matches_noMatch. exact Hn.
Qed.

Lemma comments_gone_fixed E file text :
  matches obsidianCommentsRegex text = [] ->
  removeObsidianComments E file text = text.
Proof.
  intros H. unfold removeObsidianComments. rewrite H. reflexivity.
Qed.

(** C8: the pass does not do what the specification asks, and what the
    comment in its own loop says, for a comment whose text also stands in
    code.  In [%%x%% `%%x%%`] the first comment lies outside every region
    and the second inside an inline code span: the specification removes the
    first and keeps the second, the pass keeps both, because it asks whether
    the text of a region contains the text of the comment, not whether the
    comment lies in the region.  With another text in the code span the
    comment outside is removed. *)
Theorem comment_kept_outside_code :
  removeObsidianComments
    (Vault.env [] None (Pattern.ofRegex Pattern.inlineCodeSpan)) Vault.root
    (js "%%x%% `%%x%%`")
  = js "%%x%% `%%x%%`" /\
  commentsStripped
    (Vault.env [] None (Pattern.ofRegex Pattern.inlineCodeSpan))
    (js "%%x%% `%%x%%`")
  = js " `%%x%%`" /\
  removeObsidianComments
    (Vault.env [] None (Pattern.ofRegex Pattern.inlineCodeSpan)) Vault.root
    (js "%%x%% `%%y%%`")
  = js " `%%y%%`".
Proof. repeat split; vm_compute; reflexivity. Qed.

(** ** Block identifiers *)

Lemma takeWhile_dropWhile p t : takeWhile p t ++ dropWhile p t = t.
Proof.
  induction t as [|x t IH]; simpl; [reflexivity|].
  destruct (p x); simpl; [rewrite IH|]; reflexivity.
Qed.

Lemma takeWhile_all p t : forallb p (takeWhile p t) = true.
Proof.
  induction t as [|x t IH]; simpl; [reflexivity|].
  destruct (p x) eqn:Hx; simpl; [rewrite Hx; exact IH | reflexivity].
Qed.

Lemma block_run s :
  run block_pattern s [] accept
  = if Str.startsWith s (js " ^") then
      match skipn 2 s with
      | x :: t =>
          if isIdChar x
          then Some (dropWhile isIdChar t, [(1, x :: takeWhile isIdChar t)])
          else None
      | [] => None
      end
    else None.
Proof.
  unfold block_pattern, Plus. cbn [run]. rewrite run_Lit.
  destruct (Str.startsWith s (js " ^")); [|reflexivity].
  change (length (js " ^")) with 2.
  destruct (skipn 2 s) as [|x t]; [reflexivity|].
  destruct (isIdChar x); [|reflexivity].
  change (fun (s0 : str) (c : caps) (k : K) =>
            match s0 with
            | [] => None
            | x0 :: s' => if isIdChar x0 then k s' c else None
            end) with (run (Cls isIdChar)).
  rewrite star_greedy_total; [|discriminate|lia].
  unfold accept. do 3 f_equal.
  rewrite <- (takeWhile_dropWhile isIdChar t) at 1 3.
  f_equal.
  exact (firstn_app_length (x :: takeWhile isIdChar t) (dropWhile isIdChar t)).
Qed.

(** A match of the trailing form: a space, a caret and the identifier. *)
Lemma block_match s m c :
  matchAt block_pattern s = Some (m, c) ->
  exists x id rest,
    s = m ++ rest /\ m = js " ^" ++ x :: id /\
    group 1 c = x :: id /\ forallb isIdChar (x :: id) = true.
Proof.
  unfold matchAt. fold accept. rewrite block_run.
  destruct (Str.startsWith s (js " ^")) eqn:Hs; [|discriminate].
  apply startsWith_split in Hs. change (length (js " ^")) with 2 in Hs.
  destruct (skipn 2 s) as [|x t]; [discriminate|].
  destruct (isIdChar x) eqn:Hx; [|discriminate].
  assert (Hd : s = (js " ^" ++ x :: takeWhile isIdChar t) ++ dropWhile isIdChar t).
  { rewrite Hs at 1. rewrite <- (takeWhile_dropWhile isIdChar t) at 1.
    rewrite <- app_assoc. reflexivity. }
  remember (dropWhile isIdChar t) as rest eqn:Hrest.
  assert (Hall : forallb isIdChar (x :: takeWhile isIdChar t) = true)
    by (simpl; rewrite Hx; apply takeWhile_all).
  remember (takeWhile isIdChar t) as id eqn:Hid.
  clear Hs Hrest Hid. subst s. rewrite firstn_app_length.
  intros H. inversion H; subst m c. clear H.
  exists x, id, rest. repeat split; try reflexivity. exact Hall.
Qed.

Lemma block_neverEmpty : neverEmpty block_pattern.
Proof.
  intros t c H. destruct (block_match _ _ _ H) as (x & id & rest & _ & Hm & _).
  discriminate Hm.
Qed.

Lemma block_starts s :
  matchAt block_pattern s <> None ->
  exists x t, s = js " ^" ++ x :: t /\ isIdChar x = true.
Proof.
  unfold matchAt. fold accept. rewrite block_run.
  destruct (Str.startsWith s (js " ^")) eqn:Hs;
    [|intros H; exact (False_ind _ (H eq_refl))].
  apply startsWith_split in Hs. change (length (js " ^")) with 2 in Hs.
  destruct (skipn 2 s) as [|x t]; [intros H; exact (False_ind _ (H eq_refl))|].
  destruct (isIdChar x) eqn:Hx; [|intros H; exact (False_ind _ (H eq_refl))].
  intros _. exists x, t. split; assumption.
Qed.

Lemma block_found x t :
  isIdChar x = true -> matchAt block_pattern (js " ^" ++ x :: t) <> None.
Proof.
  intros Hx. unfold matchAt. fold accept. rewrite block_run.
  simpl. rewrite Hx. discriminate.
Qed.

Lemma calm_noMatch r out :
  calm r = true -> noMatch block_pattern out -> noMatch block_pattern (r ++ out).
Proof.
  intros Hr Ho. induction r as [|c r IH]; [exact Ho|].
  cbn [calm] in Hr. apply andb_true_iff in Hr. destruct Hr as [Hc Hr].
  simpl app. apply noMatch_cons; [|apply IH; exact Hr].
  destruct (matchAt block_pattern (c :: r ++ out)) eqn:Hm; [|reflexivity].
  exfalso.
  destruct (block_starts (c :: r ++ out)) as (x & t & Hs & _);
    [rewrite Hm; discriminate|].
  simpl in Hs. inversion Hs as [[Hsp Hrest]]. subst c.
  destruct r as [|d r]; [discriminate Hc|].
  simpl in Hrest. inversion Hrest; subst d. discriminate Hc.
Qed.

Lemma idChar_not_space c : isIdChar c = true -> Ascii.eqb c " "%char = false.
Proof.
  intros H. destruct (Ascii.eqb c " "%char) eqn:E; [|reflexivity].
  apply Ascii.eqb_eq in E. subst c. discriminate H.
Qed.

Lemma calm_id id t :
  forallb isIdChar id = true -> calm t = true -> calm (id ++ t) = true.
Proof.
  intros Hid Ht. induction id as [|c id IH]; [exact Ht|].
  simpl in Hid. apply andb_true_iff in Hid. destruct Hid as [Hc Hid].
  simpl app. cbn [calm]. rewrite (idChar_not_space c Hc). simpl.
  apply IH. exact Hid.
Qed.

Lemma calm_inlineAnchor m c id :
  group 1 c = id -> forallb isIdChar id = true -> calm (inlineAnchor m c) = true.
Proof.
  intros Hg Hid. unfold inlineAnchor. rewrite Hg.
  change (calm (id ++ js "}\n") = true).
  apply calm_id; [exact Hid | reflexivity].
Qed.

(** What the output of the rewrite starts with comes from the input. *)
Lemma block_empty : matchAt block_pattern [] = None.
Proof. reflexivity. Qed.

Lemma output_caret s u :
  replaceWith block_pattern inlineAnchor s 0 = "^"%char :: u ->
  exists s', s = "^"%char :: s' /\ replaceWith block_pattern inlineAnchor s' 0 = u.
Proof.
  destruct s as [|z s]; cbn [replaceWith].
  - rewrite block_empty. discriminate.
  - destruct (matchAt block_pattern (z :: s)) as [[m c]|].
    + unfold inlineAnchor. intros H. simpl in H. discriminate H.
    + intros H. inversion H; subst. exists s. split; reflexivity.
Qed.

Lemma output_idChar s y u :
  replaceWith block_pattern inlineAnchor s 0 = y :: u ->
  isIdChar y = true -> exists s', s = y :: s'.
Proof.
  intros H Hy. destruct s as [|z s]; cbn [replaceWith] in H.
  - rewrite block_empty in H. discriminate H.
  - destruct (matchAt block_pattern (z :: s)) as [[m c]|].
    + unfold inlineAnchor in H. simpl in H. inversion H; subst y.
      discriminate Hy.
    + inversion H; subst. exists s. reflexivity.
Qed.

(** The output of the rewrite of the trailing form holds no trailing
    anchor. *)
Lemma block_output_noMatch s : forall skip,
  noMatch block_pattern (replaceWith block_pattern inlineAnchor s skip).
Proof.
  induction s as [|x s IH]; intros skip.
  - assert (Hn : noMatch block_pattern []) by (intros [|j]; reflexivity).
    destruct skip; cbn [replaceWith]; [|exact Hn].
    rewrite block_empty. exact Hn.
  - destruct skip as [|k]; [|simpl; apply IH].
    cbn [replaceWith].
    destruct (matchAt block_pattern (x :: s)) as [[m c]|] eqn:Hm.
    + destruct (block_match _ _ _ Hm) as (y & id & rest & _ & Hmm & Hg & Hid).
      subst m. cbn [app].
      apply calm_noMatch; [|apply IH].
      eapply calm_inlineAnchor; eassumption.
    + apply noMatch_cons; [|apply IH].
      destruct (matchAt block_pattern
                  (x :: replaceWith block_pattern inlineAnchor s 0)) eqn:Ho;
        [|reflexivity].
      exfalso.
      destruct (block_starts (x :: replaceWith block_pattern inlineAnchor s 0))
        as (y & t & Hs & Hy); [rewrite Ho; discriminate|].
      simpl in Hs. inversion Hs as [[Hx Hout]]. subst x.
      destruct (output_caret _ _ Hout) as (s' & -> & Hout').
      destruct (output_idChar _ _ _ Hout' Hy) as (s'' & ->).
      apply (block_found y s'' Hy). exact Hm.
Qed.

Lemma createBlockIDs_fixed file text :
  matches complex_block_pattern text = [] ->
  noMatch block_pattern text ->
  createBlockIDs file text = text.
Proof.
  intros Hc Hb. unfold createBlockIDs, replaceAll.
  rewrite (noMatch_replaceWith complex_block_pattern);
    [|apply matches_noMatch; exact Hc].
  apply noMatch_replaceWith. exact Hb.
Qed.

Lemma createBlockIDs_output file text :
  noMatch block_pattern (createBlockIDs file text).
Proof.
  unfold createBlockIDs, replaceAll.
  exact (block_output_noMatch _ 0).
Qed.

(** C9: block-ID synthesis is not idempotent on two anchors that stand on
    lines of their own one after the other.  The match of the first takes
    the line break that the pattern needs in front of the second, so the
    first application rewrites [^a] and leaves [^b] as it is; the second
    application then rewrites [^b]. *)
Theorem adjacent_anchor_missed :
  createBlockIDs Vault.root (js "first\n^a\n^b\nlast")
  = js "first{ #a}\n\n^b\nlast" /\
  createBlockIDs Vault.root (js "first{ #a}\n\n^b\nlast")
  = js "first{ #a}\n{ #b}\n\nlast" /\
  createBlockIDs Vault.root
    (createBlockIDs Vault.root (js "first\n^a\n^b\nlast"))
  <> createBlockIDs Vault.root (js "first\n^a\n^b\nlast").
Proof.
  split; [vm_compute; reflexivity|]. split; [vm_compute; reflexivity|].
  vm_compute. discriminate.
Qed.

(** * Further properties *)

Ltac absent := apply lacks_not_in; vm_compute; reflexivity.
Ltac evaluated := vm_compute; reflexivity.

(** ** Texts in which a pattern finds nothing *)

Lemma run_none_matchAt r s : matchAt r s = None -> run r s [] accept = None.
Proof.
  unfold matchAt. fold accept.
  destruct (run r s [] accept) as [[rest c]|]; [discriminate | reflexivity].
Qed.

Lemma matchAt_run_none r s : run r s [] accept = None -> matchAt r s = None.
Proof. unfold matchAt. fold accept. intros ->. reflexivity. Qed.

Lemma startsWith_absent d p s :
  In d p -> ~ In d s -> Str.startsWith s p = false.
Proof.
  revert s. induction p as [|x p IH]; intros s Hp Hs; [destruct Hp|].
  destruct s as [|y s]; [reflexivity|]. cbn [Str.startsWith].
  destruct (Ascii.eqb x y) eqn:Hxy; [|reflexivity]. cbn [andb].
  apply Ascii.eqb_eq in Hxy. subst y.
  destruct Hp as [->|Hp].
  - exfalso. apply Hs. left. reflexivity.
  - apply IH; [exact Hp|]. intros H. apply Hs. right. exact H.
Qed.

Lemma not_in_skipn {A} (d : A) j s : ~ In d s -> ~ In d (skipn j s).
Proof.
  intros H Hin. apply H. rewrite <- (firstn_skipn j s).
  apply in_or_app. right. exact Hin.
Qed.

(** A pattern that begins with a literal finds nothing in a text that lacks
    a code unit of the literal. *)
Lemma noMatch_Lit p r d s :
  In d p -> ~ In d s -> noMatch (Seq (Lit p) r) s.
Proof.
  intros Hp Hs j. apply matchAt_run_none. cbn [run]. rewrite run_Lit.
  rewrite (startsWith_absent d) by (try assumption; apply not_in_skipn; exact Hs).
  reflexivity.
Qed.

Lemma noMatch_Chr d r s : ~ In d s -> noMatch (Seq (Chr d) r) s.
Proof.
  intros Hs j. apply matchAt_run_none. cbn [run].
  destruct (skipn j s) as [|x t] eqn:Hsk; [reflexivity|].
  destruct (Ascii.eqb x d) eqn:Hx; [|reflexivity].
  apply Ascii.eqb_eq in Hx. subst x. exfalso.
  apply (not_in_skipn d j s Hs). rewrite Hsk. left. reflexivity.
Qed.

Lemma noMatch_Alt r1 r2 s : noMatch r1 s -> noMatch r2 s -> noMatch (Alt r1 r2) s.
Proof.
  intros H1 H2 j. apply matchAt_run_none. cbn [run].
  rewrite (run_none_matchAt _ _ (H1 j)), (run_none_matchAt _ _ (H2 j)).
  reflexivity.
Qed.

Lemma transcludedImage_noMatch s :
  ~ In "["%char s -> noMatch transcludedImageRegex s.
Proof.
  intros H. unfold transcludedImageRegex.
  apply noMatch_Alt; apply (noMatch_Lit _ _ "["%char); try exact H;
    right; left; reflexivity.
Qed.

Lemma image_noMatch s : ~ In "["%char s -> noMatch imageRegex s.
Proof.
  intros H. unfold imageRegex.
  apply (noMatch_Lit _ _ "["%char); [right; left; reflexivity | exact H].
Qed.

(** ** Images *)

Section ImageAssets.

Variable E : Env.

Lemma fold_left_pair_snd {A S T} (f : S * T -> A -> S * T) (g : T -> A -> T)
  (l : list A) :
  (forall s t a, snd (f (s, t) a) = g t a) ->
  forall s t, snd (fold_left f l (s, t)) = fold_left g l t.
Proof.
  intros H. induction l as [|a l IH]; intros s t; simpl; [reflexivity|].
  specialize (H s t a). destruct (f (s, t) a) as [s' t']. simpl in H. subst t'.
  apply IH.
Qed.

Lemma convertTranscludedImage_snd filePath s t a :
  snd (convertTranscludedImage E filePath (s, t) a) = assetOfEmbed E filePath t a.
Proof.
  unfold assetOfEmbed, convertTranscludedImage.
  destruct (getFirstLinkpathDest E _ filePath) as [f|]; [|reflexivity].
  destruct (readBinary E f); reflexivity.
Qed.

Lemma convertMarkdownImage_snd filePath s t a :
  snd (convertMarkdownImage E filePath (s, t) a) = assetOfImage E filePath t a.
Proof.
  unfold assetOfImage, convertMarkdownImage.
  destruct (Str.startsWith _ (js "http")); [reflexivity|].
  destruct (decodeURI E _) as [d|]; [|reflexivity].
  destruct (getFirstLinkpathDest E d filePath) as [f|]; [|reflexivity].
  destruct (readBinary E f); reflexivity.
Qed.

Lemma convertImageLinks_assets text filePath :
  snd (convertImageLinks E text filePath)
  = fold_left (assetOfImage E filePath) (matches imageRegex text)
      (fold_left (assetOfEmbed E filePath) (matches transcludedImageRegex text) []).
Proof.
  unfold convertImageLinks. cbv zeta.
  destruct (fold_left (convertTranscludedImage E filePath)
              (matches transcludedImageRegex text) (text, [])) as [s t] eqn:H1.
  etransitivity;
    [apply (fold_left_pair_snd _ (assetOfImage E filePath));
     intros; apply convertMarkdownImage_snd|].
  f_equal.
  change t with (snd (s, t)). rewrite <- H1.
  apply (fold_left_pair_snd _ (assetOfEmbed E filePath)).
  intros; apply convertTranscludedImage_snd.
Qed.

Section Readable.

Variable file : TFile.

Hypothesis readable :
  forall link linkedFile,
    getFirstLinkpathDest E link (getPath file) = Some linkedFile ->
    readBinary E linkedFile <> None.

Lemma assetOfEmbed_paths assets paths m :
  map assetPath assets = map cmsImgPath paths ->
  map assetPath (assetOfEmbed E (getPath file) assets m)
  = map cmsImgPath (extractTranscludedImage E file paths m).
Proof.
  intros H. unfold assetOfEmbed, convertTranscludedImage, extractTranscludedImage.
  destruct (getFirstLinkpathDest E _ (getPath file)) as [f|] eqn:Hf; [|exact H].
  destruct (readBinary E f) as [b|] eqn:Hb;
    [|exfalso; exact (readable _ _ Hf Hb)].
  cbn [snd]. rewrite !map_app, H. reflexivity.
Qed.

Lemma assetOfImage_paths assets paths m :
  map assetPath assets = map cmsImgPath paths ->
  map assetPath (assetOfImage E (getPath file) assets m)
  = map cmsImgPath (extractMarkdownImage E file paths m).
Proof.
  intros H. unfold assetOfImage, convertMarkdownImage, extractMarkdownImage.
  destruct (Str.startsWith _ (js "http")); [exact H|].
  destruct (decodeURI E _) as [d|]; [|exact H].
  destruct (getFirstLinkpathDest E d (getPath file)) as [f|] eqn:Hf; [|exact H].
  destruct (readBinary E f) as [b|] eqn:Hb;
    [|exfalso; exact (readable _ _ Hf Hb)].
  cbn [snd]. rewrite !map_app, H. reflexivity.
Qed.

End Readable.

Lemma fold_paths (f : list Asset -> str -> list Asset)
  (g : list str -> str -> list str) (l : list str) :
  (forall assets paths m,
      map assetPath assets = map cmsImgPath paths ->
      map assetPath (f assets m) = map cmsImgPath (g paths m)) ->
  forall assets paths,
    map assetPath assets = map cmsImgPath paths ->
    map assetPath (fold_left f l assets) = map cmsImgPath (fold_left g l paths).
Proof.
  intros H. induction l as [|m l IH]; intros assets paths Hap; simpl;
    [exact Hap|].
  apply IH. apply H. exact Hap.
Qed.

Lemma fold_left_invariant {A S} (P : S -> Prop) (f : S -> A -> S) (l : list A) :
  (forall s a, In a l -> P s -> P (f s a)) ->
  forall s, P s -> P (fold_left f l s).
Proof.
  induction l as [|a l IH]; intros H s Hs; simpl; [exact Hs|].
  apply IH.
  - intros s' a' Hin. apply H. right. exact Hin.
  - apply H; [left; reflexivity | exact Hs].
Qed.

(** What one iteration adds to the assets. *)
Lemma assetOfEmbed_cases filePath assets m :
  assetOfEmbed E filePath assets m = assets \/
  exists linkedFile image,
    embedImageFile E filePath m = Some linkedFile /\
    readBinary E linkedFile = Some image /\
    assetOfEmbed E filePath assets m
    = assets ++ [ {| assetPath := js "/img/user/" ++ path linkedFile;
                     content := arrayBufferToBase64 E image |} ].
Proof.
  unfold assetOfEmbed, convertTranscludedImage, embedImageFile.
  destruct (getFirstLinkpathDest E _ filePath) as [f|] eqn:Hf;
    [|left; reflexivity].
  destruct (readBinary E f) as [b|] eqn:Hb; [|left; reflexivity].
  right. exists f, b. repeat split. exact Hb.
Qed.

Lemma assetOfImage_cases filePath assets m :
  assetOfImage E filePath assets m = assets \/
  exists linkedFile image,
    markdownImageFile E filePath m = Some linkedFile /\
    readBinary E linkedFile = Some image /\
    assetOfImage E filePath assets m
    = assets ++ [ {| assetPath := js "/img/user/" ++ path linkedFile;
                     content := arrayBufferToBase64 E image |} ].
Proof.
  unfold assetOfImage, convertMarkdownImage, markdownImageFile. cbv zeta.
  destruct (Str.startsWith _ (js "http")); [left; reflexivity|].
  destruct (decodeURI E _) as [d|]; [|left; reflexivity].
  destruct (getFirstLinkpathDest E d filePath) as [f|] eqn:Hf;
    [|left; reflexivity].
  destruct (readBinary E f) as [b|] eqn:Hb; [|left; reflexivity].
  right. exists f, b. repeat split. exact Hb.
Qed.

End ImageAssets.

(** X17: the paths [extractImageLinks] lists for a document are, in order,
    the files whose content [convertImageLinks] records as assets for the
    text of that document, when the files the image links resolve to can be
    read. *)
Theorem extracted_images_are_the_assets E file text :
  cachedRead E file = Some text ->
  (forall link linkedFile,
      getFirstLinkpathDest E link (getPath file) = Some linkedFile ->
      readBinary E linkedFile <> None) ->
  option_map (map cmsImgPath) (extractImageLinks E file)
  = Some (map assetPath (snd (convertImageLinks E text (getPath file)))).
Proof.
  intros Hr readable. unfold extractImageLinks. rewrite Hr. cbn [option_map].
  rewrite convertImageLinks_assets. f_equal. symmetry.
  apply fold_paths; [apply assetOfImage_paths; exact readable|].
  apply fold_paths; [apply assetOfEmbed_paths; exact readable | reflexivity].
Qed.

(** X18: every asset is the content of the file that one of the images of
    the text resolves to, in base64, placed under [/img/user/] and the path
    of the file; and there are no more assets than images. *)
Theorem assets_come_from_the_vault E text filePath :
  Forall (assetOfVault E text filePath)
    (snd (convertImageLinks E text filePath)) /\
  length (snd (convertImageLinks E text filePath))
  <= length (matches transcludedImageRegex text) +
     length (matches imageRegex text).
Proof.
  rewrite convertImageLinks_assets. split.
  - apply fold_left_invariant.
    + intros assets m Hin H.
      destruct (assetOfImage_cases E filePath assets m)
        as [->|(f & image & Hf & Hr & ->)]; [exact H|].
      apply Forall_app. split; [exact H|]. constructor; [|constructor].
      exists m, f, image. split; [right; split; assumption|].
      split; [exact Hr | reflexivity].
    + apply fold_left_invariant; [|constructor].
      intros assets m Hin H.
      destruct (assetOfEmbed_cases E filePath assets m)
        as [->|(f & image & Hf & Hr & ->)]; [exact H|].
      apply Forall_app. split; [exact H|]. constructor; [|constructor].
      exists m, f, image. split; [left; split; assumption|].
      split; [exact Hr | reflexivity].
  - assert (Hgrow : forall (g : list Asset -> str -> list Asset) l assets,
               (forall t m, length (g t m) <= S (length t)) ->
               length (fold_left g l assets) <= length assets + length l).
    { intros g l. induction l as [|m l IH]; intros assets Hg; simpl; [lia|].
      specialize (IH (g assets m) Hg). specialize (Hg assets m). lia. }
    etransitivity; [apply Hgrow|].
    + intros t m.
      destruct (assetOfImage_cases E filePath t m) as [->|(f & i & _ & _ & ->)];
        [lia | rewrite length_app; simpl; lia].
    + assert (H := Hgrow (assetOfEmbed E filePath)
                     (matches transcludedImageRegex text) []).
      simpl in H. apply Nat.add_le_mono_r. apply H.
      intros t m.
      destruct (assetOfEmbed_cases E filePath t m) as [->|(f & i & _ & _ & ->)];
        [lia | rewrite length_app; simpl; lia].
Qed.

(** ** Matches of a known shape *)

(** A lazy repetition stops at the first place where what follows matches. *)
Lemma star_lazy_first p k r a : forall fuel rest c,
  forallb p a = true ->
  (forall j, j < length a -> k (skipn j (a ++ rest)) c = None) ->
  k rest c = Some r ->
  length (a ++ rest) <= fuel ->
  star false (run (Cls p)) k fuel (a ++ rest) c = Some r.
Proof.
  induction a as [|x a IH]; intros fuel rest c Hp Hk Hr Hl.
  - simpl app. destruct fuel; cbn [star]; rewrite Hr; reflexivity.
  - simpl in Hp. apply andb_true_iff in Hp. destruct Hp as [Hx Hp].
    destruct fuel as [|fuel]; [simpl in Hl; lia|].
    simpl app. cbn [star run].
    assert (H0 : k (x :: a ++ rest) c = None) by (apply (Hk 0); simpl; lia).
    rewrite H0. cbn [orElse]. rewrite Hx.
    replace (length (a ++ rest) <? length (x :: a ++ rest)) with true
      by (symmetry; apply Nat.ltb_lt; simpl; lia).
    apply IH; try assumption.
    + intros j Hj. apply (Hk (S j)). simpl. lia.
    + simpl in Hl. lia.
Qed.

Lemma startsWith_head d p x s :
  x <> d -> Str.startsWith (x :: s) (d :: p) = false.
Proof.
  intros H. cbn [Str.startsWith].
  destruct (Ascii.eqb d x) eqn:Hd; [|reflexivity].
  apply Ascii.eqb_eq in Hd. congruence.
Qed.

Lemma skipn_inside {A} j (a : list A) rest :
  j < length a -> exists x t, skipn j (a ++ rest) = x :: t /\ In x a.
Proof.
  revert j. induction a as [|y a IH]; intros j Hj; [simpl in Hj; lia|].
  destruct j as [|j].
  - exists y, (a ++ rest). split; [reflexivity | left; reflexivity].
  - destruct (IH j) as (x & t & Hs & Hin); [simpl in Hj; lia|].
    exists x, t. split; [exact Hs | right; exact Hin].
Qed.

(** A captured lazy run [(.+?)] before a closing literal, as the last part
    of a pattern: the run ends before the first closing literal behind its
    first code unit. *)
Lemma lazy_group_run p d close x inner rest c :
  p x = true -> forallb p inner = true -> ~ In d inner ->
  run (Seq (Grp 1 (Plus false (Cls p))) (Lit (d :: close)))
    (x :: inner ++ (d :: close) ++ rest) c accept
  = Some (rest, (1, x :: inner) :: c).
Proof.
  intros Hx Hp Hd. unfold Plus. cbn [run]. rewrite Hx.
  apply star_lazy_first.
  - exact Hp.
  - intros j Hj. rewrite run_Lit.
    destruct (skipn_inside j inner ((d :: close) ++ rest) Hj) as (y & t & -> & Hy).
    rewrite startsWith_head; [reflexivity|]. intros ->. exact (Hd Hy).
  - rewrite run_Lit, startsWith_app.
    rewrite skipn_app, skipn_all, Nat.sub_diag. simpl skipn at 1.
    unfold accept. do 4 f_equal.
    change (x :: inner ++ (d :: close) ++ rest)
      with ((x :: inner) ++ (d :: close) ++ rest).
    apply firstn_app_length.
  - lia.
Qed.

(** A text with one match: a gap, the match and a rest without match. *)
Lemma scan_single r a m c b :
  (forall j, j < length a -> matchAt r (skipn j (a ++ m ++ b)) = None) ->
  matchAt r (m ++ b) = Some (m, c) -> m <> [] -> noMatch r b ->
  scan r (a ++ m ++ b) 0 = [(m, c)].
Proof.
  intros Ha Hm Hne Hb. induction a as [|x a IH].
  - destruct m as [|y m]; [contradiction|].
    simpl app in *. cbn [scan]. rewrite Hm. f_equal.
    replace (length (y :: m) - 1) with (length m) by (simpl; lia).
    rewrite scan_skip. apply noMatch_scan. exact Hb.
  - simpl app. cbn [scan].
    assert (H0 : matchAt r (x :: a ++ m ++ b) = None)
      by (apply (Ha 0); simpl; lia).
    rewrite H0. apply IH. intros j Hj. apply (Ha (S j)). simpl. lia.
Qed.

Lemma replaceWith_single r f a m c b :
  (forall j, j < length a -> matchAt r (skipn j (a ++ m ++ b)) = None) ->
  matchAt r (m ++ b) = Some (m, c) -> m <> [] -> noMatch r b ->
  replaceWith r f (a ++ m ++ b) 0 = a ++ f m c ++ b.
Proof.
  intros Ha Hm Hne Hb. induction a as [|x a IH].
  - destruct m as [|y m]; [contradiction|].
    simpl app in *. cbn [replaceWith]. rewrite Hm. f_equal.
    rewrite replaceWith_skip. apply noMatch_replaceWith. exact Hb.
  - simpl app. cbn [replaceWith].
    assert (H0 : matchAt r (x :: a ++ m ++ b) = None)
      by (apply (Ha 0); simpl; lia).
    rewrite H0. f_equal. apply IH. intros j Hj. apply (Ha (S j)). simpl. lia.
Qed.

Lemma matches_single r a m c b :
  (forall j, j < length a -> matchAt r (skipn j (a ++ m ++ b)) = None) ->
  matchAt r (m ++ b) = Some (m, c) -> m <> [] -> noMatch r b ->
  matches r (a ++ m ++ b) = [m].
Proof.
  intros. unfold matches, matchAll. rewrite (scan_single r a m c b) by assumption.
  reflexivity.
Qed.

(** No match of a pattern that begins with a literal starts in a gap that
    lacks the first code unit of the literal. *)
Lemma gap_first o p r a s :
  ~ In o a ->
  forall j, j < length a ->
    matchAt (Seq (Lit (o :: p)) r) (skipn j (a ++ s)) = None.
Proof.
  intros Ho j Hj. apply matchAt_run_none. cbn [run]. rewrite run_Lit.
  destruct (skipn_inside j a s Hj) as (y & t & -> & Hy).
  rewrite startsWith_head; [reflexivity|]. intros ->. exact (Ho Hy).
Qed.

Lemma startsWith_second o d p y z s :
  z <> d -> Str.startsWith (y :: z :: s) (o :: d :: p) = false.
Proof.
  intros Hz. cbn [Str.startsWith].
  rewrite (proj2 (Ascii.eqb_neq d z)) by congruence.
  cbn [andb]. apply andb_false_r.
Qed.

(** The same for a gap that lacks the second code unit, before a text that
    does not begin with it. *)
Lemma gap_second o d p r a z s :
  ~ In d a -> z <> d ->
  forall j, j < length a ->
    matchAt (Seq (Lit (o :: d :: p)) r) (skipn j (a ++ z :: s)) = None.
Proof.
  intros Hd Hz. induction a as [|y a IH]; intros j Hj; [simpl in Hj; lia|].
  destruct j as [|j].
  - apply matchAt_run_none. cbn [run]. rewrite run_Lit.
    simpl skipn. simpl app.
    destruct a as [|y' a]; simpl app.
    + rewrite startsWith_second by exact Hz. reflexivity.
    + rewrite startsWith_second; [reflexivity|].
      intros ->. apply Hd. right. left. reflexivity.
  - simpl. apply IH; [|simpl in Hj; lia].
    intros H. apply Hd. right. exact H.
Qed.

Lemma expand_plain repl matched before after :
  ~ In "$"%char repl -> Str.expand repl matched before after = repl.
Proof.
  induction repl as [|c repl IH]; intros H; [reflexivity|].
  assert (Hc : c <> "$"%char) by (intros ->; apply H; left; reflexivity).
  assert (Hr : ~ In "$"%char repl) by (intros Hin; apply H; right; exact Hin).
  cbn [Str.expand].
  destruct (Ascii.eqb c "$"%char) eqn:He;
    [apply Ascii.eqb_eq in He; contradiction|].
  rewrite (IH Hr).
  destruct c as [[] [] [] [] [] [] [] []]; try reflexivity.
  discriminate He.
Qed.

Lemma replace_first_expand d p a b repl :
  ~ In d a ->
  Str.replace (a ++ (d :: p) ++ b) (d :: p) repl
  = a ++ Str.expand repl (d :: p) a b ++ b.
Proof.
  intros Ha. unfold Str.replace. rewrite find_first by exact Ha.
  rewrite firstn_app, firstn_all, Nat.sub_diag. simpl firstn. rewrite app_nil_r.
  replace (length a + length (d :: p)) with (length (a ++ d :: p))
    by (rewrite length_app; reflexivity).
  rewrite (app_assoc a (d :: p) b), skipn_app, skipn_all, Nat.sub_diag.
  reflexivity.
Qed.

(** Replacing the first occurrence by a text without replacement patterns. *)
Lemma replace_first d p a b repl :
  ~ In d a -> ~ In "$"%char repl ->
  Str.replace (a ++ (d :: p) ++ b) (d :: p) repl = a ++ repl ++ b.
Proof.
  intros Ha Hr. unfold Str.replace. rewrite find_first by exact Ha.
  rewrite expand_plain by exact Hr.
  rewrite firstn_app, firstn_all, Nat.sub_diag. simpl firstn. rewrite app_nil_r.
  replace (length a + length (d :: p)) with (length (a ++ d :: p))
    by (rewrite length_app; reflexivity).
  rewrite (app_assoc a (d :: p) b), skipn_app, skipn_all, Nat.sub_diag.
  reflexivity.
Qed.

(** ** Queries *)

Lemma blockQuery_noMatch keyword s :
  ~ In "`"%char s -> noMatch (blockQueryRegex keyword) s.
Proof.
  intros H. unfold blockQueryRegex.
  apply (noMatch_Lit _ _ "`"%char); [left; reflexivity | exact H].
Qed.

Lemma inlineQuery_noMatch prefix s :
  ~ In "`"%char s -> noMatch (inlineQueryRegex prefix) s.
Proof. intros H. unfold inlineQueryRegex. apply noMatch_Chr. exact H. Qed.

Lemma convertDataViews_no_backtick E file text :
  ~ In "`"%char text -> convertDataViews E file text = ret text.
Proof.
  intros H. unfold convertDataViews.
  destruct (getAPI E) as [dvApi|]; [|reflexivity].
  unfold dataViewRegex, matchAll.
  rewrite !(noMatch_scan (blockQueryRegex _)) by (apply blockQuery_noMatch; exact H).
  rewrite !(noMatch_scan (inlineQueryRegex _)) by (apply inlineQuery_noMatch; exact H).
  reflexivity.
Qed.

Section Settled.

Lemma settled_weaken (P Q : str * caps -> Prop) m :
  (forall q, P q -> Q q) -> settled P m -> settled Q m.
Proof.
  intros H [Hm|(q & msg & Hm & Hq)]; [left; exact Hm|].
  right. exists q, msg. split; [exact Hm | apply H; exact Hq].
Qed.

Lemma forQueries_settled P body queries :
  (forall replacedText q, In q queries -> settled P (body replacedText q)) ->
  forall replacedText, settled P (forQueries body queries replacedText).
Proof.
  induction queries as [|q queries IH]; intros H replacedText.
  - left. exists replacedText. reflexivity.
  - cbn [forQueries].
    destruct (H replacedText q (or_introl eq_refl))
      as [[t ->]|(q0 & msg & -> & Hq)].
    + fold (ret (Next t)). rewrite bind_ret_l. apply IH.
      intros t' q' Hin. apply H. right. exact Hin.
    + right. exists q0, msg. split; [reflexivity | exact Hq].
Qed.

Lemma andThen_settled P m k :
  settled P m -> (forall t, settled P (k t)) -> settled P (andThen m k).
Proof.
  intros [[t ->]|(q & msg & -> & Hq)] Hk.
  - unfold andThen. fold (ret (Next t)). rewrite bind_ret_l. apply Hk.
  - right. exists q, msg. split; [reflexivity | exact Hq].
Qed.

Lemma failed_settled (P : str * caps -> Prop) what q :
  P q -> settled P (failed what (fst q)).
Proof. intros Hq. right. eexists q, _. split; [reflexivity | exact Hq]. Qed.

Lemma next_settled P t : settled P (ret (Next t)).
Proof. left. exists t. reflexivity. Qed.

(** A loop in which no call throws goes on to the next. *)
Lemma forQueries_next body queries :
  (forall replacedText q, In q queries ->
     exists t, body replacedText q = ret (Next t)) ->
  forall replacedText,
    exists t, forQueries body queries replacedText = ret (Next t).
Proof.
  induction queries as [|q queries IH]; intros H replacedText.
  - exists replacedText. reflexivity.
  - cbn [forQueries]. destruct (H replacedText q (or_introl eq_refl)) as [t ->].
    rewrite bind_ret_l. apply IH. intros t' q' Hin. apply H. right. exact Hin.
Qed.

End Settled.

Lemma inline_notice_text :
  js "Unable to render " ++ js "inline dataview" ++
  js " query. Please update the dataview plugin to the latest version."
  = js "Unable to render inline dataview query. Please update the dataview plugin to the latest version.".
Proof. vm_compute. reflexivity. Qed.

(** X5: the pass over the queries shows at most one notice; when it shows
    one, its result is the text of one query alone: of a block query for
    which the call of the API throws, or of an inline query.  No inline query
    is ever evaluated: the argument of the call reads a variable [path] that
    is declared nowhere, so when no call for a block query throws, the first
    inline query of a document ends the pass with its own text and the
    notice. *)
Theorem dataview_notice E file text :
  (snd (convertDataViews E file text) = [] \/
   exists dvApi q msg,
     getAPI E = Some dvApi /\
     convertDataViews E file text = (fst q, [Notice msg]) /\
     queryFails dvApi (getPath file) text q) /\
  (forall dvApi q rest,
      getAPI E = Some dvApi ->
      (forall b, In b (matchAll dataViewRegex text) ->
         tryQueryMarkdown dvApi (group 1 (snd b)) (getPath file) <> None) ->
      (forall b, In b (matchAll (blockQueryRegex (dataviewJsKeyword dvApi)) text) ->
         executeJs dvApi (group 1 (snd b)) (getPath file) <> None) ->
      matchAll (inlineQueryRegex (inlineQueryPrefix dvApi)) text = q :: rest ->
      convertDataViews E file text
      = (fst q,
         [Notice (js "Unable to render inline dataview query. Please update the dataview plugin to the latest version.")])).
Proof.
  split.
  - unfold convertDataViews.
    destruct (getAPI E) as [dvApi|]; [|left; reflexivity]. cbv zeta.
    match goal with
    | |- context [bind ?m _] =>
        assert (H : settled (queryFails dvApi (getPath file) text) m)
    end.
    { apply andThen_settled;
        [apply forQueries_settled|intros t1; apply andThen_settled;
        [apply forQueries_settled|intros t2; apply andThen_settled;
        [apply forQueries_settled|intros t3; apply forQueries_settled]]];
        intros t q Hin.
      - destruct (tryQueryMarkdown dvApi _ _) eqn:Hq;
          [apply next_settled | apply failed_settled].
        left. split; assumption.
      - destruct (executeJs dvApi _ _) eqn:Hq;
          [apply next_settled | apply failed_settled].
        right. left. split; assumption.
      - apply failed_settled. right. right. left. exact Hin.
      - destruct (executeJs dvApi _ _) eqn:Hq;
          [apply next_settled | apply failed_settled].
        right. right. right. split; assumption. }
    destruct H as [[t ->]|(q & msg & -> & Hq)].
    + left. reflexivity.
    + right. exists dvApi, q, msg.
      split; [reflexivity|]. split; [reflexivity | exact Hq].
  - intros dvApi q rest Hapi Hblock Hjs Hinline.
    unfold convertDataViews. rewrite Hapi. cbv zeta. rewrite Hinline.
    match goal with
    | |- context [andThen (forQueries ?body ?l text) _] =>
        destruct (forQueries_next body l) with (replacedText := text) as [t1 H1]
    end.
    { intros t b Hin. specialize (Hblock b Hin).
      destruct (tryQueryMarkdown dvApi _ _); [eexists; reflexivity|].
      contradiction. }
    rewrite H1. unfold andThen at 1. rewrite bind_ret_l.
    match goal with
    | |- context [andThen (forQueries ?body ?l t1) _] =>
        destruct (forQueries_next body l) with (replacedText := t1) as [t2 H2]
    end.
    { intros t b Hin. specialize (Hjs b Hin).
      destruct (executeJs dvApi _ _); [eexists; reflexivity|].
      contradiction. }
    rewrite H2. unfold andThen at 1. rewrite bind_ret_l.
    cbn [forQueries]. unfold failed, andThen, tell, bind, ret.
    cbn beta iota. cbn [app]. rewrite inline_notice_text. reflexivity.
Qed.

Lemma forallb_isAny s : forallb isAny s = true.
Proof. induction s; [reflexivity | exact IHs]. Qed.

Lemma skipn_app_length {A} (a b : list A) : skipn (length a) (a ++ b) = b.
Proof. rewrite skipn_app, skipn_all, Nat.sub_diag. reflexivity. Qed.

Lemma run_Seq r1 r2 s c k :
  run (Seq r1 r2) s c k = run r1 s c (fun s' c' => run r2 s' c' k).
Proof. reflexivity. Qed.

Lemma run_Cls_cons p x s c k : p x = true -> run (Cls p) (x :: s) c k = k s c.
Proof. intros H. cbn [run]. rewrite H. reflexivity. Qed.

Lemma run_Lit_app p s c k : run (Lit p) (p ++ s) c k = k s c.
Proof. rewrite run_Lit, startsWith_app, skipn_app_length. reflexivity. Qed.

Lemma blockQuery_match keyword w x q rest :
  isSpace w = true -> ~ In "`"%char q ->
  matchAt (blockQueryRegex keyword) (queryBlock keyword w (x :: q) ++ rest)
  = Some (queryBlock keyword w (x :: q), [(1, x :: q)]).
Proof.
  intros Hw Hq. unfold matchAt. fold accept.
  assert (Hrun :
    run (blockQueryRegex keyword) (queryBlock keyword w (x :: q) ++ rest)
      [] accept
    = Some (rest, [(1, x :: q)])).
  { unfold queryBlock, blockQueryRegex.
    replace ((js "```" ++ keyword ++ w :: (x :: q) ++ js "```") ++ rest)
      with (js "```" ++ keyword ++ w :: x :: q ++ js "```" ++ rest)
      by (rewrite <- !app_assoc; simpl; rewrite <- ?app_assoc; reflexivity).
    rewrite run_Seq, run_Lit_app, run_Seq, run_Lit_app.
    rewrite run_Seq, run_Cls_cons by exact Hw.
    exact (lazy_group_run isAny "`"%char (js "``") x q rest [] eq_refl
             (forallb_isAny q) Hq). }
  rewrite Hrun. rewrite firstn_app_length. reflexivity.
Qed.

Lemma dataView_single a w x q b :
  isSpace w = true -> ~ In "`"%char a -> ~ In "`"%char q -> ~ In "`"%char b ->
  matchAll dataViewRegex (a ++ queryBlock (js "dataview") w (x :: q) ++ b)
  = [(queryBlock (js "dataview") w (x :: q), [(1, x :: q)])].
Proof.
  intros Hw Ha Hq Hb. unfold matchAll. apply scan_single.
  - exact (gap_first "`"%char (js "``") _ a _ Ha).
  - apply blockQuery_match; assumption.
  - discriminate.
  - apply blockQuery_noMatch. exact Hb.
Qed.

(** X6: a document whose only query is one block query that the API renders:
    the block is replaced by the rendering followed by the mark of a Dataview
    block, and no notice is shown.  The query handed to the API is the text
    between the white space behind the keyword and the closing fence.  The
    rendering comes in as the replacement of [String.replace], so its
    replacement patterns are expanded; a rendering without a dollar sign
    comes in as it is. *)
Theorem block_query_rendered E dvApi file a w x q b markdown :
  getAPI E = Some dvApi ->
  isSpace w = true ->
  ~ In "`"%char a -> ~ In "`"%char q -> ~ In "`"%char b ->
  matches (blockQueryRegex (dataviewJsKeyword dvApi))
    (a ++ queryBlock (js "dataview") w (x :: q) ++ b) = [] ->
  matches (inlineQueryRegex (inlineQueryPrefix dvApi))
    (a ++ queryBlock (js "dataview") w (x :: q) ++ b) = [] ->
  matches (inlineQueryRegex (inlineJsQueryPrefix dvApi))
    (a ++ queryBlock (js "dataview") w (x :: q) ++ b) = [] ->
  tryQueryMarkdown dvApi (x :: q) (getPath file) = Some markdown ->
  convertDataViews E file (a ++ queryBlock (js "dataview") w (x :: q) ++ b)
  = ret (a ++
         Str.expand (markdown ++ js "\n{ .block-language-dataview}")
           (queryBlock (js "dataview") w (x :: q)) a b ++
         b) /\
  (~ In "$"%char markdown ->
   convertDataViews E file (a ++ queryBlock (js "dataview") w (x :: q) ++ b)
   = ret (a ++ markdown ++ js "\n{ .block-language-dataview}" ++ b)).
Proof.
  intros Hapi Hw Ha Hq Hb Hjs Hin Hinjs Hmd.
  assert (Hrun :
    convertDataViews E file (a ++ queryBlock (js "dataview") w (x :: q) ++ b)
    = ret (a ++
           Str.expand (markdown ++ js "\n{ .block-language-dataview}")
             (queryBlock (js "dataview") w (x :: q)) a b ++
           b)).
  { unfold convertDataViews. rewrite Hapi. cbv zeta.
    rewrite dataView_single by assumption.
    apply matches_noMatch, noMatch_scan in Hjs, Hin, Hinjs.
    unfold matchAll. rewrite Hjs, Hin, Hinjs.
    cbn [forQueries fst snd group Nat.eqb]. rewrite Hmd.
    unfold andThen, bind, ret. cbn beta iota. cbn [app]. f_equal.
    unfold queryBlock.
    change (js "```" ++ js "dataview" ++ w :: (x :: q) ++ js "```")
      with ("`"%char :: js "``" ++ js "dataview" ++ w :: (x :: q) ++ js "```").
    apply replace_first_expand. exact Ha. }
  split; [exact Hrun|].
  intros Hd. rewrite Hrun. rewrite expand_plain; [rewrite <- app_assoc; reflexivity|].
  apply not_in_app; [exact Hd | absent].
Qed.

Lemma plainWord_spec s :
  plainWord s = true -> plainText s = true /\ forallb isDot s = true.
Proof.
  unfold plainWord. rewrite !andb_true_iff. intros [H1 H2].
  split; assumption.
Qed.

Lemma rfind_app_some a b p i :
  Str.rfind b p = Some i -> Str.rfind (a ++ b) p = Some (length a + i).
Proof.
  intros H. induction a as [|x a IH]; [exact H|].
  simpl app. cbn [Str.rfind]. rewrite IH. reflexivity.
Qed.

Lemma rfind_absent d p s : ~ In d s -> Str.rfind s (d :: p) = None.
Proof.
  induction s as [|x s IH]; intros H; [reflexivity|].
  cbn [Str.rfind]. rewrite IH by (intros Hin; apply H; right; exact Hin).
  rewrite startsWith_head; [reflexivity|].
  intros ->. apply H. left. reflexivity.
Qed.

(** The last occurrence of a code unit. *)
Lemma rfind_final (c : ascii) (a b : str) :
  ~ In c b -> Str.rfind (a ++ c :: b) [c] = Some (length a).
Proof.
  intros H. rewrite (rfind_app_some a (c :: b) [c] 0); [f_equal; lia|].
  cbn [Str.rfind]. rewrite rfind_absent by exact H.
  cbn [Str.startsWith]. rewrite Ascii.eqb_refl. reflexivity.
Qed.

Lemma lastIndexOf_final (c : ascii) (a b : str) :
  ~ In c b -> Str.lastIndexOf (a ++ c :: b) [c] = Z.of_nat (length a).
Proof. intros H. unfold Str.lastIndexOf. rewrite rfind_final by exact H. reflexivity. Qed.

Lemma substring_prefix (a b : str) :
  Str.substring (a ++ b) 0 (Z.of_nat (length a)) = a.
Proof.
  exact (substring_middle [] a b).
Qed.

Lemma endsWith_app a p : Str.endsWith (a ++ p) p = true.
Proof. unfold Str.endsWith. rewrite rev_app_distr. apply startsWith_app. Qed.

Lemma replace_same s p : ~ In "$"%char p -> Str.replace s p p = s.
Proof.
  intros H. unfold Str.replace.
  destruct (Str.find s p) as [i|] eqn:Hf; [|reflexivity].
  rewrite expand_plain by exact H. symmetry. apply find_split. exact Hf.
Qed.

(** ** Links *)

(** The text between the outer brackets of a link. *)
Lemma link_inner (inner : str) :
  Str.substring (js "[[" ++ inner ++ js "]]")
    (Str.indexOf (js "[[" ++ inner ++ js "]]") (js "[") + 2)
    (Str.lastIndexOf (js "[[" ++ inner ++ js "]]") (js "]") - 1) = inner.
Proof.
  assert (Hi : Str.indexOf (js "[[" ++ inner ++ js "]]") (js "[") = 0%Z)
    by reflexivity.
  assert (Hl : Str.lastIndexOf (js "[[" ++ inner ++ js "]]") (js "]")
               = Z.of_nat (3 + length inner)).
  { replace (js "[[" ++ inner ++ js "]]")
      with ((js "[[" ++ inner ++ js "]") ++ "]"%char :: [])
      by (rewrite <- !app_assoc; reflexivity).
    change (js "]") with ["]"%char] at 2.
    rewrite lastIndexOf_final by (intros []). f_equal.
    rewrite !length_app. simpl. lia. }
  rewrite Hi, Hl.
  replace (0 + 2)%Z with (Z.of_nat (length (js "[["))) by reflexivity.
  replace (Z.of_nat (3 + length inner) - 1)%Z
    with (Z.of_nat (length (js "[[") + length inner))
    by (simpl length; lia).
  apply substring_middle.
Qed.

Lemma headerPath_lacks_bar header :
  isHeaderPath header -> ~ In "|"%char header.
Proof.
  intros [->|(h & -> & Hh)]; [intros []|].
  apply plainWord_spec in Hh. destruct Hh as (Hh & _).
  apply plainText_lacks in Hh. destruct Hh as (_ & _ & _ & Hb).
  intros [H|H]; [discriminate H | exact (Hb H)].
Qed.

(** Splitting the name with its header path. *)
Lemma header_split name header :
  plainWord name = true -> isHeaderPath header ->
  (if Str.includes (name ++ header) (js "#") then
     let headerSplit := Str.split (name ++ header) (js "#") in
     (nth 0 headerSplit [],
      if 1 <? length headerSplit then "#"%char :: nth 1 headerSplit [] else [])
   else (name ++ header, []))
  = (name, header).
Proof.
  intros Hn Hh. apply plainWord_spec in Hn. destruct Hn as (Hn & _).
  apply plainText_lacks in Hn. destruct Hn as (Hn & _).
  destruct Hh as [->|(h & -> & Hh)].
  - rewrite app_nil_r. unfold Str.includes. change (js "#") with ["#"%char].
    rewrite find_absent by exact Hn. reflexivity.
  - apply plainWord_spec in Hh. destruct Hh as (Hh & _).
    apply plainText_lacks in Hh. destruct Hh as (Hh & _).
    change (js "#") with ["#"%char].
    change (name ++ "#"%char :: h) with (name ++ ["#"%char] ++ h).
    rewrite includes_first by exact Hn.
    cbv zeta. rewrite split_two by assumption. reflexivity.
Qed.

Lemma parseLink_parts linkMatch :
  parseLink linkMatch
  = let textInsideBrackets :=
      Str.substring linkMatch
        (Str.indexOf linkMatch (js "[") + 2)
        (Str.lastIndexOf linkMatch (js "]") - 1) in
    let parts := Str.split textInsideBrackets (js "|") in
    let linkedFileName := nth 0 parts [] in
    let linkedFileName :=
      if Str.endsWith linkedFileName [bsl]
      then Str.substring linkedFileName 0 (Z.of_nat (length linkedFileName) - 1)
      else linkedFileName in
    let linkDisplayName :=
      match nth_error parts 1 with
      | Some (c :: d) => c :: d
      | _ => linkedFileName
      end in
    let nh :=
      if Str.includes linkedFileName (js "#") then
        let headerSplit := Str.split linkedFileName (js "#") in
        (nth 0 headerSplit [],
         if 1 <? length headerSplit then "#"%char :: nth 1 headerSplit [] else [])
      else (linkedFileName, []) in
    {| linkedFileName := fst nh; headerPath := snd nh;
       linkDisplayName := linkDisplayName |}.
Proof.
  unfold parseLink. cbv zeta.
  destruct (Str.includes _ (js "#")); reflexivity.
Qed.

(** A link in the escaped form the pass writes reads back as the name, the
    header path and the display name it was written from. *)
Lemma parseLink_escaped name header display :
  plainWord name = true -> isHeaderPath header ->
  plainWord display = true -> display <> [] ->
  parseLink (escapedLink name header display)
  = {| linkedFileName := name; headerPath := header;
       linkDisplayName := display |}.
Proof.
  intros Hn Hh Hd Hne. rewrite parseLink_parts.
  replace (escapedLink name header display)
    with (js "[[" ++ (name ++ header ++ js "\\|" ++ display) ++ js "]]")
    by (unfold escapedLink; rewrite <- !app_assoc; reflexivity).
  rewrite link_inner. cbv zeta.
  assert (Hbar : ~ In "|"%char (name ++ header ++ [bsl])).
  { apply plainWord_spec in Hn. destruct Hn as (Hn & _).
    apply plainText_lacks in Hn. destruct Hn as (_ & _ & _ & Hn).
    apply not_in_app; [exact Hn|]. apply not_in_app.
    - apply headerPath_lacks_bar. exact Hh.
    - intros [H|[]]. discriminate H. }
  assert (Hdb : ~ In "|"%char display).
  { apply plainWord_spec in Hd. destruct Hd as (Hd & _).
    apply plainText_lacks in Hd. apply Hd. }
  replace (name ++ header ++ js "\\|" ++ display)
    with ((name ++ header ++ [bsl]) ++ ["|"%char] ++ display)
    by (rewrite <- !app_assoc; reflexivity).
  change (js "|") with ["|"%char].
  rewrite split_two by assumption. cbn [nth nth_error].
  rewrite (app_assoc name header [bsl]), endsWith_app.
  replace (Z.of_nat (length ((name ++ header) ++ [bsl])) - 1)%Z
    with (Z.of_nat (length (name ++ header)))
    by (rewrite (length_app _ [bsl]); simpl length; lia).
  rewrite substring_prefix.
  rewrite header_split by assumption.
  destruct display as [|c d]; [contradiction|]. reflexivity.
Qed.

(** The same for a link as it is written in a note, with a bar. *)
Lemma parseLink_authored name header display :
  plainWord name = true -> isHeaderPath header ->
  plainWord display = true -> display <> [] ->
  Str.endsWith (name ++ header) [bsl] = false ->
  parseLink (js "[[" ++ name ++ header ++ js "|" ++ display ++ js "]]")
  = {| linkedFileName := name; headerPath := header;
       linkDisplayName := display |}.
Proof.
  intros Hn Hh Hd Hne He. rewrite parseLink_parts.
  replace (js "[[" ++ name ++ header ++ js "|" ++ display ++ js "]]")
    with (js "[[" ++ (name ++ header ++ js "|" ++ display) ++ js "]]")
    by (rewrite <- !app_assoc; reflexivity).
  rewrite link_inner. cbv zeta.
  assert (Hbar : ~ In "|"%char (name ++ header)).
  { apply plainWord_spec in Hn. destruct Hn as (Hn & _).
    apply plainText_lacks in Hn. destruct Hn as (_ & _ & _ & Hn).
    apply not_in_app; [exact Hn|]. apply headerPath_lacks_bar. exact Hh. }
  assert (Hdb : ~ In "|"%char display).
  { apply plainWord_spec in Hd. destruct Hd as (Hd & _).
    apply plainText_lacks in Hd. apply Hd. }
  replace (name ++ header ++ js "|" ++ display)
    with ((name ++ header) ++ ["|"%char] ++ display)
    by (rewrite <- !app_assoc; reflexivity).
  change (js "|") with ["|"%char].
  rewrite split_two by assumption. cbn [nth nth_error].
  rewrite He.
  rewrite header_split by assumption.
  destruct display as [|c d]; [contradiction|]. reflexivity.
Qed.

Lemma remove_nothing (p : Pat.pattern) s : p s = [] -> Pat.remove p s = s.
Proof. intros H. unfold Pat.remove, Pat.replaceAll. rewrite H. reflexivity. Qed.

Lemma strip_nothing E file text :
  noProtectedText E text -> stripAwayCodeFencesAndFrontmatter E file text = text.
Proof.
  intros (H1 & H2 & H3 & H4). unfold stripAwayCodeFencesAndFrontmatter.
  cbv zeta. rewrite (remove_nothing _ _ H1), (remove_nothing _ _ H2).
  rewrite (remove_nothing _ _ H3). apply remove_nothing. exact H4.
Qed.

(** A link on one line, closed by the first pair of closing brackets. *)
Lemma linkedFile_match x inner rest :
  forallb isDot (x :: inner) = true -> ~ In "]"%char inner ->
  matchAt linkedFileRegex (js "[[" ++ (x :: inner) ++ js "]]" ++ rest)
  = Some (js "[[" ++ (x :: inner) ++ js "]]", [(1, x :: inner)]).
Proof.
  intros Hdot Hc. simpl in Hdot. apply andb_true_iff in Hdot.
  destruct Hdot as [Hx Hdot].
  unfold matchAt. fold accept.
  assert (Hrun :
    run linkedFileRegex (js "[[" ++ (x :: inner) ++ js "]]" ++ rest) [] accept
    = Some (rest, [(1, x :: inner)])).
  { unfold linkedFileRegex. rewrite run_Seq, run_Lit_app.
    exact (lazy_group_run isDot "]"%char (js "]") x inner rest [] Hx Hdot Hc). }
  rewrite Hrun.
  replace (js "[[" ++ (x :: inner) ++ js "]]" ++ rest)
    with ((js "[[" ++ (x :: inner) ++ js "]]") ++ rest)
    by (rewrite <- !app_assoc; reflexivity).
  rewrite firstn_app_length. reflexivity.
Qed.

Lemma linkedFile_noMatch s : ~ In "["%char s -> noMatch linkedFileRegex s.
Proof.
  intros H. unfold linkedFileRegex.
  apply (noMatch_Lit _ _ "["%char); [left; reflexivity | exact H].
Qed.

(** A document with one link: the pass is one step of its loop. *)
Lemma convertLinks_single E file a x inner b :
  noProtectedText E (a ++ (js "[[" ++ (x :: inner) ++ js "]]") ++ b) ->
  ~ In "["%char a -> ~ In "["%char b ->
  forallb isDot (x :: inner) = true -> ~ In "]"%char inner ->
  convertLinksToFullPath E file (a ++ (js "[[" ++ (x :: inner) ++ js "]]") ++ b)
  = convertLink E file (a ++ (js "[[" ++ (x :: inner) ++ js "]]") ++ b)
      (js "[[" ++ (x :: inner) ++ js "]]").
Proof.
  intros Hp Ha Hb Hdot Hc. unfold convertLinksToFullPath. cbv zeta.
  rewrite strip_nothing by exact Hp.
  rewrite (matches_single linkedFileRegex a _ [(1, x :: inner)] b);
    [reflexivity | | | discriminate | apply linkedFile_noMatch; exact Hb].
  - exact (gap_first "["%char (js "[") _ a _ Ha).
  - rewrite <- app_assoc. rewrite <- (app_assoc (x :: inner)).
    apply linkedFile_match; assumption.
Qed.

Lemma extensionless stem :
  Str.substring (stem ++ js ".md") 0 (Str.lastIndexOf (stem ++ js ".md") (js "."))
  = stem.
Proof.
  change (js ".md") with ("."%char :: js "md"). change (js ".") with ["."%char].
  rewrite lastIndexOf_final by (vm_compute; intuition discriminate).
  apply substring_prefix.
Qed.

Lemma convertLink_note E file text m linkedFile stem :
  getFirstLinkpathDest E (getLinkpath E (linkedFileName (parseLink m)))
    (getPath file) = Some linkedFile ->
  extension linkedFile = js "md" -> path linkedFile = stem ++ js ".md" ->
  convertLink E file text m
  = Str.replace text m
      (escapedLink stem (headerPath (parseLink m)) (linkDisplayName (parseLink m))).
Proof.
  intros Hr Hx Hp. unfold convertLink, linkedFileOf. rewrite Hr, Hx.
  rewrite str_eqb_refl, Hp, extensionless. reflexivity.
Qed.

Lemma convertLink_dangling E file text m :
  getFirstLinkpathDest E (getLinkpath E (linkedFileName (parseLink m)))
    (getPath file) = None ->
  convertLink E file text m
  = Str.replace text m
      (escapedLink (linkedFileName (parseLink m)) (headerPath (parseLink m))
         (linkDisplayName (parseLink m))).
Proof.
  intros Hr. unfold convertLink, linkedFileOf. rewrite Hr. reflexivity.
Qed.

Lemma headerPath_lacks c header :
  isHeaderPath header -> c <> "#"%char ->
  (forall h, plainWord h = true -> ~ In c h) -> ~ In c header.
Proof.
  intros [->|(h & -> & Hh)] Hc Hall; [intros []|].
  intros [H|H]; [congruence | exact (Hall h Hh H)].
Qed.

Lemma plainWord_no_bracket s : plainWord s = true -> ~ In "]"%char s.
Proof.
  intros H. apply plainWord_spec in H. destruct H as (H & _).
  apply plainText_lacks in H. apply H.
Qed.

Lemma plainWord_dot s : plainWord s = true -> forallb isDot s = true.
Proof. intros H. apply plainWord_spec in H. apply H. Qed.

Lemma headerPath_dot header :
  isHeaderPath header -> forallb isDot header = true.
Proof.
  intros [->|(h & -> & Hh)]; [reflexivity|].
  simpl. apply plainWord_dot. exact Hh.
Qed.

Lemma escapedLink_no_dollar stem header display :
  ~ In "$"%char stem -> ~ In "$"%char header -> ~ In "$"%char display ->
  ~ In "$"%char (escapedLink stem header display).
Proof.
  intros Hs Hh Hd. unfold escapedLink.
  repeat apply not_in_app; try assumption; absent.
Qed.

(** A document with one link, of one line and without closing bracket
    inside. *)
Lemma convertLinks_one E file a inner b :
  noProtectedText E (a ++ (js "[[" ++ inner ++ js "]]") ++ b) ->
  ~ In "["%char a -> ~ In "["%char b ->
  inner <> [] -> forallb isDot inner = true -> ~ In "]"%char inner ->
  convertLinksToFullPath E file (a ++ (js "[[" ++ inner ++ js "]]") ++ b)
  = convertLink E file (a ++ (js "[[" ++ inner ++ js "]]") ++ b)
      (js "[[" ++ inner ++ js "]]").
Proof.
  intros Hp Ha Hb Hne Hdot Hc. destruct inner as [|x inner]; [contradiction|].
  apply convertLinks_single; try assumption.
  intros H. apply Hc. right. exact H.
Qed.

Lemma authored_shape name header display :
  plainWord name = true -> isHeaderPath header -> plainWord display = true ->
  let inner := name ++ header ++ js "|" ++ display in
  inner <> [] /\ forallb isDot inner = true /\ ~ In "]"%char inner.
Proof.
  intros Hn Hh Hd inner. unfold inner. split; [|split].
  - destruct name; [destruct header|]; discriminate.
  - rewrite !forallb_app, (plainWord_dot _ Hn), (headerPath_dot _ Hh),
      (plainWord_dot _ Hd). reflexivity.
  - repeat apply not_in_app.
    + apply plainWord_no_bracket. exact Hn.
    + apply headerPath_lacks;
        [exact Hh | discriminate | apply plainWord_no_bracket].
    + vm_compute. intuition discriminate.
    + apply plainWord_no_bracket. exact Hd.
Qed.

(** X8: a link to a note, written with a header path and a display name and
    the only link of a text, is rewritten to the path of the note in the
    vault without its extension; the header path and the display name stay,
    behind an escaped bar.  The new link comes in as the replacement of
    [String.replace], so its replacement patterns are expanded; without a
    dollar sign in the path, the header path and the display name it comes
    in as it is. *)
Theorem note_link_canonical E file a name header display b linkedFile stem :
  noProtectedText E
    (a ++ (js "[[" ++ (name ++ header ++ js "|" ++ display) ++ js "]]") ++ b) ->
  ~ In "["%char a -> ~ In "["%char b ->
  plainWord name = true -> isHeaderPath header ->
  plainWord display = true -> display <> [] ->
  Str.endsWith (name ++ header) [bsl] = false ->
  getFirstLinkpathDest E (getLinkpath E name) (getPath file) = Some linkedFile ->
  extension linkedFile = js "md" ->
  path linkedFile = stem ++ js ".md" ->
  convertLinksToFullPath E file
    (a ++ (js "[[" ++ (name ++ header ++ js "|" ++ display) ++ js "]]") ++ b)
  = a ++
    Str.expand (escapedLink stem header display)
      (js "[[" ++ (name ++ header ++ js "|" ++ display) ++ js "]]") a b ++
    b /\
  (~ In "$"%char stem -> ~ In "$"%char header -> ~ In "$"%char display ->
   convertLinksToFullPath E file
     (a ++ (js "[[" ++ (name ++ header ++ js "|" ++ display) ++ js "]]") ++ b)
   = a ++ escapedLink stem header display ++ b).
Proof.
  intros Hp Ha Hb Hn Hh Hd Hne He Hr Hx Hpath.
  destruct (authored_shape name header display Hn Hh Hd) as (H1 & H2 & H3).
  assert (Hparse :
    parseLink (js "[[" ++ (name ++ header ++ js "|" ++ display) ++ js "]]")
    = {| linkedFileName := name; headerPath := header;
         linkDisplayName := display |}).
  { rewrite <- (parseLink_authored name header display) by assumption.
    f_equal. rewrite <- !app_assoc. reflexivity. }
  assert (Hrun :
    convertLinksToFullPath E file
      (a ++ (js "[[" ++ (name ++ header ++ js "|" ++ display) ++ js "]]") ++ b)
    = a ++
      Str.expand (escapedLink stem header display)
        (js "[[" ++ (name ++ header ++ js "|" ++ display) ++ js "]]") a b ++
      b).
  { rewrite convertLinks_one by assumption.
    rewrite (convertLink_note E file _ _ linkedFile stem);
      rewrite ?Hparse; try assumption.
    cbn [headerPath linkDisplayName].
    change (js "[[" ++ (name ++ header ++ js "|" ++ display) ++ js "]]")
      with ("["%char :: js "[" ++ (name ++ header ++ js "|" ++ display) ++ js "]]").
    apply replace_first_expand. exact Ha. }
  split; [exact Hrun|].
  intros Hs Hhd Hdd. rewrite Hrun, expand_plain; [reflexivity|].
  apply escapedLink_no_dollar; assumption.
Qed.

(** X9: a link in the escaped form whose name does not resolve, the only link
    of a text, is replaced by itself: the pass writes the same escaped link
    in its place, through [String.replace].  Without a dollar sign in it the
    link, and so the text, is left as it is: on such links that it has
    written the pass changes nothing when it runs again. *)
Theorem escaped_link_fixed E file a name header display b :
  noProtectedText E (a ++ escapedLink name header display ++ b) ->
  ~ In "["%char a -> ~ In "["%char b ->
  plainWord name = true -> isHeaderPath header ->
  plainWord display = true -> display <> [] ->
  getFirstLinkpathDest E (getLinkpath E name) (getPath file) = None ->
  convertLinksToFullPath E file (a ++ escapedLink name header display ++ b)
  = a ++
    Str.expand (escapedLink name header display)
      (escapedLink name header display) a b ++
    b /\
  (~ In "$"%char name -> ~ In "$"%char header -> ~ In "$"%char display ->
   convertLinksToFullPath E file (a ++ escapedLink name header display ++ b)
   = a ++ escapedLink name header display ++ b).
Proof.
  intros Hp Ha Hb Hn Hh Hd Hne Hr.
  assert (Heq : escapedLink name header display
                = js "[[" ++ (name ++ header ++ js "\\|" ++ display) ++ js "]]")
    by (unfold escapedLink; rewrite <- !app_assoc; reflexivity).
  assert (Hparse := parseLink_escaped name header display Hn Hh Hd Hne).
  assert (Hrun :
    convertLinksToFullPath E file (a ++ escapedLink name header display ++ b)
    = a ++
      Str.expand (escapedLink name header display)
        (escapedLink name header display) a b ++
      b).
  { rewrite Heq in Hp. rewrite Heq at 1.
    rewrite convertLinks_one; try assumption.
    - rewrite <- Heq. rewrite convertLink_dangling; rewrite Hparse; [|exact Hr].
      cbn [linkedFileName headerPath linkDisplayName].
      rewrite Heq at 1 2.
      change (js "[[" ++ (name ++ header ++ js "\\|" ++ display) ++ js "]]")
        with ("["%char ::
              js "[" ++ (name ++ header ++ js "\\|" ++ display) ++ js "]]").
      rewrite replace_first_expand by exact Ha.
      change ("["%char ::
              js "[" ++ (name ++ header ++ js "\\|" ++ display) ++ js "]]")
        with (js "[[" ++ (name ++ header ++ js "\\|" ++ display) ++ js "]]").
      rewrite <- Heq. reflexivity.
    - destruct name; [destruct header|]; discriminate.
    - rewrite !forallb_app, (plainWord_dot _ Hn), (headerPath_dot _ Hh),
        (plainWord_dot _ Hd). reflexivity.
    - repeat apply not_in_app.
      + apply plainWord_no_bracket. exact Hn.
      + apply headerPath_lacks;
          [exact Hh | discriminate | apply plainWord_no_bracket].
      + vm_compute. intuition discriminate.
      + apply plainWord_no_bracket. exact Hd. }
  split; [exact Hrun|].
  intros Hs Hhd Hdd. rewrite Hrun, expand_plain; [reflexivity|].
  apply escapedLink_no_dollar; assumption.
Qed.

(** ** Embeds of notes *)

Lemma transcluded_match x inner rest :
  forallb isDot (x :: inner) = true -> ~ In "]"%char inner ->
  matchAt transcludedRegex (js "![[" ++ (x :: inner) ++ js "]]" ++ rest)
  = Some (js "![[" ++ (x :: inner) ++ js "]]", [(1, x :: inner)]).
Proof.
  intros Hdot Hc. simpl in Hdot. apply andb_true_iff in Hdot.
  destruct Hdot as [Hx Hdot].
  unfold matchAt. fold accept.
  assert (Hrun :
    run transcludedRegex (js "![[" ++ (x :: inner) ++ js "]]" ++ rest) [] accept
    = Some (rest, [(1, x :: inner)])).
  { unfold transcludedRegex. rewrite run_Seq, run_Lit_app.
    exact (lazy_group_run isDot "]"%char (js "]") x inner rest [] Hx Hdot Hc). }
  rewrite Hrun.
  replace (js "![[" ++ (x :: inner) ++ js "]]" ++ rest)
    with ((js "![[" ++ (x :: inner) ++ js "]]") ++ rest)
    by (rewrite <- !app_assoc; reflexivity).
  rewrite firstn_app_length. reflexivity.
Qed.

Lemma transcluded_noMatch s : ~ In "["%char s -> noMatch transcludedRegex s.
Proof.
  intros H. unfold transcludedRegex.
  apply (noMatch_Lit _ _ "["%char); [right; left; reflexivity | exact H].
Qed.

(** The embeds of a document with one embed. *)
Lemma transcluded_one a inner b :
  ~ In "["%char a -> ~ In "["%char b ->
  inner <> [] -> forallb isDot inner = true -> ~ In "]"%char inner ->
  matches transcludedRegex (a ++ (js "![[" ++ inner ++ js "]]") ++ b)
  = [js "![[" ++ inner ++ js "]]"].
Proof.
  intros Ha Hb Hne Hdot Hc. destruct inner as [|x inner]; [contradiction|].
  apply (matches_single transcludedRegex a _ [(1, x :: inner)] b).
  - change (js "![[" ++ (x :: inner) ++ js "]]")
      with ("!"%char :: js "[[" ++ (x :: inner) ++ js "]]").
    rewrite <- app_comm_cons.
    apply (gap_second "!"%char "["%char (js "[")); [exact Ha | discriminate].
  - rewrite <- app_assoc. rewrite <- (app_assoc (x :: inner)).
    apply transcluded_match; [exact Hdot|].
    intros H. apply Hc. right. exact H.
  - discriminate.
  - apply transcluded_noMatch. exact Hb.
Qed.

Lemma transcludeSection_whole E name fileText metadata :
  ~ In "#"%char name ->
  transcludeSection E name fileText metadata = Some (fileText, []).
Proof.
  intros H. unfold transcludeSection, Str.includes.
  change (js "#^") with ("#"%char :: js "^"). change (js "#") with ["#"%char].
  rewrite !find_absent by exact H. reflexivity.
Qed.

Lemma convertCustomFilters_none E file text :
  customFilters E = [] -> convertCustomFilters E file text = ret text.
Proof. intros H. unfold convertCustomFilters. rewrite H. reflexivity. Qed.

Section NoteEmbed.

Variable E : Env.
Variables (file linkedFile : TFile).
Variables (fileName fileText sliced sectionID : str).

Hypothesis Hclose : ~ In "]"%char fileName.
Hypothesis Hbar : ~ In "|"%char fileName.
Hypothesis Hresolves :
  getFirstLinkpathDest E (getLinkpath E fileName) (getPath file)
  = Some linkedFile.
Hypothesis Hnote : isDrawing linkedFile = false.
Hypothesis Hmd : extension linkedFile = js "md".
Hypothesis Hread : cachedRead E linkedFile = Some fileText.
Hypothesis Hsection :
  transcludeSection E fileName fileText (getFileCache E linkedFile)
  = Some (sliced, sectionID).
Hypothesis Hfilters : customFilters E = [].
Hypothesis Hfront : FRONTMATTER_REGEX E sliced = [].
Hypothesis Hblockref : BLOCKREF_REGEX E sliced = [].

Hypothesis Hflat :
  ~ In "["%char
      (wrapTransclusion
         (embeddedLink E linkedFile (getFileCache E linkedFile) sectionID)
         [] sliced).

Lemma transcludeMatch_note deeper st :
  transcludeMatch E deeper file st (js "![[" ++ fileName ++ js "]]")
  = ret {| transcludedText :=
             Str.replace (transcludedText st)
               (js "![[" ++ fileName ++ js "]]")
               (wrapTransclusion
                  (embeddedLink E linkedFile (getFileCache E linkedFile)
                     sectionID)
                  [] sliced);
           numberOfExcaliDraws := numberOfExcaliDraws st |}.
Proof.
  unfold transcludeMatch. unfold isDrawing in Hnote.
  rewrite transclusionParts_plain by assumption.
  rewrite Hresolves, Hnote, Hmd, str_eqb_refl, Hread, Hsection.
  rewrite (remove_nothing _ _ Hfront).
  rewrite convertCustomFilters_none by exact Hfilters.
  rewrite bind_ret_l.
  rewrite (remove_nothing _ _ Hblockref).
  cbn [generateTransclusionHeader].
  rewrite (proj2 (matches_noMatch transcludedRegex _)
             (transcluded_noMatch _ Hflat)).
  rewrite bind_ret_l. reflexivity.
Qed.

End NoteEmbed.

(** A pattern is not found in a gap that lacks its second code unit, before
    a text that does not begin with it. *)
Lemma find_after_second o d p a z s :
  ~ In d a -> z <> d ->
  Str.find (a ++ z :: s) (o :: d :: p)
  = option_map (Nat.add (length a)) (Str.find (z :: s) (o :: d :: p)).
Proof.
  intros Hd Hz. induction a as [|y a IH].
  - simpl app. destruct (Str.find (z :: s) (o :: d :: p)); reflexivity.
  - assert (Hs : Str.startsWith ((y :: a) ++ z :: s) (o :: d :: p) = false).
    { destruct a as [|y' a]; simpl app.
      - apply startsWith_second. exact Hz.
      - apply startsWith_second. intros ->. apply Hd. right. left. reflexivity. }
    simpl app in Hs. simpl app.
    change (Str.find (y :: a ++ z :: s) (o :: d :: p))
      with (if Str.startsWith (y :: a ++ z :: s) (o :: d :: p) then Some 0
            else option_map S (Str.find (a ++ z :: s) (o :: d :: p))).
    rewrite Hs.
    rewrite IH by (intros H; apply Hd; right; exact H).
    destruct (Str.find (z :: s) (o :: d :: p)); reflexivity.
Qed.

Lemma replace_at a m b repl :
  Str.find (a ++ m ++ b) m = Some (length a) ->
  Str.replace (a ++ m ++ b) m repl = a ++ Str.expand repl m a b ++ b.
Proof.
  intros Hf. unfold Str.replace. rewrite Hf.
  rewrite firstn_app, firstn_all, Nat.sub_diag. simpl firstn. rewrite app_nil_r.
  replace (length a + length m) with (length (a ++ m))
    by (rewrite length_app; reflexivity).
  rewrite (app_assoc a m b), skipn_app, skipn_all, Nat.sub_diag.
  reflexivity.
Qed.

Lemma embed_found a inner b :
  ~ In "["%char a ->
  Str.find (a ++ (js "![[" ++ inner ++ js "]]") ++ b) (js "![[" ++ inner ++ js "]]")
  = Some (length a).
Proof.
  intros Ha.
  change (js "![[" ++ inner ++ js "]]")
    with ("!"%char :: "["%char :: "["%char :: inner ++ js "]]").
  rewrite <- app_comm_cons.
  rewrite find_after_second by (try exact Ha; discriminate).
  rewrite app_comm_cons.
  rewrite (find_at_start ("!"%char :: "["%char :: "["%char :: inner ++ js "]]") b).
  simpl. f_equal. lia.
Qed.

(** An embed of a note, the only link of a document. *)
Lemma section_embedded E d file a fileName b linkedFile fileText sliced
  sectionID :
  d < 4 ->
  ~ In "["%char a -> ~ In "["%char b ->
  fileName <> [] -> forallb isDot fileName = true ->
  ~ In "]"%char fileName -> ~ In "|"%char fileName ->
  getFirstLinkpathDest E (getLinkpath E fileName) (getPath file)
  = Some linkedFile ->
  isDrawing linkedFile = false ->
  extension linkedFile = js "md" ->
  cachedRead E linkedFile = Some fileText ->
  transcludeSection E fileName fileText (getFileCache E linkedFile)
  = Some (sliced, sectionID) ->
  customFilters E = [] ->
  FRONTMATTER_REGEX E sliced = [] -> BLOCKREF_REGEX E sliced = [] ->
  ~ In "["%char
      (wrapTransclusion
         (embeddedLink E linkedFile (getFileCache E linkedFile) sectionID)
         [] sliced) ->
  createTranscludedText E d file (a ++ (js "![[" ++ fileName ++ js "]]") ++ b)
  = ret (a ++
         Str.expand
           (wrapTransclusion
              (embeddedLink E linkedFile (getFileCache E linkedFile) sectionID)
              [] sliced)
           (js "![[" ++ fileName ++ js "]]") a b ++
         b).
Proof.
  intros Hd Ha Hb Hne Hdot Hc Hbar Hr Hnote Hmd Hread Hsec Hf Hfm Hbr Hflat.
  unfold createTranscludedText.
  destruct (4 - d) as [|fuel] eqn:Hfuel; [lia|].
  cbn [transcludeWithin].
  rewrite transcluded_one by assumption.
  cbn [foldM].
  rewrite (transcludeMatch_note E file linkedFile fileName fileText sliced
             sectionID) by assumption.
  rewrite !bind_ret_l. cbn [transcludedText].
  rewrite replace_at by (apply embed_found; exact Ha). reflexivity.
Qed.

(** The link an embed carries. *)
Lemma embeddedLink_cases E linkedFile sectionID link :
  published E linkedFile = false /\ link = [] \/
  published E linkedFile = true /\ permalinkOf E linkedFile = None /\
  link = linkBack
           (("/"%char ::
             generateUrlPath E (getGardenPathForNote E (path linkedFile))) ++
            sectionID) ->
  embeddedLink E linkedFile (getFileCache E linkedFile) sectionID = link.
Proof.
  unfold published, permalinkOf, embeddedLink, linkBack.
  intros [[Hp ->]|(Hp & Hl & ->)]; rewrite Hp; [reflexivity|].
  rewrite Hl. rewrite <- app_assoc. reflexivity.
Qed.

(** The markup of an embed without title. *)
Lemma wrapTransclusion_untitled link body :
  wrapTransclusion link [] body
  = js "\n<div class=\x22transclusion internal-embed is-loaded\x22>" ++
    link ++ js "<div class=\x22markdown-embed\x22>\n\n" ++
    js "\n\n" ++ body ++ js "\n\n</div></div>\n".
Proof. unfold wrapTransclusion. cbn [app]. reflexivity. Qed.

Lemma markup_lacks c link body :
  lacks c (js "\n<div class=\x22transclusion internal-embed is-loaded\x22>") = true ->
  lacks c (js "<div class=\x22markdown-embed\x22>\n\n") = true ->
  lacks c (js "\n\n</div></div>\n") = true ->
  lacks c (js "\n\n") = true ->
  ~ In c link -> ~ In c body ->
  ~ In c (wrapTransclusion link [] body).
Proof.
  intros H1 H2 H3 H4 Hl Hb. rewrite wrapTransclusion_untitled.
  repeat apply not_in_app; try assumption;
    apply lacks_not_in; assumption.
Qed.

Lemma markup_no_bracket link body :
  ~ In "["%char link -> ~ In "["%char body ->
  ~ In "["%char (wrapTransclusion link [] body).
Proof. intros Hl Hb. apply markup_lacks; try assumption; evaluated. Qed.

Lemma markup_no_dollar link body :
  ~ In "$"%char link -> ~ In "$"%char body ->
  ~ In "$"%char (wrapTransclusion link [] body).
Proof. intros Hl Hb. apply markup_lacks; try assumption; evaluated. Qed.

(** X10: an embed of a whole note, the only link of a document, is replaced
    by the text of the note between the opening and the closing markup of an
    embed.  The markup holds no link back when the note is not published;
    for a published note without permalink it holds the link back to the
    garden path of the note.  The text comes in as the replacement of
    [String.replace], so its replacement patterns are expanded; without a
    dollar sign in the note and in the link it comes in as it is. *)
Theorem note_embedded E d file a name b linkedFile body link :
  d < 4 ->
  ~ In "["%char a -> ~ In "["%char b ->
  plainWord name = true -> name <> [] ->
  getFirstLinkpathDest E (getLinkpath E name) (getPath file) = Some linkedFile ->
  isDrawing linkedFile = false ->
  extension linkedFile = js "md" ->
  cachedRead E linkedFile = Some body ->
  customFilters E = [] ->
  FRONTMATTER_REGEX E body = [] -> BLOCKREF_REGEX E body = [] ->
  ~ In "["%char body -> ~ In "["%char link ->
  published E linkedFile = false /\ link = [] \/
  published E linkedFile = true /\ permalinkOf E linkedFile = None /\
  link = linkBack
           ("/"%char ::
            generateUrlPath E (getGardenPathForNote E (path linkedFile))) ->
  createTranscludedText E d file (a ++ (js "![[" ++ name ++ js "]]") ++ b)
  = ret (a ++
         Str.expand
           (js "\n<div class=\x22transclusion internal-embed is-loaded\x22>" ++
            link ++ js "<div class=\x22markdown-embed\x22>\n\n" ++
            js "\n\n" ++ body ++ js "\n\n</div></div>\n")
           (js "![[" ++ name ++ js "]]") a b ++
         b) /\
  (~ In "$"%char body -> ~ In "$"%char link ->
   createTranscludedText E d file (a ++ (js "![[" ++ name ++ js "]]") ++ b)
   = ret (a ++
          (js "\n<div class=\x22transclusion internal-embed is-loaded\x22>" ++
           link ++ js "<div class=\x22markdown-embed\x22>\n\n" ++
           js "\n\n" ++ body ++ js "\n\n</div></div>\n") ++
          b)).
Proof.
  intros Hd Ha Hb Hn Hne Hr Hnote Hmd Hread Hf Hfm Hbr Hbody Hlink Hcase.
  pose proof (plainWord_spec _ Hn) as (Hp & Hdot).
  apply plainText_lacks in Hp. destruct Hp as (H1 & _ & H3 & H4).
  assert (Hel : embeddedLink E linkedFile (getFileCache E linkedFile) [] = link).
  { apply embeddedLink_cases. rewrite app_nil_r. exact Hcase. }
  assert (Hrun :
    createTranscludedText E d file (a ++ (js "![[" ++ name ++ js "]]") ++ b)
    = ret (a ++
           Str.expand (wrapTransclusion link [] body)
             (js "![[" ++ name ++ js "]]") a b ++
           b)).
  { rewrite <- Hel.
    apply (section_embedded E d file a name b linkedFile body body []);
      try assumption.
    - apply transcludeSection_whole. exact H1.
    - rewrite Hel. apply markup_no_bracket; assumption. }
  rewrite wrapTransclusion_untitled in Hrun.
  split; [exact Hrun|].
  intros Hdb Hdl. rewrite Hrun. rewrite expand_plain; [reflexivity|].
  rewrite <- wrapTransclusion_untitled. apply markup_no_dollar; assumption.
Qed.

(** ** Embeds of other files *)

Lemma transcludeMatch_other E deeper file st m linkedFile :
  embeddedFileOf E file m = Some linkedFile ->
  isDrawing linkedFile = false ->
  Str.eqb (extension linkedFile) (js "md") = false ->
  transcludeMatch E deeper file st m = ret st.
Proof.
  unfold embeddedFileOf, isDrawing, transcludeMatch. intros Hr Hd Hx.
  destruct (transclusionParts m) as [fileName headerName].
  cbn [fst] in Hr. rewrite Hr, Hd, Hx. reflexivity.
Qed.

(** X13: an embed of a file that is neither a drawing nor a markdown note, a
    picture for one, is left to the later passes: the resolver returns a
    text unchanged in which every embed is of such a file or does not
    resolve. *)
Theorem other_files_not_embedded E d file text :
  (forall m, In m (matches transcludedRegex text) ->
     match embeddedFileOf E file m with
     | Some linkedFile =>
         isDrawing linkedFile = false /\
         Str.eqb (extension linkedFile) (js "md") = false
     | None => True
     end) ->
  createTranscludedText E d file text = ret text.
Proof.
  intros H. unfold createTranscludedText.
  destruct (4 - d) as [|fuel]; [reflexivity|].
  cbn [transcludeWithin]. rewrite foldM_unchanged.
  - rewrite bind_ret_l. reflexivity.
  - intros m Hm. specialize (H m Hm).
    destruct (embeddedFileOf E file m) as [linkedFile|] eqn:Hr.
    + destruct H as [Hd Hx]. eapply transcludeMatch_other; eassumption.
    + apply transcludeMatch_unresolved. exact Hr.
Qed.

(** ** Sections that are missing *)

Lemma transcludeHeader_missing refHeader fileText metadata :
  hasHeading metadata refHeader = false ->
  transcludeHeader refHeader fileText metadata = fileText.
Proof.
  unfold hasHeading, transcludeHeader.
  destruct metadata as [md|]; [|reflexivity].
  destruct (headings md) as [hs|]; [|reflexivity].
  intros H.
  assert (Hf : find (fun header => Str.eqb (heading header) refHeader) hs = None).
  { induction hs as [|x hs IH]; [reflexivity|].
    simpl in H. apply orb_false_iff in H. destruct H as [Hx Hhs].
    simpl. rewrite Hx. apply IH. exact Hhs. }
  rewrite Hf. reflexivity.
Qed.

Lemma transcludeBlock_missing refBlock fileText metadata :
  blockLookup metadata refBlock = NotFound ->
  transcludeBlock refBlock fileText metadata = Some fileText.
Proof. unfold transcludeBlock. intros ->. reflexivity. Qed.

Lemma transcludeBlock_inherited refBlock fileText metadata :
  blockLookup metadata refBlock = Inherited ->
  transcludeBlock refBlock fileText metadata = None.
Proof. unfold transcludeBlock. intros ->. reflexivity. Qed.

(** The text between the brackets of an embed of a section. *)
Lemma sectionName_shape target mark section :
  plainWord target = true -> plainWord section = true ->
  forallb isDot mark = true -> ~ In "]"%char mark -> ~ In "|"%char mark ->
  forallb isDot (target ++ mark ++ section) = true /\
  ~ In "]"%char (target ++ mark ++ section) /\
  ~ In "|"%char (target ++ mark ++ section).
Proof.
  intros Ht Hs Hm1 Hm2 Hm3.
  pose proof (plainWord_spec _ Ht) as (Hpt & Hdt).
  pose proof (plainWord_spec _ Hs) as (Hps & Hds).
  apply plainText_lacks in Hpt. destruct Hpt as (_ & _ & Ht3 & Ht4).
  apply plainText_lacks in Hps. destruct Hps as (_ & _ & Hs3 & Hs4).
  split; [|split].
  - rewrite !forallb_app, Hdt, Hm1, Hds. reflexivity.
  - repeat apply not_in_app; assumption.
  - repeat apply not_in_app; assumption.
Qed.

(** X14: an embed of a heading, or of an anchor, that the metadata of the
    target does not record (for an anchor: and that is not the name of a
    property every object inherits) is replaced by the whole text of the
    target in the markup of an embed.  The link back of a published target
    still ends in the number sign and the slug of the section asked for. *)
Theorem missing_section_takes_whole_note E d file a target section b
  linkedFile body link :
  d < 4 ->
  ~ In "["%char a -> ~ In "["%char b ->
  plainWord target = true -> plainWord section = true -> target <> [] ->
  isDrawing linkedFile = false ->
  extension linkedFile = js "md" ->
  cachedRead E linkedFile = Some body ->
  customFilters E = [] ->
  FRONTMATTER_REGEX E body = [] -> BLOCKREF_REGEX E body = [] ->
  ~ In "["%char body -> ~ In "["%char link ->
  published E linkedFile = false /\ link = [] \/
  published E linkedFile = true /\ permalinkOf E linkedFile = None /\
  link = linkBack
           (("/"%char ::
             generateUrlPath E (getGardenPathForNote E (path linkedFile))) ++
            js "#" ++ slugify E section) ->
  (getFirstLinkpathDest E (getLinkpath E (target ++ js "#" ++ section))
     (getPath file) = Some linkedFile ->
   Str.startsWith section (js "^") = false ->
   hasHeading (getFileCache E linkedFile) section = false ->
   createTranscludedText E d file
     (a ++ (js "![[" ++ (target ++ js "#" ++ section) ++ js "]]") ++ b)
   = ret (a ++
          Str.expand
            (js "\n<div class=\x22transclusion internal-embed is-loaded\x22>" ++
             link ++ js "<div class=\x22markdown-embed\x22>\n\n" ++
             js "\n\n" ++ body ++ js "\n\n</div></div>\n")
            (js "![[" ++ (target ++ js "#" ++ section) ++ js "]]") a b ++
          b)) /\
  (getFirstLinkpathDest E (getLinkpath E (target ++ js "#^" ++ section))
     (getPath file) = Some linkedFile ->
   blockLookup (getFileCache E linkedFile) section = NotFound ->
   createTranscludedText E d file
     (a ++ (js "![[" ++ (target ++ js "#^" ++ section) ++ js "]]") ++ b)
   = ret (a ++
          Str.expand
            (js "\n<div class=\x22transclusion internal-embed is-loaded\x22>" ++
             link ++ js "<div class=\x22markdown-embed\x22>\n\n" ++
             js "\n\n" ++ body ++ js "\n\n</div></div>\n")
            (js "![[" ++ (target ++ js "#^" ++ section) ++ js "]]") a b ++
          b)).
Proof.
  intros Hd Ha Hb Ht Hs Hne Hnote Hmd Hread Hf Hfm Hbr Hbody Hlink Hcase.
  pose proof (plainWord_spec _ Ht) as (Hpt & _).
  pose proof (plainWord_spec _ Hs) as (Hps & _).
  apply plainText_lacks in Hpt. destruct Hpt as (Ht1 & _).
  apply plainText_lacks in Hps. destruct Hps as (Hs1 & _).
  assert (Hel : embeddedLink E linkedFile (getFileCache E linkedFile)
                  (js "#" ++ slugify E section) = link)
    by (apply embeddedLink_cases; exact Hcase).
  assert (Hflat : ~ In "["%char
            (wrapTransclusion
               (embeddedLink E linkedFile (getFileCache E linkedFile)
                  (js "#" ++ slugify E section)) [] body))
    by (rewrite Hel; apply markup_no_bracket; assumption).
  rewrite <- wrapTransclusion_untitled.
  split.
  - intros Hr Hc Hm.
    destruct (sectionName_shape target (js "#") section Ht Hs)
      as (Hdot & Hcl & Hbar);
      [reflexivity | absent | absent |].
    rewrite <- Hel.
    apply (section_embedded E d file a (target ++ js "#" ++ section) b
             linkedFile body body (js "#" ++ slugify E section));
      try assumption.
    + destruct target; [contradiction | discriminate].
    + rewrite transcludeSection_header by assumption.
      rewrite transcludeHeader_missing by exact Hm. reflexivity.
  - intros Hr Hm.
    destruct (sectionName_shape target (js "#^") section Ht Hs)
      as (Hdot & Hcl & Hbar);
      [reflexivity | absent | absent |].
    rewrite <- Hel.
    apply (section_embedded E d file a (target ++ js "#^" ++ section) b
             linkedFile body body (js "#" ++ slugify E section));
      try assumption.
    + destruct target; [contradiction | discriminate].
    + rewrite transcludeSection_block by assumption.
      rewrite transcludeBlock_missing by exact Hm. reflexivity.
Qed.

(** X21: an embed of an anchor that the target does not record and whose name
    is one of the properties every object has, such as [constructor] or
    [toString], is not expanded: the lookup in the anchors finds the
    inherited property, reading its position throws, and the embed stays in
    the text as it is, without a notice. *)
Theorem inherited_anchor_not_embedded E d file a target key b linkedFile
  body md anchors :
  ~ In "["%char a -> ~ In "["%char b ->
  plainWord target = true -> target <> [] ->
  In key objectPrototypeKeys ->
  getFirstLinkpathDest E (getLinkpath E (target ++ js "#^" ++ key))
    (getPath file) = Some linkedFile ->
  isDrawing linkedFile = false ->
  extension linkedFile = js "md" ->
  cachedRead E linkedFile = Some body ->
  getFileCache E linkedFile = Some md ->
  blocks md = Some anchors -> anchors key = None ->
  createTranscludedText E d file
    (a ++ (js "![[" ++ (target ++ js "#^" ++ key) ++ js "]]") ++ b)
  = ret (a ++ (js "![[" ++ (target ++ js "#^" ++ key) ++ js "]]") ++ b).
Proof.
  intros Ha Hb Ht Hne Hkey Hr Hnote Hmd Hread Hcache Hblocks Hnone.
  assert (Hk : plainWord key = true).
  { revert Hkey. unfold objectPrototypeKeys.
    repeat (intros [<-|Hkey]; [reflexivity | revert Hkey]). intros []. }
  pose proof (plainWord_spec _ Ht) as (Hpt & _).
  pose proof (plainWord_spec _ Hk) as (Hpk & _).
  apply plainText_lacks in Hpt. destruct Hpt as (Ht1 & _).
  apply plainText_lacks in Hpk. destruct Hpk as (Hk1 & _).
  destruct (sectionName_shape target (js "#^") key Ht Hk)
    as (Hdot & Hcl & Hbar);
    [reflexivity | absent | absent |].
  unfold createTranscludedText.
  destruct (4 - d) as [|fuel]; [reflexivity|].
  cbn [transcludeWithin].
  rewrite transcluded_one; try assumption;
    [|destruct target; [contradiction | discriminate]].
  cbn [foldM]. unfold transcludeMatch. unfold isDrawing in Hnote.
  rewrite transclusionParts_plain by assumption.
  rewrite Hr, Hnote, Hmd, str_eqb_refl, Hread.
  rewrite transcludeSection_block by assumption.
  rewrite transcludeBlock_inherited; [reflexivity|].
  unfold blockLookup. rewrite Hcache, Hblocks, Hnone.
  assert (He : existsb (Str.eqb key) objectPrototypeKeys = true).
  { apply existsb_exists. exists key. split; [exact Hkey|].
    apply str_eqb_refl. }
  rewrite He. reflexivity.
Qed.

(** ** The numbers of the drawings *)

Lemma ownDrawings_app a b : ownDrawings (a ++ b) = ownDrawings a ++ ownDrawings b.
Proof. apply flat_map_app. Qed.

Lemma convertCustomFilters_ownDrawings E file text :
  ownDrawings (snd (convertCustomFilters E file text)) = [].
Proof.
  unfold convertCustomFilters. generalize (customFilters E). intros l.
  revert text. induction l as [|f l IH]; intros text; [reflexivity|].
  cbn [foldM]. rewrite snd_bind, ownDrawings_app, IH, app_nil_r.
  destruct (regExpReplace E (pattern f) (flags f) (replace f) text); reflexivity.
Qed.

Section Numbers.

Variable E : Env.
Variable deeper : TFile -> str -> M str.
Variable file : TFile.

Lemma transcludeMatch_numbers st m :
  (forall f, In f (drawingsOf E file [m]) -> cachedRead E f <> None) ->
  let r := transcludeMatch E deeper file st m in
  ownDrawings (snd r)
  = combine (map drawingOptions
               (seq (numberOfExcaliDraws st + 1) (length (drawingsOf E file [m]))))
      (drawingsOf E file [m]) /\
  numberOfExcaliDraws (fst r)
  = numberOfExcaliDraws st + length (drawingsOf E file [m]).
Proof.
  intros Hread r. subst r. unfold drawingsOf in *. cbn [flat_map] in *.
  rewrite app_nil_r in *.
  unfold embeddedFileOf, isDrawing in *. unfold transcludeMatch.
  destruct (transclusionParts m) as [fileName headerName]. cbn [fst] in *.
  destruct (getFirstLinkpathDest E (getLinkpath E fileName) (getPath file))
    as [linkedFile|]; [|split; [reflexivity | simpl; lia]].
  destruct (Str.endsWith (name linkedFile) (js ".excalidraw.md")).
  - destruct (cachedRead E linkedFile) as [fileText|] eqn:Hr;
      [|exfalso; apply (Hread linkedFile); [left; reflexivity | exact Hr]].
    rewrite fst_bind, snd_bind. cbn [tell fst snd].
    destruct (compileMarkdown E _ linkedFile fileText);
      (split; [reflexivity | simpl; lia]).
  - destruct (Str.eqb (extension linkedFile) (js "md"));
      [|split; [reflexivity | simpl; lia]].
    destruct (cachedRead E linkedFile) as [fileText|];
      [|split; [reflexivity | simpl; lia]].
    destruct (transcludeSection E fileName fileText (getFileCache E linkedFile))
      as [[sliced sectionID]|]; [|split; [reflexivity | simpl; lia]].
    rewrite !fst_bind, !snd_bind. cbn [ret fst snd numberOfExcaliDraws].
    rewrite app_nil_r, ownDrawings_app, convertCustomFilters_ownDrawings.
    split; [|simpl; lia]. cbn [app].
    match goal with
    | |- context [match ?l with [] => _ | _ :: _ => _ end] =>
        destruct l; reflexivity
    end.
Qed.

Lemma combine_app {A B} (a a' : list A) (b b' : list B) :
  length a = length b ->
  combine (a ++ a') (b ++ b') = combine a b ++ combine a' b'.
Proof.
  revert b. induction a as [|x a IH]; intros [|y b] H; simpl in *;
    try discriminate; [reflexivity|].
  f_equal. apply IH. lia.
Qed.

Lemma transclusion_loop_numbers l : forall st,
  (forall f, In f (drawingsOf E file l) -> cachedRead E f <> None) ->
  ownDrawings (snd (foldM (transcludeMatch E deeper file) l st))
  = combine (map drawingOptions
               (seq (numberOfExcaliDraws st + 1) (length (drawingsOf E file l))))
      (drawingsOf E file l).
Proof.
  induction l as [|m l IH]; intros st Hread; [reflexivity|].
  assert (Hsplit : drawingsOf E file (m :: l) = drawingsOf E file [m] ++ drawingsOf E file l).
  { unfold drawingsOf. cbn [flat_map]. rewrite app_nil_r. reflexivity. }
  rewrite Hsplit in *.
  destruct (transcludeMatch_numbers st m) as [Hown Hn].
  { intros f Hf. apply Hread. apply in_or_app. left. exact Hf. }
  cbn [foldM]. rewrite snd_bind, ownDrawings_app, Hown.
  rewrite IH by (intros f Hf; apply Hread; apply in_or_app; right; exact Hf).
  rewrite Hn. rewrite length_app, seq_app, map_app.
  rewrite combine_app by (rewrite length_map, length_seq; reflexivity).
  do 4 f_equal. lia.
Qed.

End Numbers.

(** X12: the drawings embedded in a text are compiled in the order of their
    embeds, the first with the number 1 and the support script, the k-th
    with the number k and without the script, when each of them can be
    read. *)
Theorem drawings_numbered_in_order E d file text :
  d < 4 ->
  (forall f, In f (embeddedDrawings E file text) -> cachedRead E f <> None) ->
  ownDrawings (snd (createTranscludedText E d file text))
  = combine
      (map drawingOptions (seq 1 (length (embeddedDrawings E file text))))
      (embeddedDrawings E file text).
Proof.
  intros Hd Hread. unfold createTranscludedText.
  destruct (4 - d) as [|fuel] eqn:Hfuel; [lia|].
  cbn [transcludeWithin]. rewrite snd_bind. cbn [ret snd]. rewrite app_nil_r.
  exact (transclusion_loop_numbers E (transcludeWithin E fuel) file
           (matches transcludedRegex text)
           {| transcludedText := text; numberOfExcaliDraws := 0 |} Hread).
Qed.

(** ** The title of an embed *)

Lemma find_title pre post :
  ~ In "{"%char pre ->
  Str.find (pre ++ js "{{title}}" ++ post) (js "{{title}}") = Some (length pre).
Proof.
  intros H. change (js "{{title}}") with ("{"%char :: js "{title}}").
  apply find_first. exact H.
Qed.

(** X15: in the title of an embed the first [{{title}}] stands for the base
    name of the embedded file, whatever follows it; the title then goes
    through [fixMarkdownHeaderSyntax].  The base name comes in as the
    replacement of [String.replace], so its replacement patterns are
    expanded; a base name without a dollar sign comes in as it is. *)
Theorem title_variable_replaced E pre post transcludedFile :
  ~ In "{"%char pre ->
  generateTransclusionHeader E (Some (pre ++ js "{{title}}" ++ post))
    transcludedFile
  = Some (fixMarkdownHeaderSyntax E
            (pre ++
             Str.expand (basename transcludedFile) (js "{{title}}") pre post ++
             post)) /\
  (~ In "$"%char (basename transcludedFile) ->
   generateTransclusionHeader E (Some (pre ++ js "{{title}}" ++ post))
     transcludedFile
   = Some (fixMarkdownHeaderSyntax E
             (pre ++ basename transcludedFile ++ post))).
Proof.
  intros Hpre.
  assert (Hrun :
    generateTransclusionHeader E (Some (pre ++ js "{{title}}" ++ post))
      transcludedFile
    = Some (fixMarkdownHeaderSyntax E
              (pre ++
               Str.expand (basename transcludedFile) (js "{{title}}") pre post ++
               post))).
  { unfold generateTransclusionHeader.
    destruct (pre ++ js "{{title}}" ++ post) as [|c h] eqn:Hh.
    - destruct pre; discriminate Hh.
    - rewrite <- Hh. cbv zeta.
      unfold Str.includes. rewrite find_title by exact Hpre.
      change (js "{{title}}") with ("{"%char :: js "{title}}").
      rewrite replace_first_expand by exact Hpre. reflexivity. }
  split; [exact Hrun|].
  intros Hd. rewrite Hrun, expand_plain by exact Hd. reflexivity.
Qed.

(** ** Custom filters *)

Lemma bind_assoc {A B C} (m : M A) (f : A -> M B) (g : B -> M C) :
  bind (bind m f) g = bind m (fun x => bind (f x) g).
Proof.
  unfold bind. destruct m as [a l]. destruct (f a) as [b l'].
  destruct (g b) as [c l'']. rewrite app_assoc. reflexivity.
Qed.

Lemma bind_ext {A B} (m : M A) (f g : A -> M B) :
  (forall x, f x = g x) -> bind m f = bind m g.
Proof. intros H. unfold bind. destruct m as [a l]. rewrite H. reflexivity. Qed.

Lemma foldM_app {A S} (f : S -> A -> M S) (l1 l2 : list A) (s : S) :
  foldM f (l1 ++ l2) s = (s' <- foldM f l1 s ;; foldM f l2 s').
Proof.
  revert s. induction l1 as [|a l1 IH]; intros s.
  - cbn [app foldM]. rewrite bind_ret_l. reflexivity.
  - cbn [app foldM]. rewrite bind_assoc. apply bind_ext. exact IH.
Qed.

Lemma convertCustomFilters_app E file text l1 l2 :
  convertCustomFilters (withFilters E (l1 ++ l2)) file text
  = (text' <- convertCustomFilters (withFilters E l1) file text ;;
     convertCustomFilters (withFilters E l2) file text').
Proof.
  unfold convertCustomFilters. cbn [withFilters customFilters regExpReplace].
  apply foldM_app.
Qed.

(** X2: a custom filter whose pattern the engine rejects is skipped with a
    notice, and the filters behind it still run: the text comes out as it
    does without that filter. *)
Theorem invalid_filter_skipped E file text before filter after :
  (forall t,
      regExpReplace E (pattern filter) (flags filter) (replace filter) t = None) ->
  fst (convertCustomFilters (withFilters E (before ++ filter :: after)) file text)
  = fst (convertCustomFilters (withFilters E (before ++ after)) file text) /\
  In (invalidFilterNotice filter)
    (snd (convertCustomFilters (withFilters E (before ++ filter :: after))
            file text)).
Proof.
  intros Hbad.
  assert (Hone : forall t,
             convertCustomFilters (withFilters E [filter]) file t
             = (t, [invalidFilterNotice filter])).
  { intros t. unfold convertCustomFilters.
    cbn [withFilters customFilters regExpReplace foldM]. rewrite Hbad.
    reflexivity. }
  change (before ++ filter :: after) with (before ++ [filter] ++ after).
  split.
  - rewrite convertCustomFilters_app, fst_bind.
    rewrite convertCustomFilters_app, fst_bind, Hone. cbn [fst].
    rewrite convertCustomFilters_app, fst_bind. reflexivity.
  - rewrite convertCustomFilters_app, snd_bind.
    rewrite convertCustomFilters_app, snd_bind, Hone. cbn [fst snd].
    apply in_or_app. right. apply in_or_app. left. left. reflexivity.
Qed.

(** ** Block identifiers written *)

Lemma takeWhile_stop p id b :
  forallb p id = true ->
  match b with [] => true | c :: _ => negb (p c) end = true ->
  takeWhile p (id ++ b) = id /\ dropWhile p (id ++ b) = b.
Proof.
  intros Hid Hb. induction id as [|x id IH].
  - destruct b as [|c b]; [split; reflexivity|].
    simpl. apply negb_true_iff in Hb. rewrite Hb. split; reflexivity.
  - simpl in Hid. apply andb_true_iff in Hid. destruct Hid as [Hx Hid].
    simpl. rewrite Hx. destruct (IH Hid) as [-> ->]. split; reflexivity.
Qed.

Lemma block_match_at x id b :
  forallb isIdChar (x :: id) = true -> endsIdentifier b = true ->
  matchAt block_pattern ((js " ^" ++ x :: id) ++ b)
  = Some (js " ^" ++ x :: id, [(1, x :: id)]).
Proof.
  intros Hid Hb. simpl in Hid. apply andb_true_iff in Hid.
  destruct Hid as [Hx Hid].
  unfold matchAt. fold accept. rewrite block_run.
  rewrite <- app_assoc, startsWith_app.
  change (skipn 2 (js " ^" ++ (x :: id) ++ b)) with (x :: id ++ b).
  cbn beta iota. rewrite Hx. destruct (takeWhile_stop isIdChar id b Hid Hb) as [-> ->].
  replace (js " ^" ++ (x :: id) ++ b) with ((js " ^" ++ x :: id) ++ b)
    by (rewrite <- app_assoc; reflexivity).
  rewrite firstn_app_length. reflexivity.
Qed.

Lemma block_noMatch s : ~ In "^"%char s -> noMatch block_pattern s.
Proof.
  intros H. unfold block_pattern.
  apply (noMatch_Lit _ _ "^"%char); [right; left; reflexivity | exact H].
Qed.

Lemma complex_noMatch s : ~ In "^"%char s -> noMatch complex_block_pattern s.
Proof.
  intros H. unfold complex_block_pattern.
  apply (noMatch_Lit _ _ "^"%char); [right; left; reflexivity | exact H].
Qed.

Lemma find_lacks c p s : In c p -> ~ In c s -> Str.find s p = None.
Proof.
  intros Hp. induction s as [|x s IH]; intros Hs.
  - cbn [Str.find]. rewrite (startsWith_absent c) by assumption. reflexivity.
  - cbn [Str.find]. rewrite (startsWith_absent c) by assumption.
    rewrite IH; [reflexivity|]. intros H. apply Hs. right. exact H.
Qed.

(** A literal that does not occur in a text starts no match in it. *)
Lemma noMatch_find p r s : Str.find s p = None -> noMatch (Seq (Lit p) r) s.
Proof.
  intros Hf j. apply matchAt_run_none. rewrite run_Seq, run_Lit.
  assert (Hs : Str.startsWith (skipn j s) p = false).
  { revert j. induction s as [|x s IH]; intros j.
    - rewrite skipn_nil. cbn [Str.find] in Hf.
      destruct (Str.startsWith [] p); [discriminate | reflexivity].
    - destruct j as [|j]; [exact (find_head _ _ _ Hf)|].
      simpl. apply IH. exact (find_tail _ _ _ Hf). }
  rewrite Hs. reflexivity.
Qed.

Lemma idChar_not_caret id : forallb isIdChar id = true -> ~ In "^"%char id.
Proof.
  intros H Hin. rewrite forallb_forall in H. specialize (H _ Hin).
  discriminate H.
Qed.

(** No anchor on a line of its own in a text whose only caret stands behind
    a space. *)
Lemma trailing_not_complex a id b :
  ~ In "^"%char a -> ~ In "^"%char (id ++ b) ->
  noMatch complex_block_pattern (a ++ (js " ^" ++ id) ++ b).
Proof.
  intros Ha Hb. unfold complex_block_pattern. apply noMatch_find.
  change (js "\n^") with (nl :: "^"%char :: []).
  rewrite <- app_assoc.
  change (js " ^" ++ id ++ b) with (" "%char :: "^"%char :: id ++ b).
  rewrite find_after_second by (try exact Ha; discriminate).
  change (Str.find (" "%char :: "^"%char :: id ++ b) [nl; "^"%char])
    with (option_map S (option_map S (Str.find (id ++ b) [nl; "^"%char]))).
  rewrite (find_lacks "^"%char) by (try exact Hb; right; left; reflexivity).
  reflexivity.
Qed.

(** A greedy repetition takes the whole run when what follows matches behind
    it. *)
Lemma star_greedy_all p k r id : forall fuel b c,
  forallb p id = true ->
  match b with [] => true | x :: _ => negb (p x) end = true ->
  k b c = Some r ->
  length (id ++ b) <= fuel ->
  star true (run (Cls p)) k fuel (id ++ b) c = Some r.
Proof.
  induction id as [|x id IH]; intros fuel b c Hid Hb Hk Hl.
  - simpl app. destruct fuel as [|fuel]; cbn [star]; [exact Hk|].
    destruct b as [|y b]; cbn [run]; [exact Hk|].
    apply negb_true_iff in Hb. rewrite Hb. exact Hk.
  - simpl in Hid. apply andb_true_iff in Hid. destruct Hid as [Hx Hid].
    destruct fuel as [|fuel]; [simpl in Hl; lia|].
    simpl app. cbn [star]. rewrite run_Cls_cons by exact Hx.
    replace (length (id ++ b) <? length (x :: id ++ b)) with true
      by (symmetry; apply Nat.ltb_lt; simpl; lia).
    rewrite (IH fuel b c Hid Hb Hk) by (simpl in Hl; lia). reflexivity.
Qed.

Lemma complex_match_at x id b :
  forallb isIdChar (x :: id) = true ->
  matchAt complex_block_pattern ((js "\n^" ++ (x :: id) ++ js "\n") ++ b)
  = Some (js "\n^" ++ (x :: id) ++ js "\n", [(1, x :: id)]).
Proof.
  intros Hid. simpl in Hid. apply andb_true_iff in Hid. destruct Hid as [Hx Hid].
  unfold matchAt. fold accept.
  assert (Hrun :
    run complex_block_pattern ((js "\n^" ++ (x :: id) ++ js "\n") ++ b) [] accept
    = Some (b, [(1, x :: id)])).
  { unfold complex_block_pattern, Plus.
    replace ((js "\n^" ++ (x :: id) ++ js "\n") ++ b)
      with (js "\n^" ++ x :: id ++ nl :: b)
      by (rewrite <- !app_assoc; reflexivity).
    rewrite run_Seq, run_Lit_app.
    rewrite run_Seq.
    change (run (Grp 1 (Seq (Cls isIdChar) (Star true (Cls isIdChar))))
              (x :: id ++ nl :: b) []
              (fun s' c' => run (Chr nl) s' c' accept))
      with (run (Cls isIdChar) (x :: id ++ nl :: b) []
              (fun s' c' =>
                 star true (run (Cls isIdChar))
                   (fun s'' c'' =>
                      run (Chr nl) s''
                        ((1, firstn (length (x :: id ++ nl :: b) - length s'')
                               (x :: id ++ nl :: b)) :: c'') accept)
                   (length s') s' c')).
    rewrite run_Cls_cons by exact Hx.
    apply star_greedy_all; [exact Hid | reflexivity | | lia].
    cbn [run].
    rewrite Ascii.eqb_refl. unfold accept. do 4 f_equal.
    change (x :: id ++ nl :: b) with ((x :: id) ++ nl :: b).
    apply firstn_app_length. }
  rewrite Hrun. rewrite firstn_app_length. reflexivity.
Qed.

(** X3: an anchor behind a text is put on a line of its own in braces, and an
    anchor on a line of its own is put in braces at the end of the line
    before, followed by an empty line. *)
Theorem block_ids_written file a id b :
  id <> [] -> forallb isIdChar id = true ->
  ~ In "^"%char a -> ~ In "^"%char b ->
  (endsIdentifier b = true ->
   createBlockIDs file (a ++ (js " ^" ++ id) ++ b)
   = a ++ (js "\n{ #" ++ id ++ js "}\n") ++ b) /\
  createBlockIDs file (a ++ (js "\n^" ++ id ++ js "\n") ++ b)
  = a ++ (js "{ #" ++ id ++ js "}\n\n") ++ b.
Proof.
  intros Hne Hid Ha Hb. destruct id as [|x id]; [contradiction|].
  assert (Hidc := idChar_not_caret _ Hid).
  split.
  - intros He. unfold createBlockIDs, replaceAll.
    rewrite (noMatch_replaceWith complex_block_pattern)
      by (apply trailing_not_complex; [exact Ha | apply not_in_app; assumption]).
    rewrite (replaceWith_single block_pattern _ a (js " ^" ++ x :: id)
               [(1, x :: id)] b).
    + reflexivity.
    + change (js " ^" ++ x :: id) with (" "%char :: "^"%char :: x :: id).
      rewrite <- app_comm_cons.
      apply (gap_second " "%char "^"%char []); [exact Ha | discriminate].
    + apply block_match_at; assumption.
    + discriminate.
    + apply block_noMatch. exact Hb.
  - unfold createBlockIDs, replaceAll.
    rewrite (replaceWith_single complex_block_pattern _ a
               (js "\n^" ++ (x :: id) ++ js "\n") [(1, x :: id)] b).
    + apply noMatch_replaceWith. apply block_noMatch.
      repeat apply not_in_app; try assumption;
        vm_compute; intuition discriminate.
    + change (js "\n^" ++ (x :: id) ++ js "\n")
        with (nl :: "^"%char :: (x :: id) ++ js "\n").
      rewrite <- app_comm_cons.
      apply (gap_second nl "^"%char []); [exact Ha | discriminate].
    + apply complex_match_at. exact Hid.
    + discriminate.
    + apply complex_noMatch. exact Hb.
Qed.

(** ** Images that are left alone *)

(** X19: when none of the images of a text resolves to a file that can be
    read, the text comes back as it is and there is no asset. *)
Theorem unresolved_images_left_alone E text filePath :
  (forall m linkedFile,
      In m (matches transcludedImageRegex text) ->
      embedImageFile E filePath m = Some linkedFile ->
      readBinary E linkedFile = None) ->
  (forall m linkedFile,
      In m (matches imageRegex text) ->
      markdownImageFile E filePath m = Some linkedFile ->
      readBinary E linkedFile = None) ->
  convertImageLinks E text filePath = (text, []).
Proof.
  intros He Hi. unfold convertImageLinks. cbv zeta.
  rewrite (fold_left_unchanged (convertTranscludedImage E filePath)).
  - apply fold_left_unchanged. intros m Hm. specialize (Hi m).
    unfold markdownImageFile in Hi. cbv zeta in Hi.
    unfold convertMarkdownImage.
    destruct (Str.startsWith _ (js "http")); [reflexivity|].
    destruct (decodeURI E _) as [d|]; [|reflexivity].
    destruct (getFirstLinkpathDest E d filePath) as [f|]; [|reflexivity].
    rewrite (Hi f Hm eq_refl). reflexivity.
  - intros m Hm. specialize (He m). unfold embedImageFile in He.
    unfold convertTranscludedImage.
    destruct (getFirstLinkpathDest E _ filePath) as [f|]; [|reflexivity].
    rewrite (He f Hm eq_refl). reflexivity.
Qed.

(** The path of a markdown image. *)
Lemma image_path pre p :
  ~ In "("%char p ->
  Str.substring (pre ++ js "(" ++ p ++ js ")")
    (Str.lastIndexOf (pre ++ js "(" ++ p ++ js ")") (js "(") + 1)
    (Str.lastIndexOf (pre ++ js "(" ++ p ++ js ")") (js ")"))
  = p.
Proof.
  intros Ho.
  assert (H1 : Str.lastIndexOf (pre ++ js "(" ++ p ++ js ")") (js "(")
               = Z.of_nat (length pre)).
  { change (js "(" ++ p ++ js ")") with ("("%char :: p ++ js ")").
    change (js "(") with ["("%char].
    apply lastIndexOf_final. apply not_in_app; [exact Ho|].
    intros [H|[]]. discriminate H. }
  assert (H2 : Str.lastIndexOf (pre ++ js "(" ++ p ++ js ")") (js ")")
               = Z.of_nat (length (pre ++ js "(") + length p)).
  { replace (pre ++ js "(" ++ p ++ js ")")
      with ((pre ++ js "(" ++ p) ++ ")"%char :: [])
      by (rewrite <- !app_assoc; reflexivity).
    change (js ")") with [")"%char].
    rewrite lastIndexOf_final by (intros []).
    rewrite !length_app. f_equal. lia. }
  rewrite H1, H2.
  replace (Z.of_nat (length pre) + 1)%Z with (Z.of_nat (length (pre ++ js "(")))
    by (rewrite length_app; simpl length; lia).
  rewrite (app_assoc pre (js "(")).
  apply substring_middle.
Qed.

(** ** Prose *)

Lemma in_firstn {A} (x : A) n l : In x (firstn n l) -> In x l.
Proof.
  intros H. rewrite <- (firstn_skipn n l). apply in_or_app. left. exact H.
Qed.

Lemma in_skipn {A} (x : A) n l : In x (skipn n l) -> In x l.
Proof.
  intros H. rewrite <- (firstn_skipn n l). apply in_or_app. right. exact H.
Qed.

Lemma rebuild_in c spans : forall s pos,
  In c (Pat.rebuild spans (fun _ => []) s pos) -> In c s.
Proof.
  induction spans as [|[o l] spans IH]; intros s pos H; cbn [Pat.rebuild] in H.
  - exact (in_skipn _ _ _ H).
  - apply in_app_or in H. destruct H as [H|H].
    + exact (in_skipn _ _ _ (in_firstn _ _ _ H)).
    + simpl in H. apply IH in H. exact H.
Qed.

Lemma remove_lacks c p s : ~ In c s -> ~ In c (Pat.remove p s).
Proof.
  intros H Hin. apply H. unfold Pat.remove, Pat.replaceAll in Hin.
  apply rebuild_in in Hin. exact Hin.
Qed.

Lemma strip_lacks E file c text :
  ~ In c text -> ~ In c (stripAwayCodeFencesAndFrontmatter E file text).
Proof.
  intros H. unfold stripAwayCodeFencesAndFrontmatter. cbv zeta.
  repeat apply remove_lacks. exact H.
Qed.

Lemma convertFrontMatter_none E file text :
  FRONTMATTER_REGEX E text = [] -> convertFrontMatter E file text = text.
Proof.
  intros H. unfold convertFrontMatter, Pat.replaceAll. rewrite H. reflexivity.
Qed.

Lemma createBlockIDs_no_caret file text :
  ~ In "^"%char text -> createBlockIDs file text = text.
Proof.
  intros H. apply createBlockIDs_fixed.
  - apply matches_noMatch, complex_noMatch. exact H.
  - apply block_noMatch. exact H.
Qed.

Lemma createTranscludedText_no_bracket E d file text :
  ~ In "["%char text -> createTranscludedText E d file text = ret text.
Proof.
  intros H. apply createTranscludedText_unresolved.
  rewrite (proj2 (matches_noMatch _ _) (transcluded_noMatch _ H)).
  intros m [].
Qed.

Lemma convertLinksToFullPath_no_bracket E file text :
  ~ In "["%char text -> convertLinksToFullPath E file text = text.
Proof.
  intros H. unfold convertLinksToFullPath. cbv zeta.
  rewrite (proj2 (matches_noMatch _ _)
             (linkedFile_noMatch _ (strip_lacks E file _ _ H))).
  reflexivity.
Qed.

Lemma comments_noMatch s : ~ In "%"%char s -> noMatch obsidianCommentsRegex s.
Proof.
  intros H. unfold obsidianCommentsRegex.
  apply (noMatch_Lit _ _ "%"%char); [left; reflexivity | exact H].
Qed.

Lemma removeObsidianComments_no_percent E file text :
  ~ In "%"%char text -> removeObsidianComments E file text = text.
Proof.
  intros H. unfold removeObsidianComments. cbv zeta.
  rewrite (proj2 (matches_noMatch _ _) (comments_noMatch _ H)). reflexivity.
Qed.

Lemma linkedSvg_noMatch s : ~ In "["%char s -> noMatch linkedSvgRegex s.
Proof.
  intros H. unfold linkedSvgRegex.
  apply (noMatch_Lit _ _ "["%char); [right; left; reflexivity | exact H].
Qed.

Lemma createSvgEmbeds_no_bracket E file text :
  TRANSCLUDED_SVG_REGEX E text = [] -> ~ In "["%char text ->
  createSvgEmbeds E file text = text.
Proof.
  intros Hp H. unfold createSvgEmbeds, Pat.matches. rewrite Hp. cbv zeta.
  cbn [map fold_left].
  rewrite (proj2 (matches_noMatch _ _) (linkedSvg_noMatch _ H)). reflexivity.
Qed.

Lemma convertImageLinks_no_bracket E text filePath :
  ~ In "["%char text -> convertImageLinks E text filePath = (text, []).
Proof.
  intros H. unfold convertImageLinks. cbv zeta.
  rewrite (proj2 (matches_noMatch _ _) (transcludedImage_noMatch _ H)).
  rewrite (proj2 (matches_noMatch _ _) (image_noMatch _ H)). reflexivity.
Qed.

(** X1: a note of plain prose is published as it is written: without a
    bracket, a caret, a backtick or a percent sign in the text, without
    front matter and without custom filters, every pass leaves the text
    alone; there is no asset and no event. *)
Theorem prose_compiles_to_itself E file text :
  cachedRead E file = Some text ->
  Str.endsWith (name file) (js ".excalidraw.md") = false ->
  customFilters E = [] ->
  FRONTMATTER_REGEX E text = [] -> TRANSCLUDED_SVG_REGEX E text = [] ->
  ~ In "["%char text -> ~ In "^"%char text ->
  ~ In "`"%char text -> ~ In "%"%char text ->
  generateMarkdown E file = ret (Some (text, [])).
Proof.
  intros Hr Hn Hf Hfm Hsvg Hb Hc Ht Hp.
  unfold generateMarkdown. rewrite Hr, Hn.
  unfold COMPILE_STEPS, pure. cbn [foldM].
  rewrite convertFrontMatter_none by exact Hfm. rewrite bind_ret_l.
  rewrite convertCustomFilters_none by exact Hf. rewrite bind_ret_l.
  rewrite createBlockIDs_no_caret by exact Hc. rewrite bind_ret_l.
  rewrite createTranscludedText_no_bracket by exact Hb. rewrite bind_ret_l.
  rewrite convertDataViews_no_backtick by exact Ht. rewrite bind_ret_l.
  rewrite convertLinksToFullPath_no_bracket by exact Hb. rewrite bind_ret_l.
  rewrite removeObsidianComments_no_percent by exact Hp. rewrite bind_ret_l.
  rewrite createSvgEmbeds_no_bracket by assumption. rewrite !bind_ret_l.
  rewrite convertImageLinks_no_bracket by exact Hb. reflexivity.
Qed.

(** ** SVG files *)

Lemma run_Grp_Star n g p s c k :
  run (Grp n (Star g (Cls p))) s c k
  = star g (run (Cls p))
      (fun s' c' => k s' ((n, firstn (length s - length s') s) :: c'))
      (length s) s c.
Proof. reflexivity. Qed.

(** The extension and the closing parenthesis. *)
Lemma svg_extension_run rest c :
  exists c',
    run (Seq (Grp 3 (Seq (Chr "."%char) (Grp 4 (Lit (js "svg")))))
           (Chr ")"%char))
      (js ".svg)" ++ rest) c accept
    = Some (rest, c').
Proof. eexists. simpl. reflexivity. Qed.

Lemma svg_extension_fails x t c :
  x <> "."%char ->
  run (Seq (Grp 3 (Seq (Chr "."%char) (Grp 4 (Lit (js "svg")))))
         (Chr ")"%char))
    (x :: t) c accept
  = None.
Proof.
  intros H. cbn [run]. rewrite (proj2 (Ascii.eqb_neq x "."%char) H).
  reflexivity.
Qed.

Lemma linkedSvg_match alt p rest :
  forallb isDot alt = true -> ~ In "]"%char alt ->
  forallb isDot p = true -> ~ In "."%char p ->
  exists c,
    matchAt linkedSvgRegex (svgImage alt p ++ rest) = Some (svgImage alt p, c).
Proof.
  intros Hda Hca Hdp Hcp.
  assert (Hrun : exists c,
    run linkedSvgRegex (svgImage alt p ++ rest) [] accept = Some (rest, c)).
  { unfold linkedSvgRegex, svgImage.
    replace ((js "![" ++ alt ++ js "](" ++ p ++ js ".svg)") ++ rest)
      with (js "![" ++ alt ++ js "](" ++ p ++ js ".svg)" ++ rest)
      by (rewrite <- !app_assoc; reflexivity).
    destruct (svg_extension_run rest
                [(2, p); (1, alt)]) as [c Hc].
    exists c.
    rewrite run_Seq, run_Lit_app. rewrite run_Seq, run_Grp_Star.
    apply star_lazy_first.
    - exact Hda.
    - intros j Hj. rewrite run_Seq, run_Lit.
      destruct (skipn_inside j alt (js "](" ++ p ++ js ".svg)" ++ rest) Hj)
        as (y & t & -> & Hy).
      change (js "](") with ("]"%char :: js "(").
      rewrite startsWith_head; [reflexivity|]. intros ->. exact (Hca Hy).
    - rewrite run_Seq, run_Lit_app. rewrite run_Seq, run_Grp_Star.
      apply star_lazy_first.
      + exact Hdp.
      + intros j Hj.
        destruct (skipn_inside j p (js ".svg)" ++ rest) Hj) as (y & t & -> & Hy).
        apply svg_extension_fails. intros ->. exact (Hcp Hy).
      + cbn beta. rewrite !firstn_app_length. exact Hc.
      + lia.
    - lia. }
  destruct Hrun as [c Hrun]. exists c.
  unfold matchAt. fold accept. rewrite Hrun, firstn_app_length. reflexivity.
Qed.

Lemma svgImage_found a alt p b :
  ~ In "["%char a ->
  Str.find (a ++ svgImage alt p ++ b) (svgImage alt p) = Some (length a).
Proof.
  intros Ha. unfold svgImage.
  change (js "![" ++ alt ++ js "](" ++ p ++ js ".svg)")
    with ("!"%char :: "["%char :: alt ++ js "](" ++ p ++ js ".svg)").
  rewrite <- app_comm_cons.
  rewrite find_after_second by (try exact Ha; discriminate).
  rewrite app_comm_cons.
  rewrite (find_at_start
             ("!"%char :: "["%char :: alt ++ js "](" ++ p ++ js ".svg)") b).
  simpl. f_equal. lia.
Qed.

Lemma svgImage_path alt p :
  ~ In "("%char p ->
  Str.substring (svgImage alt p)
    (Str.lastIndexOf (svgImage alt p) (js "(") + 1)
    (Str.lastIndexOf (svgImage alt p) (js ")"))
  = p ++ js ".svg".
Proof.
  intros Hp.
  replace (svgImage alt p)
    with ((js "![" ++ alt ++ js "]") ++ js "(" ++ (p ++ js ".svg") ++ js ")")
    by (unfold svgImage; rewrite <- !app_assoc; reflexivity).
  apply image_path. apply not_in_app; [exact Hp|].
  vm_compute. intuition discriminate.
Qed.

(** The text an embed or an image is split from: what stands between the
    second code unit behind the first opening bracket and the first closing
    bracket. *)
Lemma svgImage_label c label p :
  ~ In "]"%char (c :: label) ->
  Str.substring (svgImage (c :: label) p)
    (Str.indexOf (svgImage (c :: label) p) (js "[") + 2)
    (Str.indexOf (svgImage (c :: label) p) (js "]"))
  = label.
Proof.
  intros Hc.
  assert (H1 : Str.indexOf (svgImage (c :: label) p) (js "[") = 1%Z)
    by reflexivity.
  assert (H2 : Str.indexOf (svgImage (c :: label) p) (js "]")
               = Z.of_nat (3 + length label)).
  { unfold Str.indexOf, svgImage.
    replace (js "![" ++ (c :: label) ++ js "](" ++ p ++ js ".svg)")
      with ((js "![" ++ c :: label) ++ ["]"%char] ++ (js "(" ++ p ++ js ".svg)"))
      by (rewrite <- !app_assoc; reflexivity).
    change (js "]") with ["]"%char].
    rewrite find_first.
    - rewrite length_app. reflexivity.
    - apply not_in_app; [vm_compute; intuition discriminate | exact Hc]. }
  rewrite H1, H2.
  replace (svgImage (c :: label) p)
    with ((js "![" ++ [c]) ++ label ++ (js "](" ++ p ++ js ".svg)"))
    by (unfold svgImage; rewrite <- !app_assoc; reflexivity).
  exact (substring_middle (js "![" ++ [c]) label (js "](" ++ p ++ js ".svg)")).
Qed.

Section LinkedSvg.

Variable E : Env.
Variables (file linkedFile : TFile) (a alt p b : str).

Hypothesis Hnone : TRANSCLUDED_SVG_REGEX E (a ++ svgImage alt p ++ b) = [].
Hypothesis Ha : ~ In "["%char a.
Hypothesis Hb : ~ In "["%char b.
Hypothesis Hda : forallb isDot alt = true.
Hypothesis Hca : ~ In "]"%char alt.
Hypothesis Hdp : forallb isDot p = true.
Hypothesis Hpp : ~ In "."%char p.
Hypothesis Hpo : ~ In "("%char p.
Hypothesis Hlocal : Str.startsWith (p ++ js ".svg") (js "http") = false.
Hypothesis Hresolves :
  getFirstLinkpathDest E (p ++ js ".svg") (getPath file) = Some linkedFile.

Lemma createSvgEmbeds_linked :
  createSvgEmbeds E file (a ++ svgImage alt p ++ b)
  = inlineSvg E linkedFile (snd (embedParts (svgImage alt p)))
      (a ++ svgImage alt p ++ b) (svgImage alt p).
Proof.
  unfold createSvgEmbeds, Pat.matches. rewrite Hnone. cbv zeta.
  cbn [map fold_left].
  destruct (linkedSvg_match alt p b Hda Hca Hdp Hpp) as [c Hm].
  rewrite (matches_single linkedSvgRegex a (svgImage alt p) c b).
  - cbn [fold_left]. destruct (embedParts (svgImage alt p)) as [n size].
    rewrite svgImage_path by exact Hpo. rewrite Hlocal, Hresolves. reflexivity.
  - unfold svgImage.
    change (js "![" ++ alt ++ js "](" ++ p ++ js ".svg)")
      with ("!"%char :: "["%char :: alt ++ js "](" ++ p ++ js ".svg)").
    rewrite <- app_comm_cons.
    apply (gap_second "!"%char "["%char []); [exact Ha | discriminate].
  - exact Hm.
  - discriminate.
  - apply linkedSvg_noMatch. exact Hb.
Qed.

End LinkedSvg.

(** X16: a markdown image of an SVG file of the vault, the only image of a
    text, is replaced by the text of the file.  The size is read from the
    alternative text behind its first code unit, which is not looked at:
    when what follows it is a name, a bar and a size, the text of the file
    goes through [setWidth] with that size first; when it holds no bar, the
    text of the file is taken as it is.  The text comes in as the
    replacement of [String.replace]. *)
Theorem linked_svg_inlined E file a alt p b linkedFile svgText :
  TRANSCLUDED_SVG_REGEX E (a ++ svgImage alt p ++ b) = [] ->
  ~ In "["%char a -> ~ In "["%char b ->
  forallb isDot alt = true -> ~ In "]"%char alt ->
  forallb isDot p = true -> ~ In "."%char p -> ~ In "("%char p ->
  Str.startsWith (p ++ js ".svg") (js "http") = false ->
  getFirstLinkpathDest E (p ++ js ".svg") (getPath file) = Some linkedFile ->
  read E linkedFile = Some svgText ->
  (~ In "|"%char (tl alt) ->
   createSvgEmbeds E file (a ++ svgImage alt p ++ b)
   = a ++ Str.expand svgText (svgImage alt p) a b ++ b) /\
  (forall c name size sized,
      alt = c :: name ++ js "|" ++ size ->
      ~ In "|"%char name -> ~ In "|"%char size ->
      size <> [] -> svgText <> [] ->
      setWidth E svgText size = Some sized ->
      createSvgEmbeds E file (a ++ svgImage alt p ++ b)
      = a ++ Str.expand sized (svgImage alt p) a b ++ b).
Proof.
  intros Hnone Ha Hb Hda Hca Hdp Hpp Hpo Hlocal Hr Hread.
  rewrite (createSvgEmbeds_linked E file linkedFile a alt p b) by assumption.
  split.
  - intros Hbar.
    assert (Hsize : snd (embedParts (svgImage alt p)) = None).
    { unfold embedParts. destruct alt as [|c label].
      - reflexivity.
      - rewrite svgImage_label by exact Hca.
        change (js "|") with ["|"%char].
        rewrite split_one by exact Hbar.
        reflexivity. }
    rewrite Hsize. unfold inlineSvg. rewrite Hread.
    assert (Hrep : Str.replace (a ++ svgImage alt p ++ b) (svgImage alt p) svgText
                   = a ++ Str.expand svgText (svgImage alt p) a b ++ b)
      by (apply replace_at, svgImage_found; exact Ha).
    destruct svgText; exact Hrep.
  - intros c name size sized Halt Hn Hs Hne Hsvg Hw. subst alt.
    assert (Hsize : snd (embedParts (svgImage (c :: name ++ js "|" ++ size) p))
                    = Some size).
    { unfold embedParts. rewrite svgImage_label by exact Hca.
      change (js "|") with ["|"%char].
      rewrite split_two by assumption. reflexivity. }
    rewrite Hsize. unfold inlineSvg. rewrite Hread.
    destruct svgText as [|x svgText]; [contradiction|].
    destruct size as [|y size]; [contradiction|].
    rewrite Hw.
    apply replace_at, svgImage_found. exact Ha.
Qed.

(** ** Links read back *)

(** X7: reading a link gives back what it was written from: for a link in
    the escaped form the pass writes, and for a link as an author writes it,
    the name, the header path and the display name. *)
Theorem link_reads_back name header display :
  plainWord name = true -> isHeaderPath header ->
  plainWord display = true -> display <> [] ->
  parseLink (escapedLink name header display)
  = {| linkedFileName := name; headerPath := header;
       linkDisplayName := display |} /\
  (Str.endsWith (name ++ header) [bsl] = false ->
   parseLink (js "[[" ++ name ++ header ++ js "|" ++ display ++ js "]]")
   = {| linkedFileName := name; headerPath := header;
        linkDisplayName := display |}).
Proof.
  intros Hn Hh Hd Hne. split.
  - apply parseLink_escaped; assumption.
  - intros He. apply parseLink_authored; assumption.
Qed.

(** ** A comment outside code *)

Lemma comment_match_at x y rest :
  ~ In "%"%char y ->
  matchAt obsidianCommentsRegex (comment x y ++ rest) = Some (comment x y, []).
Proof.
  intros Hy. unfold matchAt. fold accept. rewrite comment_run.
  unfold comment. rewrite <- app_assoc, startsWith_app.
  change (skipn 2 (js "%%" ++ (x :: y ++ js "%%") ++ rest))
    with (x :: (y ++ js "%%") ++ rest).
  cbn beta iota. rewrite <- app_assoc.
  change (js "%%") with ("%"%char :: js "%") at 1.
  rewrite find_first by exact Hy.
  replace (length y + 2) with (length (y ++ js "%%"))
    by (rewrite length_app; reflexivity).
  change ("%"%char :: js "%") with (js "%%").
  rewrite (app_assoc y (js "%%") rest), skipn_app_length.
  replace (js "%%" ++ (x :: y ++ js "%%") ++ rest)
    with ((js "%%" ++ x :: y ++ js "%%") ++ rest)
    by (rewrite <- !app_assoc; reflexivity).
  rewrite firstn_app_length. reflexivity.
Qed.

(** X4: a comment in a text without code, code fence or drawing data is taken
    out, with its percent signs, also when it runs over several lines. *)
Theorem comment_removed E file a x y b :
  noCodeRegion E (a ++ comment x y ++ b) ->
  ~ In "%"%char a -> ~ In "%"%char y -> ~ In "%"%char b ->
  removeObsidianComments E file (a ++ comment x y ++ b) = a ++ b.
Proof.
  intros (H1 & H2 & H3) Ha Hy Hb.
  unfold removeObsidianComments, Pat.matches. rewrite H1, H2, H3. cbv zeta.
  rewrite (matches_single obsidianCommentsRegex a (comment x y) [] b).
  - cbn [fold_left map containedIn existsb].
    change (comment x y) with ("%"%char :: js "%" ++ x :: y ++ js "%%").
    rewrite replace_first; [reflexivity | exact Ha | intros []].
  - change (comment x y) with ("%"%char :: js "%" ++ x :: y ++ js "%%").
    exact (gap_first "%"%char (js "%") _ a _ Ha).
  - apply comment_match_at. exact Hy.
  - discriminate.
  - apply comments_noMatch. exact Hb.
Qed.

(** ** Embeds of drawings *)



(** ** Links and embeds that the loops pass over *)

Lemma first_occurrence_unique (c : ascii) (x i r r' : str) :
  ~ In c x -> ~ In c i -> x ++ c :: r = i ++ c :: r' -> x = i.
Proof.
  revert i. induction x as [|a x IH]; intros [|b i] Hx Hi H; simpl in H.
  - reflexivity.
  - exfalso. apply Hi. left. congruence.
  - exfalso. apply Hx. left. congruence.
  - injection H as -> H. f_equal. apply (IH i); [| |exact H].
    + intros Hin. apply Hx. right. exact Hin.
    + intros Hin. apply Hi. right. exact Hin.
Qed.

(** What [String.replace] does to a text. *)
Lemma replace_cases t m r :
  Str.replace t m r = t \/
  exists P Q, t = P ++ m ++ Q /\ Str.replace t m r = P ++ Str.expand r m P Q ++ Q.
Proof.
  unfold Str.replace. destruct (Str.find t m) as [i|] eqn:Hf; [|left; reflexivity].
  right. exists (firstn i t), (skipn (i + length m) t).
  split; [apply find_split; exact Hf | reflexivity].
Qed.

Section Apart.

(** Two texts of which neither begins inside the other. *)
Variables L m : str.

Hypothesis same_start : forall B Q, L ++ B = m ++ Q -> False.
Hypothesis tail_of_m :
  forall l l' B Q, m = l ++ l' -> l <> [] -> l' <> [] -> L ++ B = l' ++ Q -> False.
Hypothesis tail_of_L :
  forall l l' B Q, L = l ++ l' -> l <> [] -> l' <> [] -> m ++ Q = l' ++ B -> False.

Lemma apart A B P Q :
  A ++ L ++ B = P ++ m ++ Q ->
  (exists Q', A = P ++ m ++ Q' /\ Q = Q' ++ L ++ B) \/
  (exists P', B = P' ++ m ++ Q /\ P = A ++ L ++ P').
Proof.
  intros H. apply app_eq_app in H. destruct H as (l & [[HA HQ]|[HP HL]]).
  - (* the occurrence of [m] starts in [A] *)
    apply app_eq_app in HQ. destruct HQ as (l' & [[Hm HB]|[Hl HQ]]).
    + destruct l' as [|y l'].
      * rewrite app_nil_r in Hm. subst m. left. exists [].
        split; [rewrite app_nil_r; exact HA | exact (eq_sym HB)].
      * destruct l as [|x l].
        -- exfalso. simpl in Hm. subst m. exact (same_start B Q HB).
        -- exfalso. apply (tail_of_m (x :: l) (y :: l') B Q Hm);
             [discriminate | discriminate | exact HB].
    + left. exists l'. split; [subst l; exact HA | exact HQ].
  - (* the occurrence of [m] starts in [L ++ B] *)
    apply app_eq_app in HL. destruct HL as (l' & [[HLl HmQ]|[Hl HB]]).
    + destruct l' as [|y l'].
      * rewrite app_nil_r in HLl. subst l. right. exists [].
        split; [exact (eq_sym HmQ) | rewrite app_nil_r; exact HP].
      * destruct l as [|x l].
        -- exfalso. simpl in HLl. subst L. exact (same_start B Q (eq_sym HmQ)).
        -- exfalso. apply (tail_of_L (x :: l) (y :: l') B Q HLl);
             [discriminate | discriminate | exact HmQ].
    + right. exists l'. split; [exact HB|].
      subst l. exact HP.
Qed.

Lemma replace_keeps t r : keeps L t -> keeps L (Str.replace t m r).
Proof.
  intros (A & B & ->).
  destruct (replace_cases (A ++ L ++ B) m r) as [->|(P & Q & Ht & ->)].
  - exists A, B. reflexivity.
  - destruct (apart A B P Q Ht) as [(Q' & -> & ->)|(P' & -> & ->)].
    + exists (P ++ Str.expand r m P (Q' ++ L ++ B) ++ Q'), B.
      rewrite <- !app_assoc. reflexivity.
    + exists A, (P' ++ Str.expand r m (A ++ L ++ P') Q ++ Q).
      rewrite <- !app_assoc. reflexivity.
Qed.

End Apart.

(** *** Links *)

Lemma link_same_start x i B Q :
  ~ In "]"%char x -> ~ In "]"%char i ->
  (js "[[" ++ x ++ js "]]") ++ B = (js "[[" ++ i ++ js "]]") ++ Q -> x = i.
Proof.
  intros Hx Hi H. rewrite <- !app_assoc in H.
  change (js "[[") with ("["%char :: "["%char :: []) in H.
  change (js "]]") with ("]"%char :: "]"%char :: []) in H.
  simpl in H. injection H as H.
  exact (first_occurrence_unique "]"%char x i _ _ Hx Hi H).
Qed.

(** No link begins inside another link of one name. *)
Lemma link_tail x i l l' B Q :
  ~ In "["%char i ->
  js "[[" ++ i ++ js "]]" = l ++ l' -> l <> [] -> l' <> [] ->
  (js "[[" ++ x ++ js "]]") ++ B = l' ++ Q -> False.
Proof.
  intros Hi Hm Hl Hl' H.
  change (js "[[") with ("["%char :: "["%char :: []) in Hm, H.
  change (js "]]") with ("]"%char :: "]"%char :: []) in Hm, H.
  destruct l as [|c l]; [contradiction|].
  destruct l' as [|d l']; [contradiction|].
  simpl in Hm, H. injection Hm as _ Hm. injection H as Hd H. subst d.
  destruct l as [|c2 l]; simpl in Hm.
  - (* the tail is the link without its first bracket *)
    injection Hm as Hm. subst l'. destruct i as [|y i]; simpl in H.
    + discriminate H.
    + injection H as H _. apply Hi. left. exact (eq_sym H).
  - injection Hm as _ Hm.
    assert (Hin : In "["%char (i ++ ["]"%char; "]"%char])).
    { rewrite Hm. apply in_or_app. right. left. reflexivity. }
    apply in_app_or in Hin. destruct Hin as [Hin|[Hin|[Hin|[]]]];
      [exact (Hi Hin) | discriminate Hin | discriminate Hin].
Qed.

Lemma convertLink_cases E file t m :
  convertLink E file t m = t \/
  nonMarkdown E file m = false /\
  exists r, convertLink E file t m = Str.replace t m r.
Proof.
  unfold convertLink, nonMarkdown.
  destruct (linkedFileOf E file m) as [f|].
  - destruct (Str.eqb (extension f) (js "md")); [|left; reflexivity].
    right. split; [reflexivity|]. eexists. reflexivity.
  - right. split; [reflexivity|]. eexists. reflexivity.
Qed.

Lemma convertLink_keeps E file x t m :
  ~ In "["%char x -> ~ In "]"%char x ->
  nonMarkdown E file (js "[[" ++ x ++ js "]]") = true ->
  (nonMarkdown E file m = false -> plainLink m) ->
  keeps (js "[[" ++ x ++ js "]]") t ->
  keeps (js "[[" ++ x ++ js "]]") (convertLink E file t m).
Proof.
  intros Hx1 Hx2 Hn Hplain Hk.
  destruct (convertLink_cases E file t m) as [->|(Hm & r & ->)]; [exact Hk|].
  destruct (Hplain Hm) as (i & -> & Hi1 & Hi2).
  assert (Hne : x <> i) by (intros ->; congruence).
  apply replace_keeps; [| | |exact Hk].
  - intros B Q H. apply Hne. exact (link_same_start x i B Q Hx2 Hi2 H).
  - intros l l' B Q. apply link_tail. exact Hi1.
  - intros l l' B Q Hl H1 H2 H. exact (link_tail i x l l' Q B Hx1 Hl H1 H2 H).
Qed.

Lemma Forall_filter {A} (p : A -> bool) (Q : A -> Prop) (l : list A) :
  Forall Q (filter p l) -> Forall (fun a => p a = true -> Q a) l.
Proof.
  rewrite !Forall_forall. intros H a Ha Hp. apply H. apply filter_In.
  split; assumption.
Qed.

Lemma fold_left_keeps {A} (P : str -> Prop) (f : str -> A -> str)
  (Q : A -> Prop) (l : list A) :
  (forall t a, Q a -> P t -> P (f t a)) ->
  Forall Q l -> forall t, P t -> P (fold_left f l t).
Proof.
  intros H Hl. induction Hl as [|a l Ha Hl IH]; intros t Ht; simpl;
    [exact Ht|].
  apply IH. apply H; assumption.
Qed.

Lemma fold_left_filter {A S} (f : S -> A -> S) (p : A -> bool) (l : list A) :
  (forall s a, p a = false -> f s a = s) ->
  forall s, fold_left f (filter p l) s = fold_left f l s.
Proof.
  intros H. induction l as [|a l IH]; intros s; simpl; [reflexivity|].
  destruct (p a) eqn:Hp; simpl; [apply IH|].
  rewrite (H s a Hp). apply IH.
Qed.

(** A link to a picture does not always stay as it is written: the text of
    a link that is rewritten can stand inside it. *)
Lemma nested_link_rewritten :
  ~ (forall E file text linkMatch linkedFile,
        In linkMatch
          (matches linkedFileRegex
             (stripAwayCodeFencesAndFrontmatter E file text)) ->
        linkedFileOf E file linkMatch = Some linkedFile ->
        Str.eqb (extension linkedFile) (js "md") = false ->
        keeps linkMatch (convertLinksToFullPath E file text)).
Proof.
  intros H.
  specialize (H (Vault.plain Vault.nested) Vault.root
                (js "[[pic.png|see [[note]]]] and [[note]]")
                (js "[[pic.png|see [[note]]")
                (Vault.image "assets/" "pic" "png")).
  assert (Hout :
    convertLinksToFullPath (Vault.plain Vault.nested) Vault.root
      (js "[[pic.png|see [[note]]]] and [[note]]")
    = js "[[pic.png|see [[note\\|note]]]] and [[note]]")
    by (vm_compute; reflexivity).
  rewrite Hout in H.
  destruct H as (before & after & Hk);
    [vm_compute; left; reflexivity | vm_compute; reflexivity
    | vm_compute; reflexivity |].
  assert (Hf : Str.find (js "[[pic.png|see [[note\\|note]]]] and [[note]]")
                 (js "[[pic.png|see [[note]]") <> None)
    by (rewrite Hk; apply find_occurs).
  apply Hf. vm_compute. reflexivity.
Qed.

(** C10: a link that resolves to a file that is not a markdown note is
    passed over by the loop of [convertLinksToFullPath]: the result of the
    pass on any text is that of the loop over the other links alone.  Such a
    link [[[name]]] without a bracket in its name stays in the result as it
    is written, whatever the pass does to the text before and behind it,
    when the links that the pass does rewrite hold no bracket between their
    brackets; and a text all of whose links resolve to files that are not
    markdown notes comes back unchanged. *)
Theorem non_markdown_link_untouched :
  (forall E file text,
      convertLinksToFullPath E file text
      = fold_left (convertLink E file)
          (filter (fun linkMatch => negb (nonMarkdown E file linkMatch))
             (matches linkedFileRegex
                (stripAwayCodeFencesAndFrontmatter E file text)))
          text) /\
  (forall E file a name b,
      ~ In "["%char name -> ~ In "]"%char name ->
      nonMarkdown E file (js "[[" ++ name ++ js "]]") = true ->
      Forall plainLink
        (filter (fun linkMatch => negb (nonMarkdown E file linkMatch))
           (matches linkedFileRegex
              (stripAwayCodeFencesAndFrontmatter E file
                 (a ++ (js "[[" ++ name ++ js "]]") ++ b)))) ->
      keeps (js "[[" ++ name ++ js "]]")
        (convertLinksToFullPath E file
           (a ++ (js "[[" ++ name ++ js "]]") ++ b))) /\
  (forall E file text,
      (forall linkMatch,
          In linkMatch
            (matches linkedFileRegex
               (stripAwayCodeFencesAndFrontmatter E file text)) ->
          nonMarkdown E file linkMatch = true) ->
      convertLinksToFullPath E file text = text).
Proof.
  split; [|split].
  - intros E file text. unfold convertLinksToFullPath. cbv zeta.
    symmetry. apply fold_left_filter. intros s m Hm.
    apply negb_false_iff in Hm.
    destruct (convertLink_cases E file s m) as [->|(Hn & _)];
      [reflexivity | congruence].
  - intros E file a name b H1 H2 Hn Hall.
    unfold convertLinksToFullPath. cbv zeta.
    apply (fold_left_keeps _ _
             (fun m => nonMarkdown E file m = false -> plainLink m)).
    + intros t m Hm Hk. apply convertLink_keeps; assumption.
    + apply Forall_filter in Hall. revert Hall. apply Forall_impl.
      intros m Hm Hn'. apply Hm. rewrite Hn'. reflexivity.
    + exists a, b. reflexivity.
  - intros E file text H. unfold convertLinksToFullPath. cbv zeta.
    apply fold_left_unchanged. intros m Hm. specialize (H m Hm).
    destruct (convertLink_cases E file text m) as [->|(Hn & _)];
      [reflexivity | congruence].
Qed.

Lemma non_markdown_link_untouched_witness :
  keeps (js "[[" ++ js "pic.png" ++ js "]]")
    (convertLinksToFullPath (Vault.plain Vault.nested) Vault.root
       (js "see " ++ (js "[[" ++ js "pic.png" ++ js "]]") ++
        js " and [[note]]")) /\
  convertLinksToFullPath (Vault.plain Vault.nested) Vault.root
    (js "see " ++ (js "[[" ++ js "pic.png" ++ js "]]") ++ js " and [[note]]")
  = js "see [[pic.png]] and [[note\\|note]]".
Proof.
  split; [|vm_compute; reflexivity].
  apply (proj1 (proj2 non_markdown_link_untouched)
           (Vault.plain Vault.nested) Vault.root
           (js "see ") (js "pic.png") (js " and [[note]]")).
  - apply lacks_not_in. vm_compute. reflexivity.
  - apply lacks_not_in. vm_compute. reflexivity.
  - vm_compute. reflexivity.
  - assert (Hm : filter
                   (fun linkMatch =>
                      negb (nonMarkdown (Vault.plain Vault.nested) Vault.root
                              linkMatch))
                   (matches linkedFileRegex
                      (stripAwayCodeFencesAndFrontmatter
                         (Vault.plain Vault.nested) Vault.root
                         (js "see " ++ (js "[[" ++ js "pic.png" ++ js "]]") ++
                          js " and [[note]]")))
                 = [js "[[" ++ js "note" ++ js "]]"])
      by (vm_compute; reflexivity).
    rewrite Hm. repeat constructor.
    exists (js "note").
    split; [reflexivity|].
    split; apply lacks_not_in; vm_compute; reflexivity.
Defined.

(** *** Embeds *)

Lemma embed_same_start x i B Q :
  ~ In "]"%char x -> ~ In "]"%char i ->
  (js "![[" ++ x ++ js "]]") ++ B = (js "![[" ++ i ++ js "]]") ++ Q -> x = i.
Proof.
  intros Hx Hi H. rewrite <- !app_assoc in H.
  change (js "![[") with ("!"%char :: "["%char :: "["%char :: []) in H.
  change (js "]]") with ("]"%char :: "]"%char :: []) in H.
  simpl in H. injection H as H.
  exact (first_occurrence_unique "]"%char x i _ _ Hx Hi H).
Qed.

(** No embed begins inside another embed of one name. *)
Lemma embed_tail x i l l' B Q :
  ~ In "!"%char i ->
  js "![[" ++ i ++ js "]]" = l ++ l' -> l <> [] -> l' <> [] ->
  (js "![[" ++ x ++ js "]]") ++ B = l' ++ Q -> False.
Proof.
  intros Hi Hm Hl Hl' H.
  change (js "![[") with ("!"%char :: "["%char :: "["%char :: []) in Hm, H.
  change (js "]]") with ("]"%char :: "]"%char :: []) in Hm, H.
  destruct l as [|c l]; [contradiction|].
  destruct l' as [|d l']; [contradiction|].
  simpl in Hm, H. injection Hm as _ Hm. injection H as Hd _. subst d.
  assert (Hin : In "!"%char ("["%char :: "["%char :: i ++ ["]"%char; "]"%char])).
  { rewrite Hm. apply in_or_app. right. left. reflexivity. }
  destruct Hin as [Hin|[Hin|Hin]]; [discriminate Hin | discriminate Hin|].
  apply in_app_or in Hin. destruct Hin as [Hin|[Hin|[Hin|[]]]];
    [exact (Hi Hin) | discriminate Hin | discriminate Hin].
Qed.

(** What one iteration of the resolver does to the text. *)
Lemma transcludeMatch_cases E deeper file st m :
  transcludeMatch E deeper file st m = ret st \/
  resolved E file m = true /\
  (transcludedText (fst (transcludeMatch E deeper file st m))
   = transcludedText st \/
   exists r,
     transcludedText (fst (transcludeMatch E deeper file st m))
     = Str.replace (transcludedText st) m r).
Proof.
  unfold resolved, embeddedFileOf, transcludeMatch.
  destruct (transclusionParts m) as [fileName headerName]. cbn [fst].
  destruct (getFirstLinkpathDest E (getLinkpath E fileName) (getPath file))
    as [linkedFile|]; [|left; reflexivity].
  right. split; [reflexivity|].
  destruct (Str.endsWith (name linkedFile) (js ".excalidraw.md")).
  - destruct (cachedRead E linkedFile) as [fileText|]; [|left; reflexivity].
    rewrite fst_bind.
    destruct (compileMarkdown E _ linkedFile fileText);
      [right; eexists; reflexivity | left; reflexivity].
  - destruct (Str.eqb (extension linkedFile) (js "md")); [|left; reflexivity].
    destruct (cachedRead E linkedFile) as [fileText|]; [|left; reflexivity].
    destruct (transcludeSection E fileName fileText (getFileCache E linkedFile))
      as [[sliced sectionID]|]; [|left; reflexivity].
    rewrite !fst_bind. right. eexists. reflexivity.
Qed.

Lemma foldM_filter {A S} (f : S -> A -> M S) (p : A -> bool) (l : list A) :
  (forall s a, p a = false -> f s a = ret s) ->
  forall s, foldM f (filter p l) s = foldM f l s.
Proof.
  intros H. induction l as [|a l IH]; intros s; simpl; [reflexivity|].
  destruct (p a) eqn:Hp; cbn [foldM].
  - apply bind_ext. intros s'. apply IH.
  - rewrite (H s a Hp), bind_ret_l. apply IH.
Qed.

Lemma transcludeMatch_skips E deeper file st m :
  resolved E file m = false -> transcludeMatch E deeper file st m = ret st.
Proof.
  intros H. destruct (transcludeMatch_cases E deeper file st m) as [Hm|[Hr _]];
    [exact Hm | congruence].
Qed.

Lemma transcludeMatch_keeps E deeper file x st m :
  ~ In "]"%char x -> ~ In "!"%char x ->
  resolved E file (js "![[" ++ x ++ js "]]") = false ->
  (resolved E file m = true -> plainEmbed m) ->
  keeps (js "![[" ++ x ++ js "]]") (transcludedText st) ->
  keeps (js "![[" ++ x ++ js "]]")
    (transcludedText (fst (transcludeMatch E deeper file st m))).
Proof.
  intros Hx1 Hx2 Hn Hplain Hk.
  destruct (transcludeMatch_cases E deeper file st m)
    as [->|(Hr & [->|(r & ->)])]; [exact Hk | exact Hk |].
  destruct (Hplain Hr) as (i & -> & Hi1 & Hi2).
  assert (Hne : x <> i) by (intros ->; congruence).
  apply replace_keeps; [| | |exact Hk].
  - intros B Q H. apply Hne. exact (embed_same_start x i B Q Hx1 Hi1 H).
  - intros l l' B Q. apply embed_tail. exact Hi2.
  - intros l l' B Q Hl H1 H2 H. exact (embed_tail i x l l' Q B Hx2 Hl H1 H2 H).
Qed.

Lemma transclusion_loop_keeps E deeper file x l :
  ~ In "]"%char x -> ~ In "!"%char x ->
  resolved E file (js "![[" ++ x ++ js "]]") = false ->
  Forall (fun m => resolved E file m = true -> plainEmbed m) l ->
  forall st,
    keeps (js "![[" ++ x ++ js "]]") (transcludedText st) ->
    keeps (js "![[" ++ x ++ js "]]")
      (transcludedText (fst (foldM (transcludeMatch E deeper file) l st))).
Proof.
  intros Hx1 Hx2 Hn Hl. induction Hl as [|m l Hm Hl IH]; intros st Hk;
    [exact Hk|].
  cbn [foldM]. rewrite fst_bind. apply IH.
  apply transcludeMatch_keeps; assumption.
Qed.

(** The resolver as the loop over the embeds that resolve. *)
Lemma createTranscludedText_resolved E d file text :
  d < 4 ->
  createTranscludedText E d file text
  = st <- foldM (transcludeMatch E (createTranscludedText E (d + 1)) file)
            (filter (resolved E file) (matches transcludedRegex text))
            {| transcludedText := text; numberOfExcaliDraws := 0 |} ;;
    ret (transcludedText st).
Proof.
  intros Hd. unfold createTranscludedText at 1.
  replace (4 - d) with (S (4 - (d + 1))) by lia.
  cbn [transcludeWithin].
  change (transcludeWithin E (4 - (d + 1)))
    with (createTranscludedText E (d + 1)).
  rewrite foldM_filter; [reflexivity|].
  intros st m Hm. apply transcludeMatch_skips. exact Hm.
Qed.

Lemma createTranscludedText_keeps E d file a x b :
  ~ In "]"%char x -> ~ In "!"%char x ->
  resolved E file (js "![[" ++ x ++ js "]]") = false ->
  Forall plainEmbed
    (filter (resolved E file)
       (matches transcludedRegex (a ++ (js "![[" ++ x ++ js "]]") ++ b))) ->
  keeps (js "![[" ++ x ++ js "]]")
    (fst (createTranscludedText E d file
            (a ++ (js "![[" ++ x ++ js "]]") ++ b))).
Proof.
  intros Hx1 Hx2 Hn Hall. unfold createTranscludedText.
  destruct (4 - d) as [|fuel]; [exists a, b; reflexivity|].
  cbn [transcludeWithin]. rewrite fst_bind. cbn [ret fst].
  apply transclusion_loop_keeps; try assumption.
  - apply Forall_filter. exact Hall.
  - exists a, b. reflexivity.
Qed.

(** *** What a pattern requires *)

Lemma star_requires d g r k :
  (forall s c k', ~ In d s ->
     (forall s' c', ~ In d s' -> k' s' c' = None) -> run r s c k' = None) ->
  (forall s' c', ~ In d s' -> k s' c' = None) ->
  forall fuel s c, ~ In d s -> star g (run r) k fuel s c = None.
Proof.
  intros Hr Hk. induction fuel as [|fuel IH]; intros s c Hs; cbn [star].
  - apply Hk. exact Hs.
  - rewrite (Hk s c Hs). rewrite Hr; [destruct g; reflexivity | exact Hs|].
    intros s' c' Hs'. rewrite (IH s' c' Hs'). destruct (_ <? _); reflexivity.
Qed.

Lemma run_requires d r : forall s c k,
  ~ In d s ->
  requires d r = true \/ (forall s' c', ~ In d s' -> k s' c' = None) ->
  run r s c k = None.
Proof.
  induction r as [|x|p|r1 IH1 r2 IH2|r1 IH1 r2 IH2|g r1 IH1|n r1 IH1];
    intros s c k Hs H; cbn [run requires] in *.
  - destruct H as [H|H]; [discriminate H | apply H; exact Hs].
  - destruct s as [|y s]; [reflexivity|].
    destruct (Ascii.eqb y x) eqn:Hy; [|reflexivity].
    assert (Hs' : ~ In d s) by (intros Hin; apply Hs; right; exact Hin).
    destruct H as [H|H]; [|apply H; exact Hs'].
    apply Ascii.eqb_eq in Hy, H. subst. exfalso. apply Hs. left. reflexivity.
  - destruct s as [|y s]; [reflexivity|].
    destruct (p y); [|reflexivity].
    destruct H as [H|H]; [discriminate H|].
    apply H. intros Hin. apply Hs. right. exact Hin.
  - destruct (requires d r1) eqn:H1.
    + apply IH1; [exact Hs | left; reflexivity].
    + apply IH1; [exact Hs | right].
      intros s' c' Hs'. apply IH2; [exact Hs' | exact H].
  - rewrite IH1, IH2; try exact Hs; [reflexivity | |].
    + destruct H as [H|H]; [left | right; exact H].
      apply andb_true_iff in H. apply H.
    + destruct H as [H|H]; [left | right; exact H].
      apply andb_true_iff in H. apply H.
  - destruct H as [H|H]; [discriminate H|].
    apply (star_requires d); try assumption.
    intros s0 c0 k' Hs0 Hk'. apply IH1; [exact Hs0 | right; exact Hk'].
  - apply IH1; [exact Hs|]. destruct H as [H|H]; [left; exact H | right].
    intros s' c' Hs'. apply H. exact Hs'.
Qed.

Lemma noMatch_requires d r s :
  requires d r = true -> ~ In d s -> noMatch r s.
Proof.
  intros Hr Hs j. apply matchAt_run_none.
  apply (run_requires d); [apply not_in_skipn; exact Hs | left; exact Hr].
Qed.

(** A repetition of a class fails when what follows it fails at every
    suffix of the text. *)
Lemma star_dead g p k : forall fuel s c,
  (forall pre t c', s = pre ++ t -> k t c' = None) ->
  star g (run (Cls p)) k fuel s c = None.
Proof.
  induction fuel as [|fuel IH]; intros s c H; cbn [star].
  - apply (H [] s c). reflexivity.
  - rewrite (H [] s c eq_refl).
    assert (Hm : run (Cls p) s c
                   (fun s' c' =>
                      if length s' <? length s
                      then star g (run (Cls p)) k fuel s' c' else None) = None).
    { cbn [run]. destruct s as [|x s]; [reflexivity|].
      destruct (p x); [|reflexivity].
      rewrite IH; [destruct (_ <? _); reflexivity|].
      intros pre t c' ->. apply (H (x :: pre) t c'). reflexivity. }
    rewrite Hm. destruct g; reflexivity.
Qed.

Lemma suffix_cases (u b pre t : str) :
  u ++ b = pre ++ t ->
  (exists x u', t = (x :: u') ++ b /\ In x u) \/ (exists pre', b = pre' ++ t).
Proof.
  intros H. apply app_eq_app in H. destruct H as (l & [[-> ->]|[-> ->]]).
  - destruct l as [|x l].
    + right. exists []. reflexivity.
    + left. exists x, l. split; [reflexivity|].
      apply in_or_app. right. left. reflexivity.
  - right. exists l. reflexivity.
Qed.

(** No image name ends in a text without a dot that is followed by a text
    without closing bracket. *)
Lemma image_name_dead n o i rest u b c k :
  ~ In "."%char u -> ~ In "]"%char b -> requires "]"%char rest = true ->
  run (Seq (Grp n (Star false (Cls isDot))) (Seq (imageExtension o i) rest))
    (u ++ b) c k = None.
Proof.
  intros Hu Hb Hr. rewrite run_Seq, run_Grp_Star. apply star_dead.
  intros pre t c' Hs. cbv beta.
  destruct (suffix_cases u b pre t Hs) as [(x & u' & -> & Hx)|(pre' & ->)].
  - unfold imageExtension. cbn [run app].
    destruct (Ascii.eqb x "."%char) eqn:He; [|reflexivity].
    apply Ascii.eqb_eq in He. subst x. contradiction.
  - apply (run_requires "]"%char).
    + intros Hin. apply Hb. apply in_or_app. right. exact Hin.
    + left. cbn [requires]. rewrite Hr. apply orb_true_r.
Qed.

Lemma noMatch_app r a t :
  (forall j, j < length a -> matchAt r (skipn j (a ++ t)) = None) ->
  noMatch r t -> noMatch r (a ++ t).
Proof.
  intros Ha Ht j. destruct (Nat.lt_ge_cases j (length a)) as [Hj|Hj].
  - apply Ha. exact Hj.
  - rewrite skipn_app, skipn_all2 by exact Hj. cbn [app]. apply Ht.
Qed.

(** *** Words and prose *)

Lemma not_in_lacks c s : ~ In c s -> lacks c s = true.
Proof.
  intros H. unfold lacks. apply forallb_forall. intros x Hx.
  destruct (Ascii.eqb c x) eqn:He; [|reflexivity].
  apply Ascii.eqb_eq in He. subst x. contradiction.
Qed.

Lemma endsWith_absent d s : ~ In d s -> Str.endsWith s [d] = false.
Proof.
  intros H. unfold Str.endsWith. apply (startsWith_absent d).
  - left. reflexivity.
  - intros Hin. apply H. apply in_rev. exact Hin.
Qed.

Lemma isIdChar_plain c :
  isIdChar c = true ->
  isDot c = true /\
  existsb (Ascii.eqb c) (js "![]()^`%|#.$\\") = false.
Proof.
  destruct c as [[] [] [] [] [] [] [] []]; vm_compute; intros H;
    first [discriminate H | split; reflexivity].
Qed.

Lemma existsb_eqb_in c l : In c l -> existsb (Ascii.eqb c) l = true.
Proof.
  intros H. apply existsb_exists. exists c. split; [exact H|].
  apply Ascii.eqb_refl.
Qed.

Lemma idWord_lacks d w :
  forallb isIdChar w = true -> In d (js "![]()^`%|#.$\\") -> ~ In d w.
Proof.
  intros Hw Hd Hin. rewrite forallb_forall in Hw.
  destruct (isIdChar_plain d (Hw d Hin)) as [_ H].
  rewrite (existsb_eqb_in d _ Hd) in H. discriminate H.
Qed.

Lemma idWord_dot w : forallb isIdChar w = true -> forallb isDot w = true.
Proof.
  intros Hw. rewrite forallb_forall in *. intros c Hc.
  apply (isIdChar_plain c (Hw c Hc)).
Qed.

Lemma plainProse_lacks d s :
  plainProse s = true -> In d markupUnits -> ~ In d s.
Proof.
  intros Hs Hd Hin. unfold plainProse in Hs. rewrite forallb_forall in Hs.
  specialize (Hs d Hin). rewrite (existsb_eqb_in d _ Hd) in Hs. discriminate Hs.
Qed.

(** *** An embed that does not resolve, in prose *)

Section EmbedInProse.

Variables (a w b : str).
Hypothesis prose_before : plainProse a = true.
Hypothesis prose_after : plainProse b = true.
Hypothesis word : forallb isIdChar w = true.

Lemma inner_lacks d :
  In d (js "![]()^`%|#.$\\") -> d <> "|"%char -> d <> bsl ->
  ~ In d (w ++ js "\\|" ++ w).
Proof.
  intros Hd H1 H2. repeat apply not_in_app; try (apply idWord_lacks; assumption).
  intros [H|[H|[]]]; [apply H2 | apply H1]; symmetry; exact H.
Qed.

Lemma escaped_lacks d :
  In d markupUnits -> d <> "!"%char -> d <> "["%char -> d <> "]"%char ->
  ~ In d
    (a ++ (js "![[" ++ w ++ js "\\|" ++ w ++ js "]]") ++ b).
Proof.
  intros Hd H1 H2 H3.
  assert (Hd' : In d (js "![]()^`%|#.$\\")).
  { revert Hd. vm_compute. intuition. }
  repeat apply not_in_app; try (apply plainProse_lacks; assumption);
    try (apply idWord_lacks; assumption).
  - intros [H|[H|[H|[]]]]; [apply H1 | apply H2 | apply H2]; symmetry; exact H.
  - intros [H|[H|[]]]; subst d; revert Hd; vm_compute; intuition discriminate.
  - intros [H|[H|[]]]; apply H3; symmetry; exact H.
Qed.

Lemma escaped_tail_no_bang :
  ~ In "!"%char (js "[[" ++ (w ++ js "\\|" ++ w) ++ js "]]" ++ b).
Proof.
  repeat apply not_in_app.
  - vm_compute. intuition discriminate.
  - apply idWord_lacks; [exact word | vm_compute; intuition].
  - vm_compute. intuition discriminate.
  - apply idWord_lacks; [exact word | vm_compute; intuition].
  - vm_compute. intuition discriminate.
  - apply plainProse_lacks; [exact prose_after | vm_compute; intuition].
Qed.

Lemma escaped_shape :
  a ++ (js "![[" ++ w ++ js "\\|" ++ w ++ js "]]") ++ b
  = a ++ js "![[" ++ ((w ++ js "\\|" ++ w) ++ js "]]") ++ b.
Proof. rewrite <- !app_assoc. reflexivity. Qed.

(** The rewritten embed is no image embed. *)
Lemma escaped_no_image_embed : noMatch transcludedImageRegex
    (a ++ (js "![[" ++ w ++ js "\\|" ++ w ++ js "]]") ++ b).
Proof.
  assert (Ha : ~ In "["%char a)
    by (apply plainProse_lacks; [exact prose_before | vm_compute; intuition]).
  assert (Hb : ~ In "]"%char b)
    by (apply plainProse_lacks; [exact prose_after | vm_compute; intuition]).
  assert (Hu : ~ In "."%char ((w ++ js "\\|" ++ w) ++ js "]]")).
  { apply not_in_app.
    - apply inner_lacks; [vm_compute; intuition | discriminate | discriminate].
    - vm_compute. intuition discriminate. }
  assert (Hdead : forall n o i rest,
    requires "]"%char rest = true ->
    noMatch
      (Seq (Lit (js "![["))
         (Seq (Grp n (Star false (Cls isDot))) (Seq (imageExtension o i) rest)))
      (a ++ (js "![[" ++ w ++ js "\\|" ++ w ++ js "]]") ++ b)).
  { intros n o i rest Hr. rewrite escaped_shape. apply noMatch_app.
    - apply (gap_second "!"%char "["%char (js "[")); [exact Ha | discriminate].
    - change (js "![[" ++ ((w ++ js "\\|" ++ w) ++ js "]]") ++ b)
        with ("!"%char :: js "[[" ++ ((w ++ js "\\|" ++ w) ++ js "]]") ++ b).
      apply noMatch_cons.
      + apply matchAt_run_none.
        change ("!"%char :: js "[[" ++ ((w ++ js "\\|" ++ w) ++ js "]]") ++ b)
          with (js "![[" ++ ((w ++ js "\\|" ++ w) ++ js "]]") ++ b).
        rewrite run_Seq, run_Lit_app.
        apply image_name_dead; assumption.
      + apply (noMatch_Lit _ _ "!"%char); [left; reflexivity|].
        rewrite <- app_assoc. exact escaped_tail_no_bang. }
  unfold transcludedImageRegex. apply noMatch_Alt; apply Hdead; reflexivity.
Qed.

Lemma escaped_no_image : noMatch imageRegex
    (a ++ (js "![[" ++ w ++ js "\\|" ++ w ++ js "]]") ++ b).
Proof.
  apply (noMatch_requires "("%char); [reflexivity|].
  apply escaped_lacks; [vm_compute; intuition | discriminate ..].
Qed.

Lemma escaped_no_svg : noMatch linkedSvgRegex
    (a ++ (js "![[" ++ w ++ js "\\|" ++ w ++ js "]]") ++ b).
Proof.
  apply (noMatch_requires "("%char); [reflexivity|].
  apply escaped_lacks; [vm_compute; intuition | discriminate ..].
Qed.

End EmbedInProse.

Lemma createSvgEmbeds_none E file text :
  TRANSCLUDED_SVG_REGEX E text = [] -> noMatch linkedSvgRegex text ->
  createSvgEmbeds E file text = text.
Proof.
  intros Hp H. unfold createSvgEmbeds, Pat.matches. rewrite Hp. cbv zeta.
  cbn [map fold_left].
  rewrite (proj2 (matches_noMatch _ _) H). reflexivity.
Qed.

Lemma convertImageLinks_none E text filePath :
  noMatch transcludedImageRegex text -> noMatch imageRegex text ->
  convertImageLinks E text filePath = (text, []).
Proof.
  intros H1 H2. unfold convertImageLinks. cbv zeta.
  rewrite (proj2 (matches_noMatch _ _) H1).
  rewrite (proj2 (matches_noMatch _ _) H2). reflexivity.
Qed.

(** The whole compilation of a note of prose around one embed that does not
    resolve. *)
Lemma unresolved_embed_in_prose E file a w b :
  cachedRead E file = Some (a ++ (js "![[" ++ w ++ js "]]") ++ b) ->
  Str.endsWith (name file) (js ".excalidraw.md") = false ->
  customFilters E = [] ->
  noProtectedText E (a ++ (js "![[" ++ w ++ js "]]") ++ b) ->
  TRANSCLUDED_SVG_REGEX E
    (a ++ (js "![[" ++ w ++ js "\\|" ++ w ++ js "]]") ++ b) = [] ->
  plainProse a = true -> plainProse b = true ->
  w <> [] -> forallb isIdChar w = true ->
  embeddedFileOf E file (js "![[" ++ w ++ js "]]") = None ->
  generateMarkdown E file
  = ret (Some (a ++ (js "![[" ++ w ++ js "\\|" ++ w ++ js "]]") ++ b, [])).
Proof.
  intros Hr Hn Hf Hp Hsvg Ha Hb Hne Hw Hu.
  assert (Hlack : forall d, In d (js "![]()^`%|#.$\\") -> ~ In d w)
    by (intros d Hd; apply idWord_lacks; assumption).
  assert (Hpa : forall d, In d markupUnits -> ~ In d a)
    by (intros d Hd; apply plainProse_lacks; assumption).
  assert (Hpb : forall d, In d markupUnits -> ~ In d b)
    by (intros d Hd; apply plainProse_lacks; assumption).
  assert (Hun : getFirstLinkpathDest E (getLinkpath E w) (getPath file) = None).
  { unfold embeddedFileOf in Hu. rewrite transclusionParts_plain in Hu;
      [exact Hu | apply Hlack | apply Hlack]; vm_compute; intuition. }
  assert (Hall : forall d, In d markupUnits ->
                 d <> "!"%char -> d <> "["%char -> d <> "]"%char ->
                 ~ In d (a ++ (js "![[" ++ w ++ js "]]") ++ b)).
  { intros d Hd H1 H2 H3. repeat apply not_in_app.
    - apply Hpa. exact Hd.
    - intros [H|[H|[H|[]]]]; [apply H1 | apply H2 | apply H2]; symmetry; exact H.
    - apply Hlack. revert Hd. vm_compute. intuition.
    - intros [H|[H|[]]]; apply H3; symmetry; exact H.
    - apply Hpb. exact Hd. }
  unfold generateMarkdown. rewrite Hr, Hn.
  unfold COMPILE_STEPS, pure. cbn [foldM].
  rewrite convertFrontMatter_none by apply Hp. rewrite bind_ret_l.
  rewrite convertCustomFilters_none by exact Hf. rewrite bind_ret_l.
  rewrite createBlockIDs_no_caret
    by (apply Hall; [vm_compute; intuition | discriminate ..]).
  rewrite bind_ret_l.
  rewrite createTranscludedText_unresolved.
  2:{ rewrite transcluded_one;
        [ | apply Hpa; vm_compute; intuition | apply Hpb; vm_compute; intuition
          | exact Hne | apply idWord_dot; exact Hw
          | apply Hlack; vm_compute; intuition ].
      intros m [<-|[]]. exact Hu. }
  rewrite bind_ret_l.
  rewrite convertDataViews_no_backtick
    by (apply Hall; [vm_compute; intuition | discriminate ..]).
  rewrite bind_ret_l.
  assert (Hlinks :
    convertLinksToFullPath E file (a ++ (js "![[" ++ w ++ js "]]") ++ b)
    = a ++ (js "![[" ++ w ++ js "\\|" ++ w ++ js "]]") ++ b).
  { change (a ++ (js "![[" ++ w ++ js "]]") ++ b)
      with (a ++ ("!"%char :: js "[[" ++ w ++ js "]]") ++ b).
    replace (a ++ ("!"%char :: js "[[" ++ w ++ js "]]") ++ b)
      with ((a ++ ["!"%char]) ++ (js "[[" ++ w ++ js "]]") ++ b)
      by (rewrite <- ?app_assoc; cbn [app]; rewrite <- ?app_assoc; reflexivity).
    assert (Hp' : noProtectedText E
                    ((a ++ ["!"%char]) ++ (js "[[" ++ w ++ js "]]") ++ b)).
    { replace ((a ++ ["!"%char]) ++ (js "[[" ++ w ++ js "]]") ++ b)
        with (a ++ (js "![[" ++ w ++ js "]]") ++ b)
        by (rewrite <- !app_assoc; reflexivity).
      exact Hp. }
    assert (Ha' : ~ In "["%char (a ++ ["!"%char])).
    { apply not_in_app; [apply Hpa; vm_compute; intuition|].
      intros [H|[]]. discriminate H. }
    rewrite convertLinks_one;
      [ | exact Hp' | exact Ha' | apply Hpb; vm_compute; intuition | exact Hne
        | apply idWord_dot; exact Hw | apply Hlack; vm_compute; intuition ].
    rewrite convertLink_unresolved; [ | | | exact Hun].
    - change (js "[[" ++ w ++ js "]]")
        with ("["%char :: js "[" ++ w ++ js "]]").
      rewrite replace_first by
        (try exact Ha'; repeat apply not_in_app;
         try (apply Hlack; vm_compute; intuition);
         vm_compute; intuition discriminate).
      rewrite <- !app_assoc. reflexivity.
    - unfold plainText. rewrite !andb_true_iff. repeat split;
        apply not_in_lacks; apply Hlack; vm_compute; intuition.
    - apply endsWith_absent. apply Hlack. vm_compute. intuition. }
  rewrite Hlinks, bind_ret_l.
  rewrite removeObsidianComments_no_percent
    by (apply escaped_lacks; try assumption;
        [vm_compute; intuition | discriminate ..]).
  rewrite bind_ret_l.
  rewrite createSvgEmbeds_none;
    [ | exact Hsvg | apply escaped_no_svg; assumption ].
  rewrite !bind_ret_l.
  rewrite convertImageLinks_none;
    [ reflexivity | apply escaped_no_image_embed; assumption
      | apply escaped_no_image; assumption ].
Qed.

Lemma resolved_false E file m :
  embeddedFileOf E file m = None -> resolved E file m = false.
Proof. intros H. unfold resolved. rewrite H. reflexivity. Qed.

(** C2, as the code has it.  The transclusion resolver skips an embed that
    does not resolve: below the depth limit it is the loop over the embeds
    that do resolve; an embed [![[name]]] that does not resolve, without a
    closing bracket or an exclamation mark in its name, is still in its
    output, whenever the embeds that do resolve are each written
    [![[inner]]] without a closing bracket or an exclamation mark inside;
    and when no embed resolves, the text comes back as it is, at every
    depth.  The pipeline as a whole does not keep the embed as it was: the
    link canonicalization that follows treats the [[[name]]] inside it as a
    link that does not resolve and rewrites it to [[[name\|name]]].  So a
    note of prose around one such embed, named by a word, compiles to the
    same prose around [![[name\|name]]]; and next to an embed that does
    resolve, which is expanded, [![[nonexistent]]] comes out as
    [![[nonexistent\|nonexistent]]]. *)
Theorem unresolved_embed_fail_soft :
  (forall E d file text,
      d < 4 ->
      createTranscludedText E d file text
      = st <- foldM (transcludeMatch E (createTranscludedText E (d + 1)) file)
                (filter (resolved E file) (matches transcludedRegex text))
                {| transcludedText := text; numberOfExcaliDraws := 0 |} ;;
        ret (transcludedText st)) /\
  (forall E d file a name b,
      ~ In "]"%char name -> ~ In "!"%char name ->
      embeddedFileOf E file (js "![[" ++ name ++ js "]]") = None ->
      Forall plainEmbed
        (filter (resolved E file)
           (matches transcludedRegex
              (a ++ (js "![[" ++ name ++ js "]]") ++ b))) ->
      keeps (js "![[" ++ name ++ js "]]")
        (fst (createTranscludedText E d file
                (a ++ (js "![[" ++ name ++ js "]]") ++ b)))) /\
  (forall E d file text,
      (forall m, In m (matches transcludedRegex text) ->
         embeddedFileOf E file m = None) ->
      createTranscludedText E d file text = ret text) /\
  (forall E file a target b,
      cachedRead E file = Some (a ++ (js "![[" ++ target ++ js "]]") ++ b) ->
      Str.endsWith (name file) (js ".excalidraw.md") = false ->
      customFilters E = [] ->
      noProtectedText E (a ++ (js "![[" ++ target ++ js "]]") ++ b) ->
      TRANSCLUDED_SVG_REGEX E
        (a ++ (js "![[" ++ target ++ js "\\|" ++ target ++ js "]]") ++ b) = [] ->
      plainProse a = true -> plainProse b = true ->
      target <> [] -> forallb isIdChar target = true ->
      embeddedFileOf E file (js "![[" ++ target ++ js "]]") = None ->
      generateMarkdown E file
      = ret (Some (a ++ (js "![[" ++ target ++ js "\\|" ++ target ++ js "]]") ++ b,
                   []))) /\
  generateMarkdown (Vault.plain Vault.mixed) Vault.root
  = ret (Some (js "\n<div class=\x22transclusion internal-embed is-loaded\x22><div class=\x22markdown-embed\x22>\n\n\n\nsix\n\n</div></div>\n and ![[nonexistent\\|nonexistent]]",
               [])).
Proof.
  split; [exact createTranscludedText_resolved|].
  split.
  { intros E d file a name b H1 H2 Hu Hall.
    apply createTranscludedText_keeps; try assumption.
    apply resolved_false. exact Hu. }
  split; [exact createTranscludedText_unresolved|].
  split; [exact unresolved_embed_in_prose|].
  vm_compute. reflexivity.
Qed.

Lemma unresolved_embed_fail_soft_witness :
  keeps (js "![[" ++ js "nonexistent" ++ js "]]")
    (fst (createTranscludedText (Vault.plain Vault.chain) 0 Vault.root
            (js "![[n6]] and " ++
             (js "![[" ++ js "nonexistent" ++ js "]]") ++ []))) /\
  generateMarkdown (Vault.plain Vault.dangling) Vault.root
  = ret (Some (js "x " ++
               (js "![[" ++ js "nonexistent" ++ js "\\|" ++
                js "nonexistent" ++ js "]]") ++ js " y",
               [])).
Proof.
  split.
  - apply (proj1 (proj2 unresolved_embed_fail_soft)).
    + absent.
    + absent.
    + evaluated.
    + assert (Hm : filter (resolved (Vault.plain Vault.chain) Vault.root)
                     (matches transcludedRegex
                        (js "![[n6]] and " ++
                         (js "![[" ++ js "nonexistent" ++ js "]]") ++ []))
                   = [js "![[" ++ js "n6" ++ js "]]"])
        by evaluated.
      rewrite Hm.
      repeat constructor; eexists; (split; [reflexivity|]); split; absent.
  - apply (proj1 (proj2 (proj2 (proj2 unresolved_embed_fail_soft)))).
    + evaluated.
    + evaluated.
    + evaluated.
    + repeat split; evaluated.
    + evaluated.
    + evaluated.
    + evaluated.
    + discriminate.
    + evaluated.
    + evaluated.
Defined.

(** *** Images on the web *)

(** No text that begins with an exclamation mark begins inside a text whose
    only exclamation mark is its first code unit. *)
Lemma bang_tail (X Y l l' B Q : str) :
  "!"%char :: X = l ++ l' -> ~ In "!"%char X -> l <> [] -> l' <> [] ->
  ("!"%char :: Y) ++ B = l' ++ Q -> False.
Proof.
  intros Hm HX Hl Hl' H.
  destruct l as [|c l]; [contradiction|].
  destruct l' as [|d l']; [contradiction|].
  simpl in Hm, H. injection Hm as _ Hm. injection H as Hd _. subst d.
  apply HX. rewrite Hm. apply in_or_app. right. left. reflexivity.
Qed.

Lemma convertMarkdownImage_remote E filePath st imageMatch :
  remoteImage imageMatch = true ->
  convertMarkdownImage E filePath st imageMatch = st.
Proof.
  unfold remoteImage, convertMarkdownImage. intros H.
  destruct st as [imageText assets]. cbv zeta. rewrite H. reflexivity.
Qed.

Lemma extractMarkdownImage_remote E file assets imageMatch :
  remoteImage imageMatch = true ->
  extractMarkdownImage E file assets imageMatch = assets.
Proof.
  unfold remoteImage, extractMarkdownImage. intros H.
  cbv zeta. rewrite H. reflexivity.
Qed.

Lemma fold_left_skip {A S} (f : S -> A -> S) (p : A -> bool) (l : list A) :
  (forall s a, p a = false -> f s a = s) ->
  forall s, fold_left f (filter p l) s = fold_left f l s.
Proof.
  intros H. induction l as [|a l IH]; intros s; simpl; [reflexivity|].
  destruct (p a) eqn:Hp; cbn [fold_left].
  - apply IH.
  - rewrite (H s a Hp). apply IH.
Qed.

Lemma remoteImage_shape alt rest :
  ~ In "("%char rest ->
  remoteImage (js "![" ++ alt ++ js "](" ++ (js "http" ++ rest) ++ js ")")
  = true.
Proof.
  intros Ho. unfold remoteImage.
  replace (js "![" ++ alt ++ js "](" ++ (js "http" ++ rest) ++ js ")")
    with ((js "![" ++ alt ++ js "]") ++ js "(" ++ (js "http" ++ rest) ++ js ")")
    by (rewrite <- !app_assoc; reflexivity).
  rewrite image_path.
  - apply startsWith_app.
  - apply not_in_app; [vm_compute; intuition discriminate | exact Ho].
Qed.

(** What one iteration of either loop does to the text. *)
Lemma convertTranscludedImage_cases E filePath st imageMatch :
  fst (convertTranscludedImage E filePath st imageMatch) = fst st \/
  exists r,
    fst (convertTranscludedImage E filePath st imageMatch)
    = Str.replace (fst st) imageMatch r.
Proof.
  unfold convertTranscludedImage. destruct st as [imageText assets]. cbv zeta.
  destruct (getFirstLinkpathDest E _ filePath) as [linkedFile|];
    [|left; reflexivity].
  destruct (readBinary E linkedFile); [|left; reflexivity].
  right. eexists. reflexivity.
Qed.

Lemma convertMarkdownImage_cases E filePath st imageMatch :
  fst (convertMarkdownImage E filePath st imageMatch) = fst st \/
  remoteImage imageMatch = false /\
  exists r,
    fst (convertMarkdownImage E filePath st imageMatch)
    = Str.replace (fst st) imageMatch r.
Proof.
  destruct (remoteImage imageMatch) eqn:Hr.
  - left. rewrite convertMarkdownImage_remote by exact Hr. reflexivity.
  - unfold convertMarkdownImage. unfold remoteImage in Hr.
    destruct st as [imageText assets]. cbv zeta. rewrite Hr.
    destruct (decodeURI E _) as [decodedImagePath|]; [|left; reflexivity].
    destruct (getFirstLinkpathDest E decodedImagePath filePath)
      as [linkedFile|]; [|left; reflexivity].
    destruct (readBinary E linkedFile); [|left; reflexivity].
    right. split; [reflexivity|]. eexists. reflexivity.
Qed.

Section RemoteImage.

Variables alt rest : str.
Hypothesis alt_bang : ~ In "!"%char alt.
Hypothesis alt_open : ~ In "["%char alt.
Hypothesis alt_close : ~ In ")"%char alt.
Hypothesis rest_bang : ~ In "!"%char rest.
Hypothesis rest_open : ~ In "("%char rest.
Hypothesis rest_close : ~ In ")"%char rest.

Lemma remote_tail_no_bang :
  ~ In "!"%char (js "[" ++ alt ++ js "](" ++ (js "http" ++ rest) ++ js ")").
Proof.
  repeat apply not_in_app; try assumption; vm_compute; intuition discriminate.
Qed.

Lemma remote_vs_embed imageMatch t r :
  plainEmbed imageMatch ->
  keeps (js "![" ++ alt ++ js "](" ++ (js "http" ++ rest) ++ js ")") t ->
  keeps (js "![" ++ alt ++ js "](" ++ (js "http" ++ rest) ++ js ")")
    (Str.replace t imageMatch r).
Proof.
  intros (i & -> & Hi1 & Hi2). apply replace_keeps.
  - intros B Q H.
    change (js "![") with ("!"%char :: "["%char :: []) in H.
    change (js "![[") with ("!"%char :: "["%char :: "["%char :: []) in H.
    simpl in H. injection H as H.
    destruct alt as [|x alt']; simpl in H.
    + discriminate H.
    + injection H as -> _. apply alt_open. left. reflexivity.
  - intros l l' B Q Hm. apply (bang_tail (js "[[" ++ i ++ js "]]")
                                 (js "[" ++ alt ++ js "](" ++ (js "http" ++ rest) ++ js ")")).
    + exact Hm.
    + repeat apply not_in_app; try assumption; vm_compute; intuition discriminate.
  - intros l l' B Q HL H1 H2 H.
    apply (bang_tail (js "[" ++ alt ++ js "](" ++ (js "http" ++ rest) ++ js ")")
             (js "[[" ++ i ++ js "]]") l l' Q B); try assumption.
    exact remote_tail_no_bang.
Qed.

Lemma remote_vs_image imageMatch t r :
  plainImage imageMatch -> remoteImage imageMatch = false ->
  keeps (js "![" ++ alt ++ js "](" ++ (js "http" ++ rest) ++ js ")") t ->
  keeps (js "![" ++ alt ++ js "](" ++ (js "http" ++ rest) ++ js ")")
    (Str.replace t imageMatch r).
Proof.
  intros (alt' & p & -> & Ha1 & Ha2 & Hp1 & Hp2) Hr. apply replace_keeps.
  - intros B Q H.
    assert (He : alt ++ js "](" ++ (js "http" ++ rest)
                 = alt' ++ js "](" ++ p).
    { apply (first_occurrence_unique ")"%char _ _ B Q).
      - repeat apply not_in_app; try assumption;
          vm_compute; intuition discriminate.
      - repeat apply not_in_app; try assumption;
          vm_compute; intuition discriminate.
      - change (js "![") with ("!"%char :: "["%char :: []) in H.
        change (js ")") with (")"%char :: []) in H.
        rewrite <- !app_assoc in H. simpl in H. injection H as H.
        rewrite <- !app_assoc. exact H. }
    assert (Hsame : js "![" ++ alt' ++ js "](" ++ p ++ js ")"
                    = js "![" ++ alt ++ js "](" ++ (js "http" ++ rest) ++ js ")").
    { rewrite (app_assoc alt'), (app_assoc (alt' ++ js "](")).
      rewrite <- (app_assoc alt'), <- He. rewrite <- !app_assoc. reflexivity. }
    rewrite Hsame, remoteImage_shape in Hr by exact rest_open.
    discriminate Hr.
  - intros l l' B Q Hm. apply (bang_tail (js "[" ++ alt' ++ js "](" ++ p ++ js ")")
                                 (js "[" ++ alt ++ js "](" ++ (js "http" ++ rest) ++ js ")")).
    + exact Hm.
    + repeat apply not_in_app; try assumption; vm_compute; intuition discriminate.
  - intros l l' B Q HL H1 H2 H.
    apply (bang_tail (js "[" ++ alt ++ js "](" ++ (js "http" ++ rest) ++ js ")")
             (js "[" ++ alt' ++ js "](" ++ p ++ js ")") l l' Q B); try assumption.
    exact remote_tail_no_bang.
Qed.

Lemma remote_kept_by_embeds E filePath l :
  Forall plainEmbed l ->
  forall st,
    keeps (js "![" ++ alt ++ js "](" ++ (js "http" ++ rest) ++ js ")") (fst st) ->
    keeps (js "![" ++ alt ++ js "](" ++ (js "http" ++ rest) ++ js ")")
      (fst (fold_left (convertTranscludedImage E filePath) l st)).
Proof.
  intros Hl. induction Hl as [|m l Hm Hl IH]; intros st Hk; [exact Hk|].
  cbn [fold_left]. apply IH.
  destruct (convertTranscludedImage_cases E filePath st m) as [->|(r & ->)];
    [exact Hk|].
  apply remote_vs_embed; assumption.
Qed.

Lemma remote_kept_by_images E filePath l :
  Forall plainImage l ->
  forall st,
    keeps (js "![" ++ alt ++ js "](" ++ (js "http" ++ rest) ++ js ")") (fst st) ->
    keeps (js "![" ++ alt ++ js "](" ++ (js "http" ++ rest) ++ js ")")
      (fst (fold_left (convertMarkdownImage E filePath) l st)).
Proof.
  intros Hl. induction Hl as [|m l Hm Hl IH]; intros st Hk; [exact Hk|].
  cbn [fold_left]. apply IH.
  destruct (convertMarkdownImage_cases E filePath st m)
    as [->|(Hr & r & ->)]; [exact Hk|].
  apply remote_vs_image; assumption.
Qed.

End RemoteImage.

Lemma convertImageLinks_skips E text filePath :
  convertImageLinks E text filePath
  = fold_left (convertMarkdownImage E filePath)
      (filter (fun m => negb (remoteImage m)) (matches imageRegex text))
      (fold_left (convertTranscludedImage E filePath)
         (matches transcludedImageRegex text) (text, [])).
Proof.
  unfold convertImageLinks. cbv zeta.
  rewrite fold_left_skip; [reflexivity|].
  intros st m Hm. apply convertMarkdownImage_remote.
  apply negb_false_iff. exact Hm.
Qed.

(** X20: a match of the markdown image pattern whose path, the text of its
    last parentheses, begins with [http] is not looked up in the vault.  The
    image pass and the listing of the image links are each the loop over the
    other matches.  A remote image [![alt](http...)], written without
    exclamation mark, opening bracket or closing parenthesis in its name and
    without exclamation mark or parenthesis in its address, is still in the
    converted text, whenever the image embeds of the text are each written
    [![[inner]]] without closing bracket or exclamation mark inside and its
    markdown images that are not remote [![alt](path)] without exclamation
    mark or closing parenthesis in the two parts.  The pattern can match
    from a remote image up to the extension of a later image; that match is
    looked up by the later path, with the first name. *)
Theorem remote_images_left_alone :
  (forall E text filePath,
      convertImageLinks E text filePath
      = fold_left (convertMarkdownImage E filePath)
          (filter (fun m => negb (remoteImage m)) (matches imageRegex text))
          (fold_left (convertTranscludedImage E filePath)
             (matches transcludedImageRegex text) (text, []))) /\
  (forall E file text,
      cachedRead E file = Some text ->
      extractImageLinks E file
      = Some
          (fold_left (extractMarkdownImage E file)
             (filter (fun m => negb (remoteImage m)) (matches imageRegex text))
             (fold_left (extractTranscludedImage E file)
                (matches transcludedImageRegex text) []))) /\
  (forall E filePath a alt rest b,
      ~ In "!"%char alt -> ~ In "["%char alt -> ~ In ")"%char alt ->
      ~ In "!"%char rest -> ~ In "("%char rest -> ~ In ")"%char rest ->
      Forall plainEmbed
        (matches transcludedImageRegex
           (a ++ (js "![" ++ alt ++ js "](" ++ (js "http" ++ rest) ++ js ")")
              ++ b)) ->
      Forall plainImage
        (filter (fun m => negb (remoteImage m))
           (matches imageRegex
              (a ++ (js "![" ++ alt ++ js "](" ++ (js "http" ++ rest) ++ js ")")
                 ++ b))) ->
      keeps (js "![" ++ alt ++ js "](" ++ (js "http" ++ rest) ++ js ")")
        (fst (convertImageLinks E
                (a ++ (js "![" ++ alt ++ js "](" ++ (js "http" ++ rest)
                         ++ js ")") ++ b)
                filePath))) /\
  convertImageLinks (Vault.plain Vault.pictures)
    (js "![a](http://x/y.png) and ![b](photo.jpg)") (getPath Vault.root)
  = (js "![a](http://x/y.png) and ![b](/img/user/my assets/photo.jpg)",
     [ {| assetPath := js "/img/user/my assets/photo.jpg";
          content := js "base64:JPG" |} ]) /\
  convertImageLinks (Vault.plain Vault.pictures)
    (js "![a](http://x/y.png?s=1) and ![b](photo.jpg)") (getPath Vault.root)
  = (js "![a](/img/user/my assets/photo.jpg)",
     [ {| assetPath := js "/img/user/my assets/photo.jpg";
          content := js "base64:JPG" |} ]).
Proof.
  split; [exact convertImageLinks_skips|].
  split.
  { intros E file text Hr. unfold extractImageLinks. rewrite Hr. cbv zeta.
    rewrite fold_left_skip; [reflexivity|].
    intros st m Hm. apply extractMarkdownImage_remote.
    apply negb_false_iff. exact Hm. }
  split.
  { intros E filePath a alt rest b Ha1 Ha2 Ha3 Hr1 Hr2 Hr3 Hembeds Himages.
    rewrite convertImageLinks_skips.
    apply remote_kept_by_images; try assumption.
    apply remote_kept_by_embeds; try assumption.
    exists a, b. reflexivity. }
  split; vm_compute; reflexivity.
Qed.

Lemma remote_images_left_alone_witness :
  keeps (js "![" ++ js "a" ++ js "](" ++ (js "http" ++ js "://x/y.png") ++ js ")")
    (fst (convertImageLinks (Vault.plain Vault.pictures)
            ([] ++ (js "![" ++ js "a" ++ js "](" ++
                    (js "http" ++ js "://x/y.png") ++ js ")") ++
             js " and ![b](photo.jpg) ![[pic.png]]")
            (getPath Vault.root))) /\
  extractImageLinks (Vault.plain Vault.remote) Vault.root
  = Some [js "my assets/photo.jpg"].
Proof.
  split.
  - apply (proj1 (proj2 (proj2 remote_images_left_alone))); try absent.
    + assert (Hm : matches transcludedImageRegex
                     ([] ++ (js "![" ++ js "a" ++ js "](" ++
                             (js "http" ++ js "://x/y.png") ++ js ")") ++
                      js " and ![b](photo.jpg) ![[pic.png]]")
                   = [js "![[" ++ js "pic.png" ++ js "]]"])
        by evaluated.
      rewrite Hm.
      repeat constructor; eexists; (split; [reflexivity|]); split; absent.
    + assert (Hm : filter (fun m => negb (remoteImage m))
                     (matches imageRegex
                        ([] ++ (js "![" ++ js "a" ++ js "](" ++
                                (js "http" ++ js "://x/y.png") ++ js ")") ++
                         js " and ![b](photo.jpg) ![[pic.png]]"))
                   = [js "![" ++ js "b" ++ js "](" ++ js "photo.jpg" ++ js ")"])
        by evaluated.
      rewrite Hm.
      repeat constructor; do 2 eexists; (split; [reflexivity|]);
        repeat split; absent.
  - rewrite (proj1 (proj2 remote_images_left_alone)
               (Vault.plain Vault.remote) Vault.root
               (js "![a](http://x/y.png) and ![b](photo.jpg)"));
      evaluated.
Defined.

(** ** Worked examples *)

(** In the example vaults a file that a link resolves to can be read. *)
Lemma vault_readable files dvApi codeFence link filePath linkedFile :
  getFirstLinkpathDest (Vault.env files dvApi codeFence) link filePath
  = Some linkedFile ->
  readBinary (Vault.env files dvApi codeFence) linkedFile <> None.
Proof.
  cbn [Vault.env getFirstLinkpathDest readBinary].
  unfold Vault.lookup, Vault.byPath. intros H.
  destruct (find _ files) as [e|] eqn:Hf; [|discriminate H].
  cbn [option_map] in H. inversion H; subst linkedFile.
  apply find_some in Hf. destruct Hf as [Hin _].
  destruct (find (fun e0 => Str.eqb (path (Vault.file e0)) (path (Vault.file e)))
              files) eqn:Hg; [discriminate|].
  exfalso. apply (find_none _ _ Hg) in Hin.
  rewrite str_eqb_refl in Hin. discriminate Hin.
Qed.


Lemma prose_compiles_to_itself_witness :
  generateMarkdown (Vault.plain Vault.prose) Vault.root
  = ret (Some (js "Just prose.", [])).
Proof.
  apply (prose_compiles_to_itself (Vault.plain Vault.prose) Vault.root
           (js "Just prose."));
    try evaluated; absent.
Defined.

Lemma invalid_filter_skipped_witness :
  fst (convertCustomFilters
         (withFilters Vault.strict
            ([ {| pattern := js "a"; flags := js "g"; replace := js "!" |} ] ++
             {| pattern := js "("; flags := js "g"; replace := js "x" |} ::
             [ {| pattern := js "b"; flags := js "g"; replace := js "?" |} ]))
         Vault.root (js "abc"))
  = fst (convertCustomFilters
           (withFilters Vault.strict
              ([ {| pattern := js "a"; flags := js "g"; replace := js "!" |} ] ++
               [ {| pattern := js "b"; flags := js "g"; replace := js "?" |} ]))
           Vault.root (js "abc")) /\
  In (invalidFilterNotice
        {| pattern := js "("; flags := js "g"; replace := js "x" |})
    (snd (convertCustomFilters
            (withFilters Vault.strict
               ([ {| pattern := js "a"; flags := js "g"; replace := js "!" |} ] ++
                {| pattern := js "("; flags := js "g"; replace := js "x" |} ::
                [ {| pattern := js "b"; flags := js "g"; replace := js "?" |} ]))
            Vault.root (js "abc"))).
Proof.
  apply (invalid_filter_skipped Vault.strict Vault.root (js "abc")
           [ {| pattern := js "a"; flags := js "g"; replace := js "!" |} ]
           {| pattern := js "("; flags := js "g"; replace := js "x" |}
           [ {| pattern := js "b"; flags := js "g"; replace := js "?" |} ]).
  intros t. reflexivity.
Defined.

Lemma block_ids_written_witness :
  createBlockIDs Vault.root (js "para ^abc\nnext") = js "para\n{ #abc}\n\nnext" /\
  createBlockIDs Vault.root (js "para\n^abc\n\nnext")
  = js "para{ #abc}\n\n\nnext".
Proof.
  assert (Hne : js "abc" <> []) by discriminate.
  assert (Hid : forallb isIdChar (js "abc") = true) by evaluated.
  assert (Ha : ~ In "^"%char (js "para")) by absent.
  assert (Hb : ~ In "^"%char (js "\nnext")) by absent.
  destruct (block_ids_written Vault.root (js "para") (js "abc") (js "\nnext")
              Hne Hid Ha Hb) as [H1 H2].
  specialize (H1 eq_refl).
  split; [vm_compute in H1 | vm_compute in H2]; vm_compute; assumption.
Defined.

Lemma comment_removed_witness :
  removeObsidianComments (Vault.plain []) Vault.root
    (js "keep %%note\nmore%% this")
  = js "keep  this".
Proof.
  assert (Hn : noCodeRegion (Vault.plain [])
                 (js "keep " ++ comment "n"%char (js "ote\nmore") ++ js " this"))
    by (repeat split).
  assert (Ha : ~ In "%"%char (js "keep ")) by absent.
  assert (Hy : ~ In "%"%char (js "ote\nmore")) by absent.
  assert (Hb : ~ In "%"%char (js " this")) by absent.
  pose proof (comment_removed (Vault.plain []) Vault.root (js "keep ")
                "n"%char (js "ote\nmore") (js " this") Hn Ha Hy Hb) as H.
  vm_compute in H. vm_compute. exact H.
Defined.

Lemma dataview_notice_witness :
  convertDataViews
    (Vault.env [] (Some Vault.rendering) (fun _ => [])) Vault.root
    (js "total: `= this.sum` items")
  = (js "`= this.sum`",
     [Notice (js "Unable to render inline dataview query. Please update the dataview plugin to the latest version.")]).
Proof.
  apply (proj2 (dataview_notice
                  (Vault.env [] (Some Vault.rendering) (fun _ => []))
                  Vault.root (js "total: `= this.sum` items"))
           Vault.rendering
           (js "`= this.sum`", [(1, js " this.sum")]) []).
  - reflexivity.
  - intros b Hb. discriminate.
  - intros b Hb. discriminate.
  - vm_compute. reflexivity.
Defined.

Lemma block_query_rendered_witness :
  convertDataViews
    (Vault.env Vault.queried (Some Vault.rendering) (fun _ => [])) Vault.root
    (js "intro\n```dataview\nLIST\n```\noutro")
  = ret (js "intro\n- one\n- two\n{ .block-language-dataview}\noutro").
Proof.
  assert (Ha : ~ In "`"%char (js "intro\n")) by absent.
  assert (Hq : ~ In "`"%char (js "IST\n")) by absent.
  assert (Hb : ~ In "`"%char (js "\noutro")) by absent.
  assert (Hd : ~ In "$"%char (js "- one\n- two")) by absent.
  pose proof (fun h1 h2 h3 h4 => proj2 (block_query_rendered
                (Vault.env Vault.queried (Some Vault.rendering) (fun _ => []))
                Vault.rendering Vault.root (js "intro\n") nl "L"%char
                (js "IST\n") (js "\noutro") (js "- one\n- two")
                eq_refl eq_refl Ha Hq Hb h1 h2 h3 h4)) as H.
  assert (H1 : matches (blockQueryRegex (dataviewJsKeyword Vault.rendering))
                 (js "intro\n" ++
                  queryBlock (js "dataview") nl ("L"%char :: js "IST\n") ++
                  js "\noutro") = []) by evaluated.
  assert (H2 : matches (inlineQueryRegex (inlineQueryPrefix Vault.rendering))
                 (js "intro\n" ++
                  queryBlock (js "dataview") nl ("L"%char :: js "IST\n") ++
                  js "\noutro") = []) by evaluated.
  assert (H3 : matches (inlineQueryRegex (inlineJsQueryPrefix Vault.rendering))
                 (js "intro\n" ++
                  queryBlock (js "dataview") nl ("L"%char :: js "IST\n") ++
                  js "\noutro") = []) by evaluated.
  specialize (H H1 H2 H3 eq_refl Hd).
  vm_compute in H. vm_compute. exact H.
Defined.

Lemma link_reads_back_witness :
  parseLink (js "[[target#Intro\\|shown]]")
  = {| linkedFileName := js "target"; headerPath := js "#Intro";
       linkDisplayName := js "shown" |} /\
  parseLink (js "[[target#Intro|shown]]")
  = {| linkedFileName := js "target"; headerPath := js "#Intro";
       linkDisplayName := js "shown" |}.
Proof.
  assert (Hh : isHeaderPath (js "#Intro"))
    by (right; exists (js "Intro"); split; reflexivity).
  assert (Hne : js "shown" <> []) by discriminate.
  destruct (link_reads_back (js "target") (js "#Intro") (js "shown")
              eq_refl Hh eq_refl Hne) as [H1 H2].
  specialize (H2 eq_refl).
  split; [vm_compute in H1 | vm_compute in H2]; vm_compute; assumption.
Defined.

Lemma note_link_canonical_witness :
  convertLinksToFullPath (Vault.plain Vault.linked) Vault.root
    (js "see [[target#Intro|shown]] end")
  = js "see [[notes/target#Intro\\|shown]] end".
Proof.
  assert (Hp : noProtectedText (Vault.plain Vault.linked)
                 (js "see " ++
                  (js "[[" ++ (js "target" ++ js "#Intro" ++ js "|" ++ js "shown")
                   ++ js "]]") ++ js " end"))
    by (repeat split).
  assert (Ha : ~ In "["%char (js "see ")) by absent.
  assert (Hb : ~ In "["%char (js " end")) by absent.
  assert (Hh : isHeaderPath (js "#Intro"))
    by (right; exists (js "Intro"); split; reflexivity).
  assert (Hne : js "shown" <> []) by discriminate.
  assert (Hs : ~ In "$"%char (js "notes/target")) by absent.
  assert (Hhd : ~ In "$"%char (js "#Intro")) by absent.
  assert (Hdd : ~ In "$"%char (js "shown")) by absent.
  pose proof (proj2 (note_link_canonical (Vault.plain Vault.linked) Vault.root
                (js "see ") (js "target") (js "#Intro") (js "shown") (js " end")
                (Vault.note "notes/" "target") (js "notes/target")
                Hp Ha Hb eq_refl Hh eq_refl Hne eq_refl eq_refl eq_refl
                eq_refl) Hs Hhd Hdd) as H.
  vm_compute in H. vm_compute. exact H.
Defined.

Lemma escaped_link_fixed_witness :
  convertLinksToFullPath (Vault.plain []) Vault.root
    (js "see [[ghost#Part\\|shown]] end")
  = js "see [[ghost#Part\\|shown]] end".
Proof.
  assert (Hp : noProtectedText (Vault.plain [])
                 (js "see " ++ escapedLink (js "ghost") (js "#Part") (js "shown")
                  ++ js " end"))
    by (repeat split).
  assert (Ha : ~ In "["%char (js "see ")) by absent.
  assert (Hb : ~ In "["%char (js " end")) by absent.
  assert (Hh : isHeaderPath (js "#Part"))
    by (right; exists (js "Part"); split; reflexivity).
  assert (Hne : js "shown" <> []) by discriminate.
  assert (Hs : ~ In "$"%char (js "ghost")) by absent.
  assert (Hhd : ~ In "$"%char (js "#Part")) by absent.
  assert (Hdd : ~ In "$"%char (js "shown")) by absent.
  pose proof (proj2 (escaped_link_fixed (Vault.plain []) Vault.root
                       (js "see ") (js "ghost") (js "#Part") (js "shown")
                       (js " end") Hp Ha Hb eq_refl Hh eq_refl Hne eq_refl)
                Hs Hhd Hdd) as H.
  vm_compute in H. vm_compute. exact H.
Defined.

Lemma note_embedded_witness :
  createTranscludedText
    (Vault.garden Vault.chain [Vault.note "" "n6"]) 0 Vault.root
    (js "see " ++ (js "![[" ++ js "n6" ++ js "]]") ++ js " end")
  = ret (js "see " ++
         (js "\n<div class=\x22transclusion internal-embed is-loaded\x22>" ++
          linkBack (js "/n6.md") ++ js "<div class=\x22markdown-embed\x22>\n\n" ++
          js "\n\n" ++ js "six" ++ js "\n\n</div></div>\n") ++
         js " end").
Proof.
  assert (Hd : 0 < 4) by lia.
  assert (Ha : ~ In "["%char (js "see ")) by absent.
  assert (Hb : ~ In "["%char (js " end")) by absent.
  assert (Hne : js "n6" <> []) by discriminate.
  assert (Hbody : ~ In "["%char (js "six")) by absent.
  assert (Hlink : ~ In "["%char (linkBack (js "/n6.md"))) by absent.
  assert (Hdb : ~ In "$"%char (js "six")) by absent.
  assert (Hdl : ~ In "$"%char (linkBack (js "/n6.md"))) by absent.
  apply (proj2 (note_embedded
                  (Vault.garden Vault.chain [Vault.note "" "n6"]) 0 Vault.root
                  (js "see ") (js "n6") (js " end") (Vault.note "" "n6")
                  (js "six") (linkBack (js "/n6.md"))
                  Hd Ha Hb eq_refl Hne eq_refl eq_refl eq_refl eq_refl eq_refl
                  eq_refl eq_refl Hbody Hlink
                  (or_intror (conj eq_refl (conj eq_refl eq_refl))))
           Hdb Hdl).
Defined.


Lemma drawings_numbered_in_order_witness :
  ownDrawings
    (snd (createTranscludedText (Vault.plain Vault.sketches) 0 Vault.root
            (js "![[d1.excalidraw]] and ![[d2.excalidraw]]")))
  = [ (drawingOptions 1, Vault.drawing "d1");
      (drawingOptions 2, Vault.drawing "d2") ].
Proof.
  assert (Hd : 0 < 4) by lia.
  assert (Hr : forall f,
             In f (embeddedDrawings (Vault.plain Vault.sketches) Vault.root
                     (js "![[d1.excalidraw]] and ![[d2.excalidraw]]")) ->
             cachedRead (Vault.plain Vault.sketches) f <> None).
  { intros f Hf. vm_compute in Hf.
    destruct Hf as [<-|[<-|[]]]; vm_compute; discriminate. }
  pose proof (drawings_numbered_in_order (Vault.plain Vault.sketches) 0
                Vault.root (js "![[d1.excalidraw]] and ![[d2.excalidraw]]")
                Hd Hr) as H.
  vm_compute in H. vm_compute. exact H.
Defined.

Lemma other_files_not_embedded_witness :
  createTranscludedText (Vault.plain Vault.pictures) 0 Vault.root
    (js "![[pic.png]]")
  = ret (js "![[pic.png]]").
Proof.
  apply (other_files_not_embedded (Vault.plain Vault.pictures) 0 Vault.root
           (js "![[pic.png]]")).
  intros m Hm. vm_compute in Hm. destruct Hm as [<-|[]].
  vm_compute. split; reflexivity.
Defined.

Lemma missing_section_takes_whole_note_witness :
  createTranscludedText
    (Vault.garden Vault.sections [Vault.note "" "target"]) 0 Vault.root
    (js "see " ++ (js "![[" ++ (js "target" ++ js "#" ++ js "Z") ++ js "]]") ++
     js " end")
  = ret (js "see " ++
         Str.expand
           (js "\n<div class=\x22transclusion internal-embed is-loaded\x22>" ++
            linkBack (js "/target.md#Z") ++ js "<div class=\x22markdown-embed\x22>\n\n" ++
            js "\n\n" ++ 
            js "# A\na1\na2\na3\na4\n## B\nb1\nb2\nb3\nb4\n# C\nc1" ++ js "\n\n</div></div>\n")
           (js "![[" ++ (js "target" ++ js "#" ++ js "Z") ++ js "]]")
           (js "see ") (js " end") ++
         js " end").
Proof.
  assert (Hd : 0 < 4) by lia.
  assert (Ha : ~ In "["%char (js "see ")) by absent.
  assert (Hb : ~ In "["%char (js " end")) by absent.
  assert (Hne : js "target" <> []) by discriminate.
  assert (Hbody : ~ In "["%char
            (js "# A\na1\na2\na3\na4\n## B\nb1\nb2\nb3\nb4\n# C\nc1")) by absent.
  assert (Hlink : ~ In "["%char (linkBack (js "/target.md#Z"))) by absent.
  assert (Ht : plainWord (js "target") = true) by evaluated.
  assert (Hs : plainWord (js "Z") = true) by evaluated.
  assert (Hnote : isDrawing (Vault.note "" "target") = false) by evaluated.
  assert (Hmd : extension (Vault.note "" "target") = js "md") by evaluated.
  assert (Hread :
    cachedRead (Vault.garden Vault.sections [Vault.note "" "target"])
      (Vault.note "" "target")
    = Some (js "# A\na1\na2\na3\na4\n## B\nb1\nb2\nb3\nb4\n# C\nc1"))
    by evaluated.
  assert (Hcase :
    published (Vault.garden Vault.sections [Vault.note "" "target"])
      (Vault.note "" "target") = true /\
    permalinkOf (Vault.garden Vault.sections [Vault.note "" "target"])
      (Vault.note "" "target") = None /\
    linkBack (js "/target.md#Z")
    = linkBack
        (("/"%char ::
          generateUrlPath (Vault.garden Vault.sections [Vault.note "" "target"])
            (getGardenPathForNote
               (Vault.garden Vault.sections [Vault.note "" "target"])
               (path (Vault.note "" "target")))) ++
         js "#" ++
         slugify (Vault.garden Vault.sections [Vault.note "" "target"])
           (js "Z"))).
  { split; [evaluated|]. split; [evaluated|]. apply f_equal. evaluated. }
  apply (proj1 (missing_section_takes_whole_note
                  (Vault.garden Vault.sections [Vault.note "" "target"]) 0
                  Vault.root (js "see ") (js "target") (js "Z") (js " end")
                  (Vault.note "" "target")
                  (js "# A\na1\na2\na3\na4\n## B\nb1\nb2\nb3\nb4\n# C\nc1")
                  (linkBack (js "/target.md#Z"))
                  Hd Ha Hb Ht Hs Hne Hnote Hmd Hread eq_refl
                  eq_refl eq_refl Hbody Hlink (or_intror Hcase)));
    evaluated.
Defined.

Lemma inherited_anchor_not_embedded_witness :
  createTranscludedText (Vault.plain Vault.anchored) 0 Vault.root
    (js "see " ++
     (js "![[" ++ (js "target" ++ js "#^" ++ js "constructor") ++ js "]]") ++
     js " end")
  = ret (js "see " ++
         (js "![[" ++ (js "target" ++ js "#^" ++ js "constructor") ++ js "]]") ++
         js " end").
Proof.
  assert (Ha : ~ In "["%char (js "see ")) by absent.
  assert (Hb : ~ In "["%char (js " end")) by absent.
  assert (Hne : js "target" <> []) by discriminate.
  assert (Hkey : In (js "constructor") objectPrototypeKeys)
    by (left; reflexivity).
  apply (inherited_anchor_not_embedded (Vault.plain Vault.anchored) 0
           Vault.root (js "see ") (js "target") (js "constructor") (js " end")
           (Vault.note "" "target") (js "a\n^blk: content\nb")
           Vault.oneAnchor
           (fun id => if Str.eqb id (js "blk")
                      then Some {| startLine := 1; endLine := 1 |}
                      else None)
           Ha Hb eq_refl Hne Hkey eq_refl eq_refl eq_refl eq_refl eq_refl
           eq_refl eq_refl).
Defined.

Lemma title_variable_replaced_witness :
  generateTransclusionHeader (Vault.plain []) (Some (js "From {{title}}!"))
    (Vault.note "" "n1")
  = Some (js "From n1!").
Proof.
  assert (Hp : ~ In "{"%char (js "From ")) by absent.
  assert (Hb : ~ In "$"%char (basename (Vault.note "" "n1"))) by absent.
  pose proof (proj2 (title_variable_replaced (Vault.plain []) (js "From ")
                       (js "!") (Vault.note "" "n1") Hp) Hb) as H.
  vm_compute in H. vm_compute. exact H.
Defined.

Lemma linked_svg_inlined_witness :
  createSvgEmbeds (Vault.plain Vault.logo) Vault.root
    (js "logo: ![logo](assets/logo.svg) end")
  = js "logo: <svg></svg> end" /\
  createSvgEmbeds (Vault.plain Vault.logo) Vault.root
    (js "logo: ![a logo|40](assets/logo.svg) end")
  = js "logo: <svg></svg> end".
Proof.
  assert (Ha : ~ In "["%char (js "logo: ")) by absent.
  assert (Hb : ~ In "["%char (js " end")) by absent.
  assert (Hpp : ~ In "."%char (js "assets/logo")) by absent.
  assert (Hpo : ~ In "("%char (js "assets/logo")) by absent.
  split.
  - assert (Hca : ~ In "]"%char (js "logo")) by absent.
    assert (Hbar : ~ In "|"%char (tl (js "logo"))) by absent.
    pose proof (proj1 (linked_svg_inlined (Vault.plain Vault.logo) Vault.root
                         (js "logo: ") (js "logo") (js "assets/logo") (js " end")
                         (Vault.image "assets/" "logo" "svg") (js "<svg></svg>")
                         eq_refl Ha Hb eq_refl Hca eq_refl Hpp Hpo eq_refl
                         eq_refl eq_refl) Hbar) as H.
    vm_compute in H. vm_compute. exact H.
  - assert (Hca : ~ In "]"%char (js "a logo|40")) by absent.
    assert (Hn : ~ In "|"%char (js " logo")) by absent.
    assert (Hs : ~ In "|"%char (js "40")) by absent.
    assert (Hne : js "40" <> []) by discriminate.
    assert (Hsvg : js "<svg></svg>" <> []) by discriminate.
    pose proof (proj2 (linked_svg_inlined (Vault.plain Vault.logo) Vault.root
                         (js "logo: ") (js "a logo|40") (js "assets/logo")
                         (js " end")
                         (Vault.image "assets/" "logo" "svg") (js "<svg></svg>")
                         eq_refl Ha Hb eq_refl Hca eq_refl Hpp Hpo eq_refl
                         eq_refl eq_refl)
                  "a"%char (js " logo") (js "40") (js "<svg></svg>")
                  eq_refl Hn Hs Hne Hsvg eq_refl) as H.
    vm_compute in H. vm_compute. exact H.
Defined.

Lemma extracted_images_are_the_assets_witness :
  option_map (map cmsImgPath)
    (extractImageLinks (Vault.plain Vault.album) Vault.root)
  = Some (map assetPath
            (snd (convertImageLinks (Vault.plain Vault.album)
                    (js "![[pic.png|200]] and ![x](photo.jpg)")
                    (getPath Vault.root)))).
Proof.
  apply (extracted_images_are_the_assets (Vault.plain Vault.album) Vault.root
           (js "![[pic.png|200]] and ![x](photo.jpg)")).
  - reflexivity.
  - intros link linkedFile. apply vault_readable.
Defined.

Lemma unresolved_images_left_alone_witness :
  convertImageLinks (Vault.plain Vault.pictures)
    (js "![[missing.png]] and ![x](absent.jpg)") (js "root.md")
  = (js "![[missing.png]] and ![x](absent.jpg)", []).
Proof.
  apply (unresolved_images_left_alone (Vault.plain Vault.pictures)
           (js "![[missing.png]] and ![x](absent.jpg)") (js "root.md")).
  - intros m f Hm. vm_compute in Hm. destruct Hm as [<-|[]].
    vm_compute. discriminate.
  - intros m f Hm. vm_compute in Hm. destruct Hm as [<-|[]].
    vm_compute. discriminate.
Defined.
